(** * wavestate.utilities.np: shape-broadcasting stackers

    A shallow embedding of [broadcast_shapes], [matrix_stack], [vector_stack]
    and [matrix_stack_id] from [src/wavestate/utilities/np.py], together with
    the numpy primitives they call ([np.broadcast_shapes], [np.result_type],
    [np.empty], [np.array], [np.broadcast_to] and sliced assignment). *)

From Equations Require Import Equations.
From stdpp Require Import base numbers list option sorting.
From Stdlib Require Import Sorted.

Set Default Proof Using "Type".
Set Warnings "-clear-no-such-hyp".

(** ** Python exceptions and the call log *)

(** The exceptions the modelled code can raise. *)
Inductive exn : Type :=
| AssertionError        (* [assert len(row) == Ncols]: the spec's RaggedInput *)
| ValueError_broadcast  (* [np.broadcast_shapes] on incompatible shapes: the spec's ShapeMismatch *)
| ValueError_no_operand (* [np.result_type()] without any operand *)
| IndexError            (* [arr[0]] on an empty list *)
| TypeError             (* [len(None)], or [None] passed as a shape *)
| OverflowError.        (* a Python integer assigned into a dtype that cannot hold it *)

Definition RaggedInput : exn := AssertionError.
Definition ShapeMismatch : exn := ValueError_broadcast.

Inductive result (A : Type) : Type :=
| Ok (a : A)
| Raise (e : exn).
Arguments Ok {A} a.
Arguments Raise {A} e.

Definition Shape : Type := list nat.

(** The calls of numpy primitives that are logged. *)
Inductive event : Type :=
| EvResultType (n : nat)       (* [np.result_type] applied to [n] operands *)
| EvBroadcastShapes (n : nat)  (* [np.broadcast_shapes] applied to [n] operands *)
| EvAlloc (s : Shape).         (* a result array of shape [s] is allocated *)

(** A computation logs the primitive calls it makes and either returns a
    value or raises; the log survives a raise. *)
Definition M (A : Type) : Type := (list event * result A)%type.

Definition ret {A} (a : A) : M A := ([], Ok a).
Definition raise {A} (e : exn) : M A := ([], Raise e).
Definition tell (ev : event) : M unit := ([ev], Ok tt).
Definition bind {A B} (m : M A) (f : A → M B) : M B :=
  match m.2 with
  | Ok a => (m.1 ++ (f a).1, (f a).2)
  | Raise e => (m.1, Raise e)
  end.

Global Instance M_ret : MRet M := @ret.
Global Instance M_bind : MBind M := λ A B f m, bind m f.

Definition trace {A} (m : M A) : list event := m.1.
Definition outcome {A} (m : M A) : result A := m.2.

(** ** Shapes and numpy's broadcasting rule *)

(** Number of elements of an array of shape [s]. *)
Definition size_of (s : Shape) : nat := foldr Nat.mul 1 s.

(** The extent of [s] at position [j] counted from the right; positions to
    the left of the shape read as 1. *)
Definition dim_r (s : Shape) (j : nat) : nat := nth j (reverse s) 1.

(** One step of the broadcast: the accumulated extent [acc] meets the
    extent [d] of the next operand. *)
Definition unify_dim (acc d : nat) : option nat :=
  if d =? 1 then Some acc
  else if acc =? 1 then Some d
  else if acc =? d then Some acc
  else None.

Definition unify_all (ds : list nat) : option nat :=
  foldl (λ acc d, acc ≫= λ a, unify_dim a d) (Some 1) ds.

(** [np.broadcast_shapes] on the operand shapes: the rank is the largest rank; each
    position unifies the extents of all the operands at once.  [None] is
    numpy's [ValueError] (shape mismatch). *)
Definition np_broadcast_shapes (shapes : list Shape) : option Shape :=
  let nd := foldr Nat.max 0 (length <$> shapes) in
  reverse <$> mapM (λ j, unify_all ((λ s, dim_r s j) <$> shapes)) (seq 0 nd).

(** ** Data types *)

Inductive DType : Type :=
| Bool | UInt8 | Int8 | UInt16 | Int16 | Float16
| UInt32 | Int32 | Float32 | UInt64 | Int64 | Float64
| Complex64 | Complex128.

Global Instance DType_eq_dec : EqDecision DType.
Proof. solve_decision. Defined.

Inductive kind : Type := KBool | KUInt | KInt | KFloat | KComplex.

Definition kind_of (t : DType) : kind :=
  match t with
  | Bool => KBool
  | UInt8 | UInt16 | UInt32 | UInt64 => KUInt
  | Int8 | Int16 | Int32 | Int64 => KInt
  | Float16 | Float32 | Float64 => KFloat
  | Complex64 | Complex128 => KComplex
  end.

(** Item size in bits. *)
Definition bits (t : DType) : nat :=
  match t with
  | Bool | UInt8 | Int8 => 8
  | UInt16 | Int16 | Float16 => 16
  | UInt32 | Int32 | Float32 => 32
  | UInt64 | Int64 | Float64 | Complex64 => 64
  | Complex128 => 128
  end.

(** Bits of integer precision a floating or complex type holds exactly. *)
Definition mantissa (t : DType) : nat :=
  match t with
  | Float16 => 11
  | Float32 | Complex64 => 24
  | Float64 | Complex128 => 53
  | _ => 0
  end.

(** [np.can_cast(a, b, casting='safe')]. *)
Definition can_cast (a b : DType) : bool :=
  match kind_of a, kind_of b with
  | KBool, _ => true
  | _, KBool => false
  | KUInt, KUInt => bits a <=? bits b
  | KUInt, KInt => bits a <? bits b
  | KInt, KUInt => false
  | KInt, KInt => bits a <=? bits b
  | KUInt, (KFloat | KComplex) => (bits a <=? mantissa b) || (32 <=? bits a) && (53 <=? mantissa b)
  | KInt, (KFloat | KComplex) => (bits a <=? mantissa b + 1) || (32 <=? bits a) && (53 <=? mantissa b)
  | KFloat, KFloat => bits a <=? bits b
  | KFloat, KComplex => mantissa a <=? mantissa b
  | KComplex, KComplex => bits a <=? bits b
  | (KFloat | KComplex), _ => false
  end.

(** All the types, by item size and then by kind. *)
Definition all_dtypes : list DType :=
  [Bool; UInt8; Int8; UInt16; Int16; Float16; UInt32; Int32; Float32;
   UInt64; Int64; Float64; Complex64; Complex128].

(** The promotion of some types: the first type, by item size and then by
    kind, that every one of them casts to safely.  This is the rule of
    [np.result_type] on arrays (the value-based casting that older numpy
    applies to 0-d operands is not modelled); there is no result without
    operands. *)
Definition common_dtype (ts : list DType) : option DType :=
  match ts with
  | [] => None
  | _ => head (filter (λ t, forallb (λ a, can_cast a t) ts) all_dtypes)
  end.

(** [np.promote_types(a, b)]. *)
Definition promote_types (a b : DType) : DType :=
  default Complex128 (common_dtype [a; b]).

(** Platform integer of a Python [int] literal ([np.asarray(0).dtype]). *)
Definition default_int : DType := Int64.


(** ** Arrays *)

(** An operand as numpy reads it: the [shape], the [dtype] and the elements
    in row-major (C) order that [np.asarray] gives it.  [raw] tells what
    was passed: [false] for an [np.ndarray], [true] for a Python number or
    (nested) list of numbers that has not been through [np.asarray].  Every
    array that numpy returns has [raw = false]. *)
Record ndarray (V : Type) : Type := mk_ndarray {
  shape : Shape;
  dtype : DType;
  data : list V;
  raw : bool;
}.
Arguments mk_ndarray {V} _ _ _ _.
Arguments shape {V} _.
Arguments dtype {V} _.
Arguments data {V} _.
Arguments raw {V} _.

(** The primitive as the code calls it: the call is logged and a shape
    mismatch is raised. *)
Definition call_broadcast_shapes (shapes : list Shape) : M Shape :=
  tell (EvBroadcastShapes (length shapes));;
  match np_broadcast_shapes shapes with
  | Some b => mret b
  | None => raise ShapeMismatch
  end.

(** ** [broadcast_shapes] *)

Section broadcast_shapes.
Context {V : Type}.

(** The [while idx < len(mlist)] loop; [bc] is [None] for Python's [None]. *)
Equations? broadcast_shapes_loop (mlist : list (ndarray V)) (idx : nat)
    (bc : option Shape) : M (option Shape) by wf (length mlist - idx) lt :=
  broadcast_shapes_loop mlist idx bc with decide (idx < length mlist) := {
    | right _ := mret bc
    | left Hlt with bool_decide (idx = 0 ∨ bc = Some []) := {
      | true :=
          let v := take 32 (drop idx mlist) in
          bc' ← call_broadcast_shapes (shape <$> v);
          broadcast_shapes_loop mlist (idx + 32) (Some bc')
      | false with bc := {
        | Some b :=
            let v := take 31 (drop idx mlist) in
            bc' ← call_broadcast_shapes (b :: (shape <$> v));
            broadcast_shapes_loop mlist (idx + 31) (Some bc')
        | None := raise TypeError } } }.
Proof. all: lia. Qed.

Definition broadcast_shapes (mlist : list (ndarray V)) : M (option Shape) :=
  broadcast_shapes_loop mlist 0 None.
End broadcast_shapes.


(** ** The stackers *)

(** [for i, x in enumerate(l): s = body(s, i, x)], counting from [start]. *)
Fixpoint for_enumerate {A St : Type} (body : St → nat → A → M St) (l : list A)
    (start : nat) (s : St) : M St :=
  match l with
  | [] => mret s
  | x :: l' => s' ← body s start x; for_enumerate body l' (S start) s'
  end.

(** [len(bc)] where [bc] may be [None]. *)
Definition py_len (bc : option Shape) : M nat :=
  match bc with
  | Some b => mret (length b)
  | None => raise TypeError
  end.

(** Offset, in the row-major data of an array of the reversed shape [sr],
    of the element that broadcasting shows at flat position [k] of the
    reversed shape [Br]. *)
Fixpoint src_offset (sr Br : list nat) (k stride : nat) : nat :=
  match sr, Br with
  | d :: sr', n :: Br' =>
      (if d =? 1 then 0 else (k mod n) * stride)
      + src_offset sr' Br' (k / n) (stride * d)
  | _, _ => 0
  end.

(** Whether an operand of shape [s] broadcasts into shape [B]. *)
Definition broadcastable (s B : Shape) : bool :=
  (length s <=? length B)
  && forallb (λ j, (dim_r s j =? 1) || (dim_r s j =? dim_r B j)) (seq 0 (length s)).

Section stackers.
Context {V : Type}.
(** [cast t v]: the value [v] stored into an array of dtype [t]. *)
Variable cast : DType → V → V.
(** [reject t v]: the exception, if any, with which numpy refuses to store
    the Python number [v] into an array of dtype [t] ([OverflowError] for
    an integer out of the bounds of an integer dtype).  The elements of an
    [np.ndarray] are never refused: they are cast. *)
Variable reject : DType → V → option exn.
(** The value of the Python literal [0]. *)
Variable zero : V.
(** What freshly allocated, uninitialised memory holds at each offset. *)
Variable uninit : nat → V.

(** [np.asarray(kdm)]: the array of the same shape, dtype and elements;
    a Python number becomes the array of shape [()]. *)
Definition np_asarray (kdm : ndarray V) : ndarray V :=
  mk_ndarray (shape kdm) (dtype kdm) (data kdm) false.

(** The Python literal [0] that [matrix_stack_id] places off the
    diagonal; [np.asarray(0)] has the default integer dtype. *)
Definition literal_0 : ndarray V := mk_ndarray [] default_int [zero] true.

(** The promoted type of some arrays. *)
Definition promote_all (vals : list (ndarray V)) : option DType :=
  common_dtype (dtype <$> vals).

(** [np.result_type] on arrays. *)
Definition np_result_type (vals : list (ndarray V)) : M DType :=
  tell (EvResultType (length vals));;
  match promote_all vals with
  | Some t => mret t
  | None => raise ValueError_no_operand
  end.

(** [np.empty(s, dtype=t)]. *)
Definition np_empty (s : Shape) (t : DType) : M (ndarray V) :=
  tell (EvAlloc s);;
  mret (mk_ndarray s t (uninit <$> seq 0 (size_of s)) false).

(** The value of a 0-d array. *)
Definition item (a : ndarray V) : V := default zero (data a !! 0).

(** [np.array(arr)] on a list of rows of 0-d arrays (it is reached only
    when every element is 0-d and there is at least one). *)
Definition np_array_2d (arr : list (list (ndarray V))) : M (ndarray V) :=
  let vals := concat arr in
  let t := default Float64 (promote_all vals) in
  let s := [length arr; length (default [] (head arr))] in
  tell (EvAlloc s);;
  mret (mk_ndarray s t ((λ a, cast t (item a)) <$> vals) false).

(** [np.array(arr)] on a list of 0-d arrays. *)
Definition np_array_1d (arr : list (ndarray V)) : M (ndarray V) :=
  let t := default Float64 (promote_all arr) in
  let s := [length arr] in
  tell (EvAlloc s);;
  mret (mk_ndarray s t ((λ a, cast t (item a)) <$> arr) false).

(** The elements of [np.broadcast_to(a, B)] in row-major order. *)
Definition broadcast_to (a : ndarray V) (B : Shape) : list V :=
  (λ k, default zero (data a !! src_offset (reverse (shape a)) (reverse B) k 1))
    <$> seq 0 (size_of B).

(** The writes [d[o] = v] done in turn. *)
Definition apply_writes (ws : list (nat * V)) (d : list V) : list V :=
  foldl (λ d w, <[w.1 := w.2]> d) d ws.

(** Stores [src] at the offsets [offset 0], [offset 1], ... *)
Definition store (offset : nat → nat) (src : list V) (d : list V) : list V :=
  apply_writes (imap (λ k v, (offset k, v)) src) d.

(** The exception, if any, that the assignment of the element [kdm], as
    it was passed, into an array of dtype [t] raises.  An [np.ndarray] is
    cast without a check.  The values of a Python number or list are
    checked against [t], the first refusal being raised; none is refused
    when the type [np.asarray] gives them casts safely to [t]. *)
Definition assign_error (t : DType) (kdm : ndarray V) : option exn :=
  if raw kdm && negb (can_cast (dtype kdm) t)
  then head (omap (reject t) (data kdm))
  else None.

(** [Marr[..., r_idx, c_idx] = kdm]: the slice has the shape of [Marr]
    without its last two axes; [kdm] is converted to the dtype of [Marr],
    broadcast into the slice and stored. *)
Definition setitem_2d (Marr : ndarray V) (r_idx c_idx : nat) (kdm : ndarray V)
    : M (ndarray V) :=
  let nd := length (shape Marr) - 2 in
  let B := take nd (shape Marr) in
  let Nrows := nth nd (shape Marr) 0 in
  let Ncols := nth (S nd) (shape Marr) 0 in
  match assign_error (dtype Marr) kdm with
  | Some e => raise e
  | None =>
      if broadcastable (shape kdm) B then
        mret (mk_ndarray (shape Marr) (dtype Marr)
                (store (λ k, (k * Nrows + r_idx) * Ncols + c_idx)
                   (cast (dtype Marr) <$> broadcast_to kdm B) (data Marr))
                (raw Marr))
      else raise ValueError_broadcast
  end.

(** [Marr[..., r_idx] = rVal]. *)
Definition setitem_1d (Marr : ndarray V) (r_idx : nat) (rVal : ndarray V)
    : M (ndarray V) :=
  let nd := length (shape Marr) - 1 in
  let B := take nd (shape Marr) in
  let Nrows := nth nd (shape Marr) 0 in
  match assign_error (dtype Marr) rVal with
  | Some e => raise e
  | None =>
      if broadcastable (shape rVal) B then
        mret (mk_ndarray (shape Marr) (dtype Marr)
                (store (λ k, k * Nrows + r_idx)
                   (cast (dtype Marr) <$> broadcast_to rVal B) (data Marr))
                (raw Marr))
      else raise ValueError_broadcast
  end.

(** [matrix_stack(arr, dtype)].  The list [dtypes] the source also fills
    is never read and is left out; no keyword other than [dtype] is
    modelled.  The first loop rebinds [kdm] to [np.asarray(kdm)] for
    [vals] only: the last loop assigns the elements of [arr] as they were
    passed. *)
Definition matrix_stack (arr : list (list (ndarray V))) (dtype : option DType)
    : M (ndarray V) :=
  let Nrows := length arr in
  Ncols ← match arr with
          | [] => raise IndexError
          | row0 :: _ => mret (length row0)
          end;
  vals ← for_enumerate (λ vals r_idx row,
            if length row =? Ncols then
              for_enumerate (λ vals c_idx kdm,
                mret (vals ++ [np_asarray kdm])) row 0 vals
            else raise AssertionError) arr 0 [];
  dtype ← match dtype with
          | None => np_result_type vals
          | Some t => mret t
          end;
  bc ← broadcast_shapes vals;
  n ← py_len bc;
  if n =? 0 then np_array_2d arr
  else
    Marr ← np_empty (default [] bc ++ [Nrows; Ncols]) dtype;
    for_enumerate (λ Marr r_idx row,
      for_enumerate (λ Marr c_idx kdm, setitem_2d Marr r_idx c_idx kdm)
        row 0 Marr) arr 0 Marr.

(** [vector_stack(arr, dtype)]. *)
Definition vector_stack (arr : list (ndarray V)) (dtype : option DType)
    : M (ndarray V) :=
  let Nrows := length arr in
  vals ← for_enumerate (λ vals r_idx rVal,
            mret (vals ++ [np_asarray rVal])) arr 0 [];
  dtype ← match dtype with
          | None => np_result_type vals
          | Some t => mret t
          end;
  bc ← broadcast_shapes vals;
  n ← py_len bc;
  if n =? 0 then np_array_1d arr
  else
    Marr ← np_empty (default [] bc ++ [Nrows]) dtype;
    for_enumerate (λ Marr r_idx rVal, setitem_1d Marr r_idx rVal) arr 0 Marr.

(** [matrix_stack_id(arr, dtype)]; [dtype] is the only keyword passed on. *)
Definition matrix_stack_id (arr : list (ndarray V)) (dtype : option DType)
    : M (ndarray V) :=
  let arrs := foldl (λ arrs ia,
                let lst := replicate (length arr) literal_0 in
                let lst := <[ia.1 := ia.2]> lst in
                arrs ++ [lst]) [] (imap pair arr) in
  matrix_stack arrs dtype.

(** [output[..., r, c]] of an array whose last two axes are [Nrows] and
    [Ncols], in row-major order. *)
Definition slice_2d (Marr : ndarray V) (r c : nat) : list V :=
  let nd := length (shape Marr) - 2 in
  let Nrows := nth nd (shape Marr) 0 in
  let Ncols := nth (S nd) (shape Marr) 0 in
  (λ k, default zero (data Marr !! ((k * Nrows + r) * Ncols + c)))
    <$> seq 0 (size_of (take nd (shape Marr))).

(** [output[..., i]]. *)
Definition slice_1d (Marr : ndarray V) (i : nat) : list V :=
  let nd := length (shape Marr) - 1 in
  let Nrows := nth nd (shape Marr) 0 in
  (λ k, default zero (data Marr !! (k * Nrows + i)))
    <$> seq 0 (size_of (take nd (shape Marr))).
End stackers.


(** ** The two-shape rule of the specification and its left fold *)

(** Two extents are compatible when they match or one of them is 1. *)
Definition broadcast_dim (x y : nat) : option nat :=
  if x =? y then Some x
  else if x =? 1 then Some y
  else if y =? 1 then Some x
  else None.

(** The rule on shapes read from the right. *)
Fixpoint broadcast_rev (ar br : list nat) : option (list nat) :=
  match ar, br with
  | [], _ => Some br
  | _, [] => Some ar
  | x :: ar', y :: br' =>
      d ← broadcast_dim x y; r ← broadcast_rev ar' br'; Some (d :: r)
  end.

Definition broadcast_two (a b : Shape) : option Shape :=
  reverse <$> broadcast_rev (reverse a) (reverse b).

(** Left fold of the two-shape rule from an accumulated shape. *)
Definition fold_pair (acc : option Shape) (shapes : list Shape) : option Shape :=
  foldl (λ acc s, acc ≫= λ a, broadcast_two a s) acc shapes.

(** The fold over all the shapes, starting from the first one. *)
Definition fold_broadcast (shapes : list Shape) : option Shape :=
  match shapes with
  | [] => Some []
  | s :: rest => fold_pair (Some s) rest
  end.

(** ** Auxiliary definitions for the proofs *)

(** An array with some writes applied to its data. *)
Definition put {V} (ws : list (nat * V)) (Marr : ndarray V) : ndarray V :=
  mk_ndarray (shape Marr) (dtype Marr) (apply_writes ws (data Marr)) (raw Marr).

(** The writes of [Marr[..., r, c] = kdm] for an array of shape
    [B ++ [R; C]] and dtype [t]. *)
Definition writes_2d {V} (cast : DType → V → V) (zero : V) (B : Shape)
    (R C : nat) (t : DType) (r c : nat) (kdm : ndarray V) : list (nat * V) :=
  imap (λ k v, ((k * R + r) * C + c, v)) (cast t <$> broadcast_to zero kdm B).

(** All the writes of the nested loop of [matrix_stack]. *)
Definition all_writes_2d {V} (cast : DType → V → V) (zero : V) (B : Shape)
    (R C : nat) (t : DType) (arr : list (list (ndarray V))) : list (nat * V) :=
  mjoin (imap (λ r row,
    mjoin (imap (λ c kdm, writes_2d cast zero B R C t r c kdm) row)) arr).

(** The writes of [Marr[..., i] = rVal] for an array of shape [B ++ [N]]. *)
Definition writes_1d {V} (cast : DType → V → V) (zero : V) (B : Shape)
    (N : nat) (t : DType) (i : nat) (rVal : ndarray V) : list (nat * V) :=
  imap (λ k v, (k * N + i, v)) (cast t <$> broadcast_to zero rVal B).

Definition unify_from (acc : option nat) (ds : list nat) : option nat :=
  foldl (λ acc d, acc ≫= λ a, unify_dim a d) acc ds.

Definition max_rank (shapes : list Shape) : nat :=
  foldr Nat.max 0 (length <$> shapes).

Definition dims_at (shapes : list Shape) (j : nat) : list nat :=
  (λ s, dim_r s j) <$> shapes.

(** All the writes of the loop of [vector_stack]. *)
Definition all_writes_1d {V} (cast : DType → V → V) (zero : V) (B : Shape)
    (N : nat) (t : DType) (arr : list (ndarray V)) : list (nat * V) :=
  mjoin (imap (λ i rVal, writes_1d cast zero B N t i rVal) arr).

(** The dtype of the result: the override, or else the promoted type. *)
Definition result_dtype {V} (dt : option DType) (vals : list (ndarray V))
    : option DType :=
  match dt with
  | Some t => Some t
  | None => promote_all vals
  end.

(** The exception, if any, with which the filling loop of a stacker stops
    on the elements [vals], taken in the order of the loop, for a result of
    dtype [t]: that of the first element whose assignment is refused. *)
Definition fill_error {V} (reject : DType → V → option exn) (t : DType)
    (vals : list (ndarray V)) : option exn :=
  head (omap (assign_error reject t) vals).

(** The exception, if any, with which a stacker stops in its filling loop
    when the elements [vals] have the common shape [B]: without an
    override, or when [B] is the empty shape and the shortcut is taken,
    there is none; otherwise it is that of the first element that numpy
    refuses for the override. *)
Definition override_error {V} (reject : DType → V → option exn)
    (dt : option DType) (B : Shape) (vals : list (ndarray V)) : option exn :=
  match dt, B with
  | Some t, _ :: _ => fill_error reject t vals
  | _, _ => None
  end.

(** The rows [matrix_stack_id] builds: element [i] at column [i] of row
    [i], the literal 0 elsewhere. *)
Definition id_rows {V} (zero : V) (arr : list (ndarray V))
    : list (list (ndarray V)) :=
  imap (λ i a, <[i := a]> (replicate (length arr) (literal_0 zero))) arr.

(** A call of the broadcasting primitive within its arity ceiling. *)
Definition is_broadcast_call (ev : event) : Prop :=
  match ev with
  | EvBroadcastShapes n => n ≤ 32
  | _ => False
  end.

(** The outcome of a shape computation that raises on a mismatch. *)
Definition of_shape (o : option Shape) : result (option Shape) :=
  match o with
  | Some r => Ok (Some r)
  | None => Raise ShapeMismatch
  end.

(** ** A concrete instance, used to run the functions on examples *)

Module Sample.
(** Values are integers; storing into an integer type wraps around,
    storing into [bool] tests against zero, the other types keep the
    value. *)
Definition cast (t : DType) (v : Z) : Z :=
  match kind_of t with
  | KBool => if (v =? 0)%Z then 0%Z else 1%Z
  | KUInt => (v mod 2 ^ Z.of_nat (bits t))%Z
  | KInt =>
      ((v + 2 ^ (Z.of_nat (bits t) - 1)) mod 2 ^ Z.of_nat (bits t)
       - 2 ^ (Z.of_nat (bits t) - 1))%Z
  | KFloat | KComplex => v
  end.

(** A Python integer is refused by an integer dtype whose bounds it
    exceeds; the other dtypes take it. *)
Definition reject (t : DType) (v : Z) : option exn :=
  match kind_of t with
  | KUInt =>
      if ((0 <=? v) && (v <? 2 ^ Z.of_nat (bits t)))%Z then None
      else Some OverflowError
  | KInt =>
      if ((- 2 ^ (Z.of_nat (bits t) - 1) <=? v)
          && (v <? 2 ^ (Z.of_nat (bits t) - 1)))%Z then None
      else Some OverflowError
  | _ => None
  end.

Definition uninit (o : nat) : Z := (-1)%Z.

(** A 0-d array. *)
Definition scalar (t : DType) (v : Z) : ndarray Z :=
  mk_ndarray [] t [v] false.

(** A Python integer, passed as it is. *)
Definition py_int (v : Z) : ndarray Z := mk_ndarray [] default_int [v] true.

(** Arrays of shapes [(2,)], [(2, 1)], [(3,)] and [(4,)]. *)
Definition a32 : ndarray Z := mk_ndarray [2] Float32 [10; 20]%Z false.
Definition b32 : ndarray Z := mk_ndarray [2; 1] Float32 [30; 40]%Z false.
Definition v3 : ndarray Z := mk_ndarray [3] Int8 [5; 6; 7]%Z false.
Definition v4 : ndarray Z := mk_ndarray [4] Int8 [1; 2; 3; 4]%Z false.

(** [np.linspace(1, 10, 10)]. *)
Definition linspace_1_10 : ndarray Z :=
  mk_ndarray [10] Float64 [1; 2; 3; 4; 5; 6; 7; 8; 9; 10]%Z false.

(** A 2 by 2 input mixing arrays and Python integers. *)
Definition mixed : list (list (ndarray Z)) :=
  [[a32; py_int 1%Z]; [py_int 2%Z; b32]].

(** The 2 by 2 input [[[1, 2], [3, 4]]] of Python integers. *)
Definition ints : list (list (ndarray Z)) :=
  [[py_int 1%Z; py_int 2%Z]; [py_int 3%Z; py_int 4%Z]].

(** An array of small integers beside the Python integer 300. *)
Definition v3_and_300 : list (ndarray Z) := [v3; py_int 300%Z].

(** Seventy operands: forty of shape [(3, 1)] and thirty of shape [(1, 5)]. *)
Definition seventy : list (ndarray Z) :=
  replicate 40 (mk_ndarray [3; 1] Int64 [] false) ++ replicate 30 (mk_ndarray [1; 5] Int64 [] false).
End Sample.

(** ** [broadcast_deep] and [broadcast_arrays_none] *)

(** [for x in l: s = body(s, x)]. *)
Fixpoint for_each {A St : Type} (body : St → A → M St) (l : list A) (s : St)
    : M St :=
  match l with
  | [] => mret s
  | x :: l' => s' ← body s x; for_each body l' s'
  end.

(** The list comprehension [[f(x) for x in l]]. *)
Fixpoint list_comprehension {A B : Type} (f : A → M B) (l : list A)
    : M (list B) :=
  match l with
  | [] => mret []
  | x :: l' => y ← f x; ys ← list_comprehension f l'; mret (y :: ys)
  end.

(** The arguments that are not [None], in order. *)
Definition not_None {A} (args : list (option A)) : list A := omap id args.

Section broadcast_deep.
Context {V : Type}.
Variable zero : V.

(** The array [np.broadcast_to(m, B)] shows: shape [B], the dtype and the
    values of [m]. *)
Definition broadcast_view (m : ndarray V) (B : Shape) : ndarray V :=
  mk_ndarray B (dtype m) (broadcast_to zero m B) false.

(** [np.broadcast_to(m, bc)], where [bc] may be Python's [None]. *)
Definition np_broadcast_to (m : ndarray V) (bc : option Shape)
    : M (ndarray V) :=
  match bc with
  | None => raise TypeError
  | Some B =>
      if broadcastable (shape m) B then mret (broadcast_view m B)
      else raise ValueError_broadcast
  end.

(** [broadcast_deep(mlist)]. *)
Definition broadcast_deep (mlist : list (ndarray V)) : M (list (ndarray V)) :=
  bc ← broadcast_shapes mlist;
  list_comprehension (λ m, np_broadcast_to m bc) mlist.

(** [np.broadcast_arrays] on the operands [arrm]. *)
Definition np_broadcast_arrays (arrm : list (ndarray V))
    : M (list (ndarray V)) :=
  match np_broadcast_shapes (shape <$> arrm) with
  | Some B => mret ((λ m, broadcast_view m B) <$> arrm)
  | None => raise ValueError_broadcast
  end.

(** [broadcast_arrays_none] on the arguments [args]; [None] stands for Python's [None].
    The state of the second loop is [(ret, idx)]. *)
Definition broadcast_arrays_none (args : list (option (ndarray V)))
    : M (list (option (ndarray V))) :=
  arrm ← for_each (λ arrm arg,
            match arg with
            | None => mret arrm
            | Some a => mret (arrm ++ [a])
            end) args [];
  arrm ← np_broadcast_arrays arrm;
  st ← for_each (λ (st : list (option (ndarray V)) * nat) arg,
          match arg with
          | None => mret (st.1 ++ [None], st.2)
          | Some _ =>
              match arrm !! st.2 with
              | Some x => mret (st.1 ++ [Some x], S st.2)
              | None => raise IndexError
              end
          end) args ([], 0);
  mret st.1.
End broadcast_deep.

(** ** [argsort], [domain_sort] and [interval_limit] *)

(** Python's [sorted(l, key=key)] is stable and compares the keys with [<]
    alone.  On keys that [<] orders its result is determined; it is
    computed here by insertion from the right, an element going before the
    elements already placed whose key is not less than its own.  Nothing is
    claimed of it on keys that [<] does not order, such as floating-point
    numbers among which there is a NaN. *)
Fixpoint insert_sorted {A K} (lt : K → K → bool) (key : A → K) (x : A)
    (l : list A) : list A :=
  match l with
  | [] => [x]
  | y :: l' =>
      if lt (key y) (key x) then y :: insert_sorted lt key x l'
      else x :: y :: l'
  end.

Definition py_sorted {A K} (lt : K → K → bool) (key : A → K) (l : list A)
    : list A :=
  foldr (insert_sorted lt key) [] l.

(** [<] orders the values [l]: it is a strict weak order on them, that is
    irreflexive and transitive, and so is "not less than".  Integers, and
    floating-point numbers other than NaN, are ordered so. *)
Definition strict_weak_order {K} (lt : K → K → bool) (l : list K) : Prop :=
  (∀ a, a ∈ l → lt a a = false) ∧
  (∀ a b c, a ∈ l → b ∈ l → c ∈ l →
            lt a b = true → lt b c = true → lt a c = true) ∧
  (∀ a b c, a ∈ l → b ∈ l → c ∈ l →
            lt a b = false → lt b c = false → lt a c = false).

(** The order a stable sort puts its result in: by key, and among keys
    neither of which is less than the other by the order [before] of the
    input. *)
Definition stable_order {A K} (lt : K → K → bool) (key : A → K)
    (before : A → A → Prop) (a b : A) : Prop :=
  lt (key a) (key b) = true ∨ (lt (key b) (key a) = false ∧ before a b).

(** [array.__getitem__] on an array of integers, as a key on the indices
    of [array] (it is only applied to indices of [range(len(array))]). *)
Definition getitem (array : list Z) (i : nat) : Z := default 0%Z (array !! i).

(** [argsort(array)]: the entries of [array], of any type [K], are compared
    by [lt], Python's [<] on them; [array.__getitem__] is only applied to
    indices of [range(len(array))]. *)
Definition argsort {K} `{Inhabited K} (lt : K → K → bool) (array : list K)
    : list nat :=
  py_sorted lt (λ i, array !!! i) (seq 0 (length array)).

(** Floating-point numbers with [None] for NaN, which [<] never puts
    before or after anything. *)
Definition lt_float (a b : option Z) : bool :=
  match a, b with
  | Some x, Some y => (x <? y)%Z
  | _, _ => false
  end.

(** [y[idxs]] for a list of indices: [IndexError] when one is out of
    bounds. *)
Definition take_indices {A} (y : list A) (idxs : list nat) : M (list A) :=
  list_comprehension (λ i,
    match y !! i with
    | Some v => mret v
    | None => raise IndexError
    end) idxs.

(** The indices at which a boolean array is true ([np.where],
    [np.argwhere] on one axis). *)
Definition argwhere (mask : list bool) : list nat :=
  (λ p : nat * bool, p.1) <$> filter (λ p : nat * bool, p.2 = true) (imap pair mask).

(** [np.all(X[:-1] <= X[1:])]. *)
Definition all_nondecreasing (X : list Z) : bool :=
  forallb (λ p : Z * Z, (p.1 <=? p.2)%Z) (zip (take (length X - 1) X) (drop 1 X)).

Section domain_sort.
(** [np.argsort]: its default sort is not stable, so only its contract is
    used. *)
Variable np_argsort : list Z → list nat.

(** [domain_sort(X, *Y)] on one-dimensional data; an entry of [Y] may be
    [None]. *)
Definition domain_sort (X : list Z) (Y : list (option (list Z)))
    : M (list (option (list Z))) :=
  if negb (all_nondecreasing X) then
    let sort_idxs := np_argsort X in
    X' ← take_indices X sort_idxs;
    for_each (λ output y,
      match y with
      | None => mret (output ++ [None])
      | Some y =>
          if length y =? 1 then mret (output ++ [Some y])
          else y' ← take_indices y sort_idxs; mret (output ++ [Some y'])
      end) Y [Some X']
  else mret (Some X :: Y).
End domain_sort.

(** [interval_limit(X_min, X_max, X, *Y)] on one-dimensional data. *)
Definition interval_limit (X_min X_max : Z) (X : list Z) (Y : list (list Z))
    : M (list (list Z)) :=
  let X_idx := argwhere ((λ x, (X_min <=? x)%Z && (x <=? X_max)%Z) <$> X) in
  X' ← take_indices X X_idx;
  Y' ← list_comprehension (λ y, take_indices y X_idx) Y;
  mret (X' :: Y').

(** ** [type_reduce] and [common_type] *)

Section common_type.
(** Classes, with [issubclass]; objects, with their class and the test
    [obj is None]. *)
Context {Cls Obj : Type}.
Variable issubclass : Cls → Cls → bool.
Variable class_of : Obj → Cls.
Variable is_None : Obj → bool.

Definition isinstance (obj : Obj) (cls : Cls) : bool :=
  issubclass (class_of obj) cls.

(** [type_reduce(type_A, obj_B)]; the result [None] is Python's [None]. *)
Definition type_reduce (type_A : option Cls) (obj_B : Obj) : option Cls :=
  match type_A with
  | None => None
  | Some A =>
      if is_None obj_B then None
      else if isinstance obj_B A then Some A
      else if issubclass A (class_of obj_B) then Some (class_of obj_B)
      else None
  end.

(** [common_type(nd_array)] on the flattened elements. *)
Definition common_type (nd_flat : list Obj) : M (option Cls) :=
  match nd_flat with
  | [] => raise IndexError
  | obj0 :: _ => mret (foldl type_reduce (Some (class_of obj0)) nd_flat)
  end.

(** Two objects whose classes are not related by [issubclass] in either
    direction. *)
Definition unrelated (o1 o2 : Obj) : Prop :=
  issubclass (class_of o1) (class_of o2) = false ∧
  issubclass (class_of o2) (class_of o1) = false.
End common_type.

(** A small class hierarchy to run [common_type] on: [bool] below [int],
    [int] and [float] below [object], and the class of [None]. *)
Module SampleClasses.
Inductive cls : Type := PyBool | PyInt | PyFloat | PyObject | NoneType.
Inductive obj : Type := OBool (b : bool) | OInt (z : Z) | OFloat | ONone.

Definition issubclass (a b : cls) : bool :=
  match a, b with
  | _, PyObject => true
  | PyBool, (PyBool | PyInt) => true
  | PyInt, PyInt => true
  | PyFloat, PyFloat => true
  | NoneType, NoneType => true
  | _, _ => false
  end.

Definition class_of (o : obj) : cls :=
  match o with
  | OBool _ => PyBool
  | OInt _ => PyInt
  | OFloat => PyFloat
  | ONone => NoneType
  end.

Definition is_None (o : obj) : bool :=
  match o with ONone => true | _ => false end.
End SampleClasses.

(** ** [generate_sections] and [generate_antisections] *)

(** [l[i]] for [i >= 0] and [l[-1]]: [IndexError] out of range. *)
Definition py_index {A} (l : list A) (i : nat) : M A :=
  match l !! i with
  | Some x => mret x
  | None => raise IndexError
  end.

Definition py_last {A} (l : list A) : M A :=
  match list.last l with
  | Some x => mret x
  | None => raise IndexError
  end.

Definition py_assert (b : bool) : M unit :=
  if b then mret tt else raise AssertionError.

(** The slice [l[0::2]]; [l[1::2]] is [step2 (drop 1 l)]. *)
Fixpoint step2 {A} (l : list A) : list A :=
  match l with
  | [] => []
  | x :: l' => x :: match l' with
                    | [] => []
                    | _ :: l'' => step2 l''
                    end
  end.

(** [list(zip(l[0::2], l[1::2]))]. *)
Definition zip_pairs {A} (l : list A) : list (A * A) :=
  zip (step2 l) (step2 (drop 1 l)).

(** [generate_antisections(idx_start, idx_end, sections)], the sections
    being pairs. *)
Definition generate_antisections (idx_start idx_end : Z)
    (sections : list (Z * Z)) : M (list (Z * Z)) :=
  if bool_decide (sections = []) then mret [(idx_start, idx_end)]
  else
    let disconnects :=
      foldl (λ d (section : Z * Z), d ++ [section.1; section.2]) [] sections in
    d0 ← py_index disconnects 0;
    let disconnects :=
      if (d0 =? idx_start)%Z then drop 1 disconnects
      else idx_start :: disconnects in
    dl ← py_last disconnects;
    let disconnects :=
      if (dl =? idx_end)%Z then take (length disconnects - 1) disconnects
      else disconnects ++ [idx_end] in
    mret (zip_pairs disconnects).

(** The block of [generate_sections] that joins sections again, run when
    [len(sections) > 0] and [reconnect_length is not None]. *)
Definition reconnect_sections (sections : list (Z * Z)) (reconnect_length : Z)
    : M (list (Z * Z)) :=
  s0 ← py_index sections 0;
  disconnects ← for_each (λ disconnects idx,
      prev ← py_index sections (idx - 1);
      cur ← py_index sections idx;
      let eidx := prev.2 in
      let sidx := cur.1 in
      if (reconnect_length <? sidx - eidx)%Z
      then mret (disconnects ++ [eidx; sidx])
      else mret disconnects)
    (seq 1 (length sections - 1)) [s0.1];
  sl ← py_last sections;
  let disconnects := disconnects ++ [sl.2] in
  mret (zip_pairs disconnects).

(** [generate_sections(barray, reconnect_length)] on a one-dimensional
    boolean array; indices are numpy integers. *)
Definition generate_sections (barray : list bool) (reconnect_length : option Z)
    : M (list (Z * Z)) :=
  let Dbarray :=
    zip_with xorb (drop 1 barray) (take (length barray - 1) barray) in
  let args := (λ i : nat, Z.of_nat i + 1)%Z <$> argwhere Dbarray in
  let pargs := [] in
  b0 ← py_index barray 0;
  let pargs := if b0 : bool then pargs ++ [[0%Z]] else pargs in
  let pargs := pargs ++ [args] in
  bl ← py_last barray;
  let pargs :=
    if bl : bool then pargs ++ [[(Z.of_nat (length barray) - 1)%Z]]
    else pargs in
  let args := if 1 <? length pargs then concat pargs else args in
  py_assert (length args mod 2 =? 0);;
  let sections := zip_pairs args in
  match reconnect_length with
  | Some reconnect_length =>
      if 0 <? length sections
      then reconnect_sections sections reconnect_length
      else mret sections
  | None => mret sections
  end.

(** Position [p] lies in one of the half-open sections. *)
Definition covered (sections : list (Z * Z)) (p : Z) : Prop :=
  ∃ s e, (s, e) ∈ sections ∧ (s ≤ p < e)%Z.

(** The section boundaries in order. *)
Definition boundaries (sections : list (Z * Z)) : list Z :=
  sections ≫= λ section, [section.1; section.2].

(** Whether an odd number of the boundaries [d] are at or before [p]. *)
Definition odd_below (d : list Z) (p : Z) : bool :=
  foldr (λ x acc, xorb (x <=? p)%Z acc) false d.

(** Position [p] lies between two consecutive sections that are no more
    than [reconnect_length] apart. *)
Definition in_short_gap (reconnect_length : Z) (sections : list (Z * Z))
    (p : Z) : Prop :=
  ∃ i prev cur, sections !! i = Some prev ∧ sections !! S i = Some cur ∧
    (prev.2 ≤ p < cur.1)%Z ∧ (cur.1 - prev.2 ≤ reconnect_length)%Z.

(** The [args] of the first two lines of [generate_sections]: one more
    than each position after which the array changes. *)
Definition changes_after (barray : list bool) : list Z :=
  (λ i : nat, Z.of_nat i + 1)%Z
    <$> argwhere (zip_with xorb (drop 1 barray)
                    (take (length barray - 1) barray)).

(** The [args] of [generate_sections] after the concatenation (for a
    non-empty array): [0] if the array starts true, the changes, and the
    last index if the array ends true. *)
Definition sections_args (barray : list bool) : list Z :=
  (if default false (barray !! 0) then [0%Z] else []) ++
  changes_after barray ++
  (if default false (list.last barray)
   then [(Z.of_nat (length barray) - 1)%Z] else []).

(** The boundaries the loop of [reconnect_sections] appends: the end and
    the start on either side of every gap longer than
    [reconnect_length]. *)
Definition kept_disconnects (reconnect_length : Z) (sections : list (Z * Z))
    : list Z :=
  zip sections (drop 1 sections) ≫= λ pc : (Z * Z) * (Z * Z),
    if (reconnect_length <? pc.2.1 - pc.1.2)%Z then [pc.1.2; pc.2.1] else [].

(** The [disconnects] of [reconnect_sections] after the loop and the last
    [append], for sections starting with [s0]. *)
Definition all_disconnects (reconnect_length : Z) (s0 : Z * Z)
    (rest : list (Z * Z)) : list Z :=
  s0.1 :: kept_disconnects reconnect_length (s0 :: rest) ++
  [(default s0 (list.last rest)).2].
(** ** Lemmas on the monad *)

Lemma outcome_bind {A B} (m : M A) (f : A → M B) :
  outcome (m ≫= f) =
  match outcome m with Ok a => outcome (f a) | Raise e => Raise e end.
Proof. destruct m as [l [a|e]]; reflexivity. Qed.

Lemma trace_bind {A B} (m : M A) (f : A → M B) :
  trace (m ≫= f) =
  trace m ++ match outcome m with Ok a => trace (f a) | Raise _ => [] end.
Proof.
  destruct m as [l [a|e]]; cbn; [reflexivity | by rewrite app_nil_r].
Qed.

Lemma bind_Ok {A B} (m : M A) (f : A → M B) l a :
  m = (l, Ok a) → m ≫= f = (l ++ trace (f a), outcome (f a)).
Proof. intros ->. reflexivity. Qed.

Lemma bind_Raise {A B} (m : M A) (f : A → M B) l e :
  m = (l, Raise e) → m ≫= f = (l, Raise e).
Proof. intros ->. reflexivity. Qed.

Lemma M_eta {A} (m : M A) : m = (trace m, outcome m).
Proof. by destruct m. Qed.

(** ** Lemmas on extents *)

Lemma broadcast_dim_unify x y : broadcast_dim x y = unify_dim x y.
Proof.
  unfold broadcast_dim, unify_dim.
  repeat case_match; rewrite ?Nat.eqb_eq, ?Nat.eqb_neq in *; subst;
    congruence.
Qed.

Lemma unify_dim_Some a d r :
  unify_dim a d = Some r → (a = 1 ∨ a = r) ∧ (d = 1 ∨ d = r).
Proof.
  unfold unify_dim.
  repeat case_match; rewrite ?Nat.eqb_eq, ?Nat.eqb_neq in *;
    intros Heq; simplify_eq; auto.
Qed.

Lemma unify_dim_1_l d : unify_dim 1 d = Some d.
Proof. unfold unify_dim. case_match; [|done]. by apply Nat.eqb_eq in H as ->. Qed.

Lemma unify_dim_1_r a : unify_dim a 1 = Some a.
Proof. reflexivity. Qed.


Lemma unify_from_None ds : unify_from None ds = None.
Proof. induction ds; [done | exact IHds]. Qed.

Lemma unify_from_Some a ds r :
  unify_from (Some a) ds = Some r →
  (a = 1 ∨ a = r) ∧ ∀ d, d ∈ ds → d = 1 ∨ d = r.
Proof.
  revert a. induction ds as [|d ds IH]; intros a; cbn.
  - intros Heq; simplify_eq. split; [auto | intros d Hd; inversion Hd].
  - destruct (unify_dim a d) as [a'|] eqn:Hu; cbn.
    + intros Hr. destruct (IH _ Hr) as [Ha' Hds].
      apply unify_dim_Some in Hu as [Ha Hd].
      split.
      * destruct Ha as [-> | ->]; auto.
      * intros d' [-> | Hd']%elem_of_cons; [|by auto].
        destruct Hd as [-> | ->]; auto.
    + fold (unify_from None ds). by rewrite unify_from_None.
Qed.

Lemma unify_all_Some ds r :
  unify_all ds = Some r → ∀ d, d ∈ ds → d = 1 ∨ d = r.
Proof. intros H. by apply (unify_from_Some 1). Qed.

Lemma unify_all_ones ds : (∀ d, d ∈ ds → d = 1) → unify_all ds = Some 1.
Proof.
  unfold unify_all. induction ds as [|d ds IH]; intros H; [done|].
  cbn. rewrite (H d) by left. cbn. apply IH. intros d' Hd'. apply H. by right.
Qed.

Lemma unify_all_snoc ds d :
  unify_all (ds ++ [d]) = unify_all ds ≫= λ a, unify_dim a d.
Proof. unfold unify_all. by rewrite foldl_snoc. Qed.

(** ** Lemmas on [dim_r] *)

Lemma dim_r_ge (s : Shape) j : length s ≤ j → dim_r s j = 1.
Proof.
  intros H. unfold dim_r. apply nth_overflow. by rewrite length_reverse.
Qed.

Lemma dim_r_reverse (k : list nat) j : dim_r (reverse k) j = nth j k 1.
Proof. unfold dim_r. by rewrite reverse_involutive. Qed.

(** Two shapes of the same rank with the same extents are equal. *)
Lemma shape_eq (a b : Shape) :
  length a = length b → (∀ j, dim_r a j = dim_r b j) → a = b.
Proof.
  intros Hl H. apply (inj reverse). apply list_eq. intros j.
  specialize (H j). unfold dim_r in H.
  destruct (decide (j < length a)) as [Hj|Hj].
  - destruct (lookup_lt_is_Some_2 (reverse a) j) as [x Hx];
      [by rewrite length_reverse|].
    destruct (lookup_lt_is_Some_2 (reverse b) j) as [y Hy];
      [rewrite length_reverse; lia|].
    rewrite (nth_lookup_Some _ _ _ _ Hx), (nth_lookup_Some _ _ _ _ Hy) in H.
    congruence.
  - rewrite !lookup_ge_None_2; [done | |]; rewrite length_reverse; lia.
Qed.

(** ** Characterisation of [np_broadcast_shapes] *)


Lemma max_rank_ge shapes (s : Shape) : s ∈ shapes → length s ≤ max_rank shapes.
Proof.
  unfold max_rank. induction shapes as [|t shapes IH]; [by inversion 1|].
  intros [-> | H]%elem_of_cons; cbn; [lia|]. specialize (IH H). lia.
Qed.

Lemma max_rank_app l1 l2 :
  max_rank (l1 ++ l2) = max_rank l1 `max` max_rank l2.
Proof.
  unfold max_rank. induction l1 as [|t l1 IH]; cbn; [done|].
  rewrite IH. lia.
Qed.

Lemma unify_all_beyond shapes j :
  max_rank shapes ≤ j → unify_all (dims_at shapes j) = Some 1.
Proof.
  intros Hj. apply unify_all_ones. intros d (s & -> & Hs)%list_elem_of_fmap.
  apply dim_r_ge. apply max_rank_ge in Hs. lia.
Qed.

Lemma mapM_None {A B} (f : A → option B) (l : list A) :
  mapM f l = None ↔ ∃ x, x ∈ l ∧ f x = None.
Proof.
  induction l as [|x l IH]; cbn.
  - split; [done | by intros (x & Hx & _); inversion Hx].
  - destruct (f x) as [y|] eqn:Hfx; cbn.
    + destruct (mapM f l) as [k|]; cbn.
      * split; [done|]. intros (x' & [-> | Hx']%elem_of_cons & Hn).
        -- congruence.
        -- assert (Some k = None) as H0 by (apply IH; eauto). done.
      * split; [|done]. intros _.
        destruct IH as [IH _]. destruct (IH eq_refl) as (x' & Hx' & Hn).
        exists x'. split; [by right | done].
    + split; [|done]. intros _. exists x. split; [by left | done].
Qed.

Lemma np_broadcast_shapes_Some_1 shapes r :
  np_broadcast_shapes shapes = Some r →
  length r = max_rank shapes ∧
  ∀ j, unify_all (dims_at shapes j) = Some (dim_r r j).
Proof.
  unfold np_broadcast_shapes. fold (max_rank shapes).
  destruct (mapM _ _) as [k|] eqn:Hm; [|done]. cbn. intros Heq; simplify_eq.
  pose proof (length_mapM _ _ _ Hm) as Hlen. rewrite length_seq in Hlen.
  apply mapM_Some_1 in Hm.
  split; [by rewrite length_reverse|].
  intros j. rewrite dim_r_reverse.
  destruct (decide (j < max_rank shapes)) as [Hj|Hj].
  - destruct (Forall2_lookup_l _ _ _ j j Hm) as (y & Hy & Hf);
      [by apply lookup_seq_lt|].
    by rewrite (nth_lookup_Some _ _ _ _ Hy).
  - rewrite nth_overflow by lia. apply unify_all_beyond. lia.
Qed.

Lemma np_broadcast_shapes_Some_2 shapes r :
  length r = max_rank shapes →
  (∀ j, unify_all (dims_at shapes j) = Some (dim_r r j)) →
  np_broadcast_shapes shapes = Some r.
Proof.
  intros Hlen H. unfold np_broadcast_shapes. fold (max_rank shapes).
  rewrite (mapM_Some_2 _ _ (reverse r)); [cbn; by rewrite reverse_involutive|].
  apply Forall2_same_length_lookup_2.
  - by rewrite length_seq, length_reverse.
  - intros i x y [-> _]%lookup_seq Hy. cbn.
    fold (dims_at shapes i). rewrite H. unfold dim_r.
    by rewrite (nth_lookup_Some _ _ _ _ Hy).
Qed.

Lemma np_broadcast_shapes_None_1 shapes :
  np_broadcast_shapes shapes = None →
  ∃ j, unify_all (dims_at shapes j) = None.
Proof.
  unfold np_broadcast_shapes.
  destruct (mapM _ _) as [k|] eqn:Hm; [done|]. intros _.
  apply mapM_None in Hm as (j & _ & Hj). by exists j.
Qed.

Lemma np_broadcast_shapes_None_2 shapes j :
  unify_all (dims_at shapes j) = None → np_broadcast_shapes shapes = None.
Proof.
  intros H. unfold np_broadcast_shapes. fold (max_rank shapes).
  destruct (decide (j < max_rank shapes)) as [Hj|Hj].
  - assert (mapM (λ j, unify_all ((λ s, dim_r s j) <$> shapes))
              (seq 0 (max_rank shapes)) = None) as ->; [|done].
    apply mapM_None. exists j. split; [|done].
    apply elem_of_seq. lia.
  - rewrite unify_all_beyond in H by lia. done.
Qed.

(** An extent that two operands disagree on, both different from 1, makes
    the broadcast fail. *)
Lemma np_broadcast_shapes_conflict shapes (a b : Shape) j :
  a ∈ shapes → b ∈ shapes →
  dim_r a j ≠ 1 → dim_r b j ≠ 1 → dim_r a j ≠ dim_r b j →
  np_broadcast_shapes shapes = None.
Proof.
  intros Ha Hb Ha1 Hb1 Hab.
  destruct (np_broadcast_shapes shapes) as [r|] eqn:Hr; [|done].
  apply np_broadcast_shapes_Some_1 in Hr as [_ Hr]. specialize (Hr j).
  pose proof (unify_all_Some _ _ Hr) as Hd.
  destruct (Hd (dim_r a j)) as [?|?];
    [apply list_elem_of_fmap; by exists a | done |].
  destruct (Hd (dim_r b j)) as [?|?];
    [apply list_elem_of_fmap; by exists b | done |].
  congruence.
Qed.

(** Every operand broadcasts into the common shape. *)
Lemma np_broadcast_shapes_broadcastable shapes B (s : Shape) :
  np_broadcast_shapes shapes = Some B → s ∈ shapes → broadcastable s B = true.
Proof.
  intros [Hlen HB]%np_broadcast_shapes_Some_1 Hs.
  unfold broadcastable. apply andb_true_iff. split.
  - apply Nat.leb_le. rewrite Hlen. by apply max_rank_ge.
  - apply forallb_forall. intros j _.
    specialize (HB j). pose proof (unify_all_Some _ _ HB) as Hd.
    destruct (Hd (dim_r s j)) as [-> | ->];
      [apply list_elem_of_fmap; by exists s | done |].
    apply orb_true_iff. right. apply Nat.eqb_refl.
Qed.

(** ** The two-shape rule against the n-ary primitive *)

Lemma nth_nil_1 j : nth j (@nil nat) 1 = 1.
Proof. by destruct j. Qed.

Lemma broadcast_rev_Some ar br rr :
  broadcast_rev ar br = Some rr →
  length rr = length ar `max` length br ∧
  ∀ j, unify_dim (nth j ar 1) (nth j br 1) = Some (nth j rr 1).
Proof.
  revert br rr. induction ar as [|x ar IH]; intros br rr.
  - intros Heq; cbn in Heq; simplify_eq. split; [done|].
    intros j. rewrite nth_nil_1. apply unify_dim_1_l.
  - destruct br as [|y br].
    + intros Heq; cbn in Heq; simplify_eq. split; [cbn; lia|].
      intros j. rewrite nth_nil_1. apply unify_dim_1_r.
    + cbn. destruct (broadcast_dim x y) as [d|] eqn:Hd; [|done]. cbn.
      destruct (broadcast_rev ar br) as [r|] eqn:Hr; [|done]. cbn.
      intros Heq; simplify_eq. destruct (IH _ _ Hr) as [Hlen Hj].
      split; [cbn; lia|].
      intros [|j]; cbn; [by rewrite <-broadcast_dim_unify | apply Hj].
Qed.

Lemma broadcast_rev_None ar br :
  broadcast_rev ar br = None →
  ∃ j, unify_dim (nth j ar 1) (nth j br 1) = None.
Proof.
  revert br. induction ar as [|x ar IH]; intros br; [done|].
  destruct br as [|y br]; [done|]. cbn.
  destruct (broadcast_dim x y) as [d|] eqn:Hd; cbn.
  - destruct (broadcast_rev ar br) as [r|] eqn:Hr; [done|]. intros _.
    destruct (IH _ Hr) as [j Hj]. by exists (S j).
  - intros _. exists 0. cbn. by rewrite <-broadcast_dim_unify.
Qed.

Lemma broadcast_two_Some a b r :
  broadcast_two a b = Some r →
  length r = length a `max` length b ∧
  ∀ j, unify_dim (dim_r a j) (dim_r b j) = Some (dim_r r j).
Proof.
  unfold broadcast_two.
  destruct (broadcast_rev _ _) as [rr|] eqn:Hrr; [|done]. cbn.
  intros Heq; simplify_eq.
  apply broadcast_rev_Some in Hrr as [Hlen Hj].
  rewrite !length_reverse in *. split; [done|].
  intros j. rewrite dim_r_reverse. apply Hj.
Qed.

Lemma broadcast_two_None a b :
  broadcast_two a b = None →
  ∃ j, unify_dim (dim_r a j) (dim_r b j) = None.
Proof.
  unfold broadcast_two.
  destruct (broadcast_rev _ _) as [rr|] eqn:Hrr; [done|]. intros _.
  by apply broadcast_rev_None in Hrr.
Qed.

Lemma broadcast_two_nil_l s : broadcast_two [] s = Some s.
Proof. unfold broadcast_two. cbn. by rewrite reverse_involutive. Qed.

Lemma dims_at_snoc l (s : Shape) j :
  dims_at (l ++ [s]) j = dims_at l j ++ [dim_r s j].
Proof. unfold dims_at. by rewrite fmap_app. Qed.

(** One more operand: the n-ary primitive is the primitive on the operands
    before it, combined with it by the two-shape rule. *)
Lemma np_broadcast_shapes_snoc l s :
  np_broadcast_shapes (l ++ [s]) =
  np_broadcast_shapes l ≫= λ a, broadcast_two a s.
Proof.
  destruct (np_broadcast_shapes l) as [a|] eqn:Ha; cbn.
  - apply np_broadcast_shapes_Some_1 in Ha as [Hla Ha].
    destruct (broadcast_two a s) as [r|] eqn:Hr.
    + apply broadcast_two_Some in Hr as [Hlr Hr].
      apply np_broadcast_shapes_Some_2.
      * rewrite max_rank_app, Hlr, Hla. unfold max_rank. cbn. lia.
      * intros j. rewrite dims_at_snoc, unify_all_snoc, Ha. cbn. apply Hr.
    + apply broadcast_two_None in Hr as [j Hj].
      apply (np_broadcast_shapes_None_2 _ j).
      rewrite dims_at_snoc, unify_all_snoc, Ha. cbn. apply Hj.
  - apply np_broadcast_shapes_None_1 in Ha as [j Hj].
    apply (np_broadcast_shapes_None_2 _ j).
    by rewrite dims_at_snoc, unify_all_snoc, Hj.
Qed.

Lemma fold_pair_None l : fold_pair None l = None.
Proof. induction l; [done | exact IHl]. Qed.

Lemma fold_pair_app acc l1 l2 :
  fold_pair acc (l1 ++ l2) = fold_pair (fold_pair acc l1) l2.
Proof. apply foldl_app. Qed.

Lemma np_broadcast_shapes_fold_pair l :
  np_broadcast_shapes l = fold_pair (Some []) l.
Proof.
  induction l as [|s l IH] using rev_ind; [done|].
  rewrite np_broadcast_shapes_snoc, IH. unfold fold_pair.
  by rewrite foldl_snoc.
Qed.

Lemma np_broadcast_shapes_cons b l :
  np_broadcast_shapes (b :: l) = fold_pair (Some b) l.
Proof.
  rewrite np_broadcast_shapes_fold_pair. change (b :: l) with ([b] ++ l).
  rewrite fold_pair_app. f_equal. apply broadcast_two_nil_l.
Qed.

Lemma np_broadcast_shapes_fold_broadcast l :
  np_broadcast_shapes l = fold_broadcast l.
Proof. destruct l; [done | apply np_broadcast_shapes_cons]. Qed.


Lemma outcome_call_broadcast_shapes shapes :
  outcome (call_broadcast_shapes shapes) =
  match np_broadcast_shapes shapes with
  | Some b => Ok b
  | None => Raise ShapeMismatch
  end.
Proof.
  unfold call_broadcast_shapes. rewrite outcome_bind. cbn.
  by destruct (np_broadcast_shapes shapes).
Qed.

Lemma trace_call_broadcast_shapes shapes :
  trace (call_broadcast_shapes shapes) = [EvBroadcastShapes (length shapes)].
Proof.
  unfold call_broadcast_shapes. rewrite trace_bind. cbn.
  by destruct (np_broadcast_shapes shapes).
Qed.

Section loop_correct.
Context {V : Type}.
Implicit Types mlist : list (ndarray V).

(** The loop, one iteration unfolded: the body of the source. *)
Lemma broadcast_shapes_loop_body mlist idx bc :
  broadcast_shapes_loop mlist idx bc =
  if decide (idx < length mlist) then
    if bool_decide (idx = 0 ∨ bc = Some []) then
      bc' ← call_broadcast_shapes (shape <$> take 32 (drop idx mlist));
      broadcast_shapes_loop mlist (idx + 32) (Some bc')
    else
      match bc with
      | Some b =>
          bc' ← call_broadcast_shapes (b :: (shape <$> take 31 (drop idx mlist)));
          broadcast_shapes_loop mlist (idx + 31) (Some bc')
      | None => raise TypeError
      end
  else mret bc.
Proof.
  rewrite broadcast_shapes_loop_equation_1.
  destruct (decide (idx < length mlist)); [|reflexivity].
  cbn. destruct (bool_decide (idx = 0 ∨ bc = Some [])); [reflexivity|].
  by destruct bc.
Qed.

Lemma fold_pair_take_drop acc (l : list Shape) n :
  fold_pair acc l = fold_pair (fold_pair acc (take n l)) (drop n l).
Proof. by rewrite <-fold_pair_app, take_drop. Qed.

Lemma loop_outcome mlist n : ∀ idx b,
  n = length mlist - idx → idx ≠ 0 →
  outcome (broadcast_shapes_loop mlist idx (Some b)) =
  of_shape (fold_pair (Some b) (shape <$> drop idx mlist)).
Proof.
  induction n as [n IH] using lt_wf_ind. intros idx b Hn Hidx.
  rewrite broadcast_shapes_loop_body.
  destruct (decide (idx < length mlist)) as [Hlt|Hge].
  - destruct (bool_decide (idx = 0 ∨ Some b = Some [])) eqn:Hb.
    + apply bool_decide_eq_true in Hb as [?|Hb]; [done|]. simplify_eq.
      rewrite outcome_bind, outcome_call_broadcast_shapes.
      rewrite (fold_pair_take_drop _ _ 32), <-fmap_take, <-fmap_drop, drop_drop.
      rewrite <-np_broadcast_shapes_fold_pair.
      destruct (np_broadcast_shapes _) as [b'|].
      * apply (IH (length mlist - (idx + 32))); lia.
      * by rewrite fold_pair_None.
    + rewrite outcome_bind, outcome_call_broadcast_shapes.
      rewrite (fold_pair_take_drop _ _ 31), <-fmap_take, <-fmap_drop, drop_drop.
      rewrite <-np_broadcast_shapes_cons.
      destruct (np_broadcast_shapes _) as [b'|].
      * apply (IH (length mlist - (idx + 31))); lia.
      * by rewrite fold_pair_None.
  - rewrite drop_ge by lia. reflexivity.
Qed.

(** On a non-empty list the chunked loop computes what the primitive
    computes on all the shapes at once. *)
Lemma broadcast_shapes_outcome mlist :
  mlist ≠ [] →
  outcome (broadcast_shapes mlist) =
  of_shape (np_broadcast_shapes (shape <$> mlist)).
Proof.
  intros Hne. unfold broadcast_shapes. rewrite broadcast_shapes_loop_body.
  destruct (decide (0 < length mlist)) as [Hlt|Hge];
    [|destruct mlist; [done | cbn in Hge; lia]].
  rewrite bool_decide_eq_true_2 by auto.
  rewrite outcome_bind, outcome_call_broadcast_shapes.
  rewrite (np_broadcast_shapes_fold_pair (shape <$> mlist)).
  rewrite (fold_pair_take_drop _ _ 32), <-fmap_take, <-fmap_drop.
  rewrite <-np_broadcast_shapes_fold_pair. cbn [drop].
  destruct (np_broadcast_shapes _) as [b'|].
  - apply (loop_outcome _ (length mlist - 32)); lia.
  - by rewrite fold_pair_None.
Qed.

Lemma broadcast_shapes_nil : broadcast_shapes (@nil (ndarray V)) = ([], Ok None).
Proof. reflexivity. Qed.
End loop_correct.

(** ** Row-major offsets *)

Lemma size_of_app (a b : Shape) : size_of (a ++ b) = size_of a * size_of b.
Proof.
  unfold size_of. induction a as [|x a IH]; cbn; [lia|]. rewrite IH. lia.
Qed.

Lemma offset_2d_inj R C k r c k' r' c' :
  r < R → c < C → r' < R → c' < C →
  (k * R + r) * C + c = (k' * R + r') * C + c' →
  k = k' ∧ r = r' ∧ c = c'.
Proof.
  intros Hr Hc Hr' Hc' H.
  destruct (Nat.div_mod_unique C (k * R + r) (k' * R + r') c c') as [H1 H2];
    [done | done | lia |].
  destruct (Nat.div_mod_unique R k k' r r') as [H3 H4]; [done | done | lia |].
  done.
Qed.

Lemma offset_2d_lt n R C k r c :
  k < n → r < R → c < C → (k * R + r) * C + c < n * (R * (C * 1)).
Proof.
  intros Hk Hr Hc.
  assert (k * R + r + 1 ≤ n * R) as H1 by nia.
  assert ((k * R + r + 1) * C ≤ n * R * C) as H2
    by (apply Nat.mul_le_mono_r; exact H1).
  lia.
Qed.

Lemma offset_1d_inj N k i k' i' :
  i < N → i' < N → k * N + i = k' * N + i' → k = k' ∧ i = i'.
Proof.
  intros Hi Hi' H.
  destruct (Nat.div_mod_unique N k k' i i') as [H1 H2]; [done | done | lia |].
  done.
Qed.

Lemma offset_1d_lt n N k i : k < n → i < N → k * N + i < n * (N * 1).
Proof. intros. nia. Qed.

(** ** Writes into the data of an array *)

Section writes.
Context {V : Type}.
Implicit Types (ws : list (nat * V)) (d : list V).

Lemma apply_writes_app ws1 ws2 d :
  apply_writes (ws1 ++ ws2) d = apply_writes ws2 (apply_writes ws1 d).
Proof. apply foldl_app. Qed.

Lemma length_apply_writes ws d : length (apply_writes ws d) = length d.
Proof.
  revert d. induction ws as [|w ws IH]; intros d; [done|].
  cbn. fold (apply_writes ws (<[w.1:=w.2]> d)).
  by rewrite IH, length_insert.
Qed.

(** A cell that every write to it fills with [v] holds [v] in the end. *)
Lemma apply_writes_lookup ws d o v :
  o < length d → (o, v) ∈ ws → (∀ v', (o, v') ∈ ws → v' = v) →
  apply_writes ws d !! o = Some v.
Proof.
  induction ws as [|[o' v'] ws IH] using rev_ind; [by inversion 2|].
  intros Hlt Hin Hfun. rewrite apply_writes_app. cbn.
  destruct (decide (o' = o)) as [->|Hne].
  - rewrite (Hfun v') by (apply elem_of_app; right; by left).
    apply list_lookup_insert_eq. by rewrite length_apply_writes.
  - rewrite list_lookup_insert_ne by done.
    apply IH; [done | |].
    + apply elem_of_app in Hin as [Hin|Hin]; [done|].
      apply list_elem_of_singleton in Hin. congruence.
    + intros v'' Hv''. apply Hfun. apply elem_of_app. by left.
Qed.
End writes.

(** ** The promotion of data types *)

Lemma can_cast_refl a : can_cast a a = true.
Proof. by destruct a. Qed.

Lemma can_cast_Complex128 a : can_cast a Complex128 = true.
Proof. by destruct a. Qed.

Lemma common_dtype_is_Some ts : ts ≠ [] → is_Some (common_dtype ts).
Proof.
  intros Hne. unfold common_dtype. destruct ts as [|t0 ts]; [done|].
  destruct (filter _ all_dtypes) as [|t l] eqn:Hf; [|by eexists].
  assert (Complex128 ∈ filter (λ t, forallb (λ a, can_cast a t) (t0 :: ts))
            all_dtypes) as Hin; [|rewrite Hf in Hin; inversion Hin].
  apply list_elem_of_filter. split.
  - apply Is_true_true. apply forallb_forall. intros x _.
    apply can_cast_Complex128.
  - unfold all_dtypes. repeat (first [left | right]).
Qed.

(** Every operand casts safely to the promoted type. *)
Lemma common_dtype_upper ts t x :
  common_dtype ts = Some t → x ∈ ts → can_cast x t = true.
Proof.
  unfold common_dtype. destruct ts as [|t0 ts]; [done|]. intros Hh Hx.
  apply head_Some_elem_of in Hh.
  apply list_elem_of_filter in Hh as [Hp _].
  apply Is_true_true in Hp. rewrite forallb_forall in Hp.
  apply Hp. by apply list_elem_of_In.
Qed.

(** The promoted type only depends on which types occur. *)
Lemma common_dtype_same_set ts1 ts2 :
  (∀ x, x ∈ ts1 ↔ x ∈ ts2) → common_dtype ts1 = common_dtype ts2.
Proof.
  intros Hset. unfold common_dtype.
  destruct ts1 as [|a1 ts1], ts2 as [|a2 ts2]; [done | | |].
  - exfalso. by apply (not_elem_of_nil a2), Hset; left.
  - exfalso. by apply (not_elem_of_nil a1), Hset; left.
  - f_equal. apply list_filter_iff. intros t.
    rewrite !Is_true_true, !forallb_forall. split.
    + intros H x Hx%list_elem_of_In. apply H, list_elem_of_In, Hset, Hx.
    + intros H x Hx%list_elem_of_In. apply H, list_elem_of_In, Hset, Hx.
Qed.

Lemma common_dtype_pair a b : common_dtype [a; b] = Some (promote_types a b).
Proof. by destruct a, b. Qed.

Example promote_types_uint8_int8 : promote_types UInt8 Int8 = Int16.
Proof. reflexivity. Qed.

Example promote_types_float32_int64 : promote_types Float32 Int64 = Float64.
Proof. reflexivity. Qed.

Example promote_types_complex64_float64 :
  promote_types Complex64 Float64 = Complex128.
Proof. reflexivity. Qed.

Example common_dtype_int8_uint8_float16 :
  common_dtype [Int8; UInt8; Float16] = Some Float16.
Proof. reflexivity. Qed.

(** ** The loops of the stackers *)

Lemma mret_bind {A B} (a : A) (f : A → M B) : (mret a ≫= f) = f a.
Proof. unfold mret, M_ret, ret, mbind, M_bind, bind. cbn. by destruct (f a). Qed.

Lemma concat_mjoin {A} (ls : list (list A)) : concat ls = mjoin ls.
Proof. induction ls as [|l ls IH]; [done|]. cbn. by rewrite IH. Qed.

Lemma for_enumerate_nil {A St} (body : St → nat → A → M St) start s :
  for_enumerate body [] start s = mret s.
Proof. reflexivity. Qed.

Lemma for_enumerate_cons {A St} (body : St → nat → A → M St) x l start s :
  for_enumerate body (x :: l) start s =
  body s start x ≫= λ s', for_enumerate body l (S start) s'.
Proof. reflexivity. Qed.

(** [broadcast_shapes] reads the shapes of its operands only. *)
Lemma broadcast_shapes_loop_shapes {V} (l1 l2 : list (ndarray V)) (n : nat) :
  shape <$> l1 = shape <$> l2 → ∀ idx bc,
  n = length l1 - idx →
  broadcast_shapes_loop l1 idx bc = broadcast_shapes_loop l2 idx bc.
Proof.
  intros Hs. assert (length l1 = length l2) as Hlen.
  { apply (f_equal length) in Hs. by rewrite !length_fmap in Hs. }
  assert (∀ k idx, shape <$> take k (drop idx l1)
                   = shape <$> take k (drop idx l2)) as Hwin.
  { intros k idx. by rewrite !fmap_take, !fmap_drop, Hs. }
  induction n as [n IH] using lt_wf_ind. intros idx bc Hn.
  rewrite (broadcast_shapes_loop_body l1), (broadcast_shapes_loop_body l2).
  rewrite <-Hlen, !Hwin.
  destruct (decide (idx < length l1)) as [Hlt|Hge]; [|done].
  destruct (bool_decide (idx = 0 ∨ bc = Some [])).
  - f_equal. apply functional_extensionality. intros bc'.
    apply (IH (length l1 - (idx + 32))); lia.
  - destruct bc as [b|]; [|done].
    f_equal. apply functional_extensionality. intros bc'.
    apply (IH (length l1 - (idx + 31))); lia.
Qed.

Lemma broadcast_shapes_shapes {V} (l1 l2 : list (ndarray V)) :
  shape <$> l1 = shape <$> l2 → broadcast_shapes l1 = broadcast_shapes l2.
Proof.
  intros Hs. by apply (broadcast_shapes_loop_shapes l1 l2 (length l1 - 0)).
Qed.

Section stackers_loops.
Context {V : Type}.
Variable cast : DType → V → V.
Variable reject : DType → V → option exn.
Variable zero : V.
Implicit Types (arr : list (list (ndarray V))) (row vals items : list (ndarray V)).
Implicit Types (Marr kdm : ndarray V) (B : Shape).

Lemma shape_np_asarray vals : shape <$> (np_asarray <$> vals) = shape <$> vals.
Proof. by rewrite <-list_fmap_compose. Qed.

Lemma dtype_np_asarray vals : dtype <$> (np_asarray <$> vals) = dtype <$> vals.
Proof. by rewrite <-list_fmap_compose. Qed.

(** The dtype and the broadcast shape are those of the elements as they
    were passed. *)
Lemma np_result_type_asarray vals :
  np_result_type (np_asarray <$> vals) = np_result_type vals.
Proof.
  unfold np_result_type, promote_all.
  by rewrite dtype_np_asarray, length_fmap.
Qed.

Lemma broadcast_shapes_asarray vals :
  broadcast_shapes (np_asarray <$> vals) = broadcast_shapes vals.
Proof. apply broadcast_shapes_shapes, shape_np_asarray. Qed.

Lemma collect_row row start vals :
  for_enumerate (λ vals (c_idx : nat) kdm, mret (vals ++ [np_asarray kdm]))
    row start vals = mret (vals ++ (np_asarray <$> row)).
Proof.
  revert start vals. induction row as [|kdm row IH]; intros start vals.
  - rewrite for_enumerate_nil. cbn. by rewrite app_nil_r.
  - rewrite for_enumerate_cons, mret_bind, IH. cbn. by rewrite <-app_assoc.
Qed.

Lemma collect_rows_ok Ncols arr start vals :
  Forall (λ row, length row = Ncols) arr →
  for_enumerate (λ vals (r_idx : nat) row,
    if length row =? Ncols then
      for_enumerate (λ vals (c_idx : nat) kdm,
        mret (vals ++ [np_asarray kdm])) row 0 vals
    else raise AssertionError) arr start vals
  = mret (vals ++ (np_asarray <$> concat arr)).
Proof.
  intros Hrect. revert start vals.
  induction Hrect as [|row arr Hrow _ IH]; intros start vals.
  - rewrite for_enumerate_nil. cbn. by rewrite app_nil_r.
  - rewrite for_enumerate_cons, Hrow, Nat.eqb_refl, collect_row, mret_bind, IH.
    cbn. by rewrite fmap_app, <-app_assoc.
Qed.

Lemma collect_rows_ragged Ncols arr start vals :
  ¬ Forall (λ row, length row = Ncols) arr →
  for_enumerate (λ vals (r_idx : nat) row,
    if length row =? Ncols then
      for_enumerate (λ vals (c_idx : nat) kdm,
        mret (vals ++ [np_asarray kdm])) row 0 vals
    else raise AssertionError) arr start vals
  = ([], Raise AssertionError).
Proof.
  revert start vals. induction arr as [|row arr IH]; intros start vals Hr.
  - destruct Hr. constructor.
  - rewrite for_enumerate_cons. destruct (length row =? Ncols) eqn:Hrow.
    + apply Nat.eqb_eq in Hrow.
      rewrite collect_row, mret_bind. apply IH.
      intros Hall. apply Hr. by constructor.
    + reflexivity.
Qed.

(** The filling loop stops at the first element that is refused. *)
Lemma fill_error_nil t : fill_error reject t [] = None.
Proof. done. Qed.

Lemma fill_error_cons t kdm vals :
  fill_error reject t (kdm :: vals)
  = match assign_error reject t kdm with
    | Some e => Some e
    | None => fill_error reject t vals
    end.
Proof. unfold fill_error. cbn. by destruct (assign_error reject t kdm). Qed.

Lemma fill_error_app t vals1 vals2 :
  fill_error reject t (vals1 ++ vals2)
  = match fill_error reject t vals1 with
    | Some e => Some e
    | None => fill_error reject t vals2
    end.
Proof.
  induction vals1 as [|kdm vals1 IH]; [done|].
  rewrite <-app_comm_cons, !fill_error_cons.
  by destruct (assign_error reject t kdm).
Qed.

Lemma fill_error_None t vals :
  fill_error reject t vals = None ↔
  Forall (λ kdm, assign_error reject t kdm = None) vals.
Proof.
  induction vals as [|kdm vals IH]; [by split; [constructor|]|].
  rewrite fill_error_cons, list.Forall_cons, <-IH.
  destruct (assign_error reject t kdm) as [e|].
  - split; [done | by intros [? ?]].
  - split; [by split | by intros [_ ?]].
Qed.

(** An [np.ndarray] is never refused, nor is a value whose own type casts
    safely to the dtype. *)
Lemma assign_error_array t kdm : raw kdm = false → assign_error reject t kdm = None.
Proof. unfold assign_error. by intros ->. Qed.

Lemma assign_error_can_cast t kdm :
  can_cast (dtype kdm) t = true → assign_error reject t kdm = None.
Proof. unfold assign_error. intros ->. by rewrite andb_false_r. Qed.

Lemma fill_error_arrays t vals :
  Forall (λ kdm, raw kdm = false) vals → fill_error reject t vals = None.
Proof.
  intros H. apply fill_error_None. eapply list.Forall_impl; [exact H|].
  intros kdm. apply assign_error_array.
Qed.

(** Without an override the result dtype takes every element. *)
Lemma fill_error_promoted t vals :
  promote_all vals = Some t → fill_error reject t vals = None.
Proof.
  intros Ht. apply fill_error_None, list.Forall_forall. intros kdm Hin.
  apply assign_error_can_cast, (common_dtype_upper _ _ _ Ht).
  apply list_elem_of_fmap. by exists kdm.
Qed.

Lemma fill_error_result_dtype dt t vals :
  result_dtype dt vals = Some t →
  (∀ t', dt = Some t' → fill_error reject t' vals = None) →
  fill_error reject t vals = None.
Proof.
  destruct dt as [t'|]; cbn; intros Ht Hov.
  - simplify_eq. by apply Hov.
  - by apply fill_error_promoted.
Qed.

Lemma put_put (ws1 ws2 : list (nat * V)) Marr :
  put ws2 (put ws1 Marr) = put (ws1 ++ ws2) Marr.
Proof. unfold put. cbn. by rewrite apply_writes_app. Qed.

Lemma put_nil Marr : put [] Marr = Marr.
Proof. by destruct Marr. Qed.

Lemma shape_put ws Marr : shape (put ws Marr) = shape Marr.
Proof. done. Qed.

Lemma dtype_put ws Marr : dtype (put ws Marr) = dtype Marr.
Proof. done. Qed.

Lemma shape_split_2d B R C :
  let s := B ++ [R; C] in
  take (length s - 2) s = B ∧ nth (length s - 2) s 0 = R
  ∧ nth (S (length s - 2)) s 0 = C.
Proof.
  cbn. rewrite length_app. cbn.
  replace (length B + 2 - 2) with (length B) by lia.
  rewrite take_app_length.
  rewrite !nth_lookup, !lookup_app_r by lia.
  replace (length B - length B) with 0 by lia.
  replace (S (length B) - length B) with 1 by lia. done.
Qed.

Lemma shape_split_1d B N :
  let s := B ++ [N] in
  take (length s - 1) s = B ∧ nth (length s - 1) s 0 = N.
Proof.
  cbn. rewrite length_app. cbn.
  replace (length B + 1 - 1) with (length B) by lia.
  rewrite take_app_length.
  rewrite !nth_lookup, !lookup_app_r by lia.
  replace (length B - length B) with 0 by lia. done.
Qed.

Lemma setitem_2d_put B R C Marr r c kdm :
  shape Marr = B ++ [R; C] → broadcastable (shape kdm) B = true →
  setitem_2d cast reject zero Marr r c kdm =
  match assign_error reject (dtype Marr) kdm with
  | Some e => raise e
  | None => mret (put (writes_2d cast zero B R C (dtype Marr) r c kdm) Marr)
  end.
Proof.
  intros Hs Hb. unfold setitem_2d.
  destruct (assign_error reject (dtype Marr) kdm); [done|]. rewrite Hs.
  destruct (shape_split_2d B R C) as (H1 & H2 & H3). cbn zeta in H1, H2, H3.
  rewrite H1, H2, H3, Hb. unfold put, writes_2d, store. by rewrite Hs.
Qed.

Lemma setitem_1d_put B N Marr i rVal :
  shape Marr = B ++ [N] → broadcastable (shape rVal) B = true →
  setitem_1d cast reject zero Marr i rVal =
  match assign_error reject (dtype Marr) rVal with
  | Some e => raise e
  | None => mret (put (writes_1d cast zero B N (dtype Marr) i rVal) Marr)
  end.
Proof.
  intros Hs Hb. unfold setitem_1d.
  destruct (assign_error reject (dtype Marr) rVal); [done|]. rewrite Hs.
  destruct (shape_split_1d B N) as (H1 & H2). cbn zeta in H1, H2.
  rewrite H1, H2, Hb. unfold put, writes_1d, store. by rewrite Hs.
Qed.

(** The loop over the columns of one row is the list of its writes, or
    the first refusal. *)
Lemma fill_row B R C r row : ∀ c0 Marr,
  shape Marr = B ++ [R; C] →
  Forall (λ kdm, broadcastable (shape kdm) B = true) row →
  for_enumerate (λ Marr c_idx kdm, setitem_2d cast reject zero Marr r c_idx kdm)
    row c0 Marr
  = match fill_error reject (dtype Marr) row with
    | Some e => raise e
    | None =>
        mret (put (mjoin (imap (λ c kdm,
                writes_2d cast zero B R C (dtype Marr) r (c0 + c) kdm) row)) Marr)
    end.
Proof.
  induction row as [|kdm row IH]; intros c0 Marr Hs Hb.
  - by rewrite for_enumerate_nil, put_nil.
  - apply Forall_cons_1 in Hb as [Hk Hb]. rewrite for_enumerate_cons.
    rewrite (setitem_2d_put B R C) by done. rewrite fill_error_cons.
    destruct (assign_error reject (dtype Marr) kdm); [done|].
    rewrite mret_bind. rewrite IH by done. rewrite dtype_put.
    destruct (fill_error reject (dtype Marr) row); [done|].
    rewrite put_put. cbn.
    rewrite Nat.add_0_r. do 4 f_equal.
    apply imap_ext. intros c x _. cbn. by rewrite Nat.add_succ_r.
Qed.

(** The loop over the rows is the list of the writes of all the rows, or
    the first refusal. *)
Lemma fill_rows B R C arr : ∀ r0 Marr,
  shape Marr = B ++ [R; C] →
  Forall (Forall (λ kdm, broadcastable (shape kdm) B = true)) arr →
  for_enumerate (λ Marr r_idx row,
    for_enumerate (λ Marr c_idx kdm, setitem_2d cast reject zero Marr r_idx c_idx kdm)
      row 0 Marr) arr r0 Marr
  = match fill_error reject (dtype Marr) (concat arr) with
    | Some e => raise e
    | None =>
        mret (put (mjoin (imap (λ r row, mjoin (imap (λ c kdm,
                writes_2d cast zero B R C (dtype Marr) (r0 + r) c kdm) row)) arr))
              Marr)
    end.
Proof.
  induction arr as [|row arr IH]; intros r0 Marr Hs Hb.
  - by rewrite for_enumerate_nil, put_nil.
  - apply Forall_cons_1 in Hb as [Hk Hb]. rewrite for_enumerate_cons.
    rewrite (fill_row B R C) by done.
    change (concat (row :: arr)) with (row ++ concat arr).
    rewrite fill_error_app.
    destruct (fill_error reject (dtype Marr) row); [done|].
    rewrite mret_bind. rewrite IH by done. rewrite dtype_put.
    destruct (fill_error reject (dtype Marr) (concat arr)); [done|].
    rewrite put_put. cbn.
    rewrite Nat.add_0_r. do 4 f_equal.
    apply imap_ext. intros c x _. cbn. by rewrite Nat.add_succ_r.
Qed.

Lemma fill_vector B N items : ∀ i0 Marr,
  shape Marr = B ++ [N] →
  Forall (λ rVal, broadcastable (shape rVal) B = true) items →
  for_enumerate (λ Marr r_idx rVal, setitem_1d cast reject zero Marr r_idx rVal)
    items i0 Marr
  = match fill_error reject (dtype Marr) items with
    | Some e => raise e
    | None =>
        mret (put (mjoin (imap (λ i rVal,
                writes_1d cast zero B N (dtype Marr) (i0 + i) rVal) items)) Marr)
    end.
Proof.
  induction items as [|rVal items IH]; intros i0 Marr Hs Hb.
  - by rewrite for_enumerate_nil, put_nil.
  - apply Forall_cons_1 in Hb as [Hk Hb]. rewrite for_enumerate_cons.
    rewrite (setitem_1d_put B N) by done. rewrite fill_error_cons.
    destruct (assign_error reject (dtype Marr) rVal); [done|].
    rewrite mret_bind. rewrite IH by done. rewrite dtype_put.
    destruct (fill_error reject (dtype Marr) items); [done|].
    rewrite put_put. cbn.
    rewrite Nat.add_0_r. do 4 f_equal.
    apply imap_ext. intros c x _. cbn. by rewrite Nat.add_succ_r.
Qed.
End stackers_loops.

(** ** What the filled array holds *)

Section stackers_cells.
Context {V : Type}.
Variable cast : DType → V → V.
Variable reject : DType → V → option exn.
Variable zero : V.
Implicit Types (arr : list (list (ndarray V))) (row vals items : list (ndarray V)).
Implicit Types (Marr kdm : ndarray V) (B : Shape) (d : list V).

Lemma length_broadcast_to kdm B : length (broadcast_to zero kdm B) = size_of B.
Proof. unfold broadcast_to. by rewrite length_fmap, length_seq. Qed.

Lemma elem_of_all_writes_2d B R C t arr o v :
  (o, v) ∈ all_writes_2d cast zero B R C t arr ↔
  ∃ r row c kdm k, arr !! r = Some row ∧ row !! c = Some kdm ∧
    (cast t <$> broadcast_to zero kdm B) !! k = Some v ∧
    o = (k * R + r) * C + c.
Proof.
  unfold all_writes_2d, writes_2d. rewrite list_elem_of_join. split.
  - intros (l & Hin & (r & row & -> & Hrow)%elem_of_lookup_imap).
    apply list_elem_of_join in Hin
      as (l & Hin & (c & kdm & -> & Hkdm)%elem_of_lookup_imap).
    apply elem_of_lookup_imap in Hin as (k & v' & Heq & Hk).
    simplify_eq. by exists r, row, c, kdm, k.
  - intros (r & row & c & kdm & k & Hrow & Hkdm & Hk & ->).
    eexists. split; [|apply elem_of_lookup_imap; by exists r, row].
    apply list_elem_of_join.
    eexists. split; [|apply elem_of_lookup_imap; by exists c, kdm].
    apply elem_of_lookup_imap. by exists k, v.
Qed.

Lemma elem_of_all_writes_1d B N t items o v :
  (o, v) ∈ all_writes_1d cast zero B N t items ↔
  ∃ i rVal k, items !! i = Some rVal ∧
    (cast t <$> broadcast_to zero rVal B) !! k = Some v ∧
    o = k * N + i.
Proof.
  unfold all_writes_1d, writes_1d. rewrite list_elem_of_join. split.
  - intros (l & Hin & (i & rVal & -> & Hi)%elem_of_lookup_imap).
    apply elem_of_lookup_imap in Hin as (k & v' & Heq & Hk).
    simplify_eq. by exists i, rVal, k.
  - intros (i & rVal & k & Hi & Hk & ->).
    eexists. split; [|apply elem_of_lookup_imap; by exists i, rVal].
    apply elem_of_lookup_imap. by exists k, v.
Qed.

(** After the nested loop, the cell of [(r, c)] at position [k] of the
    broadcast shape holds the value of the element of [(r, c)] there. *)
Lemma matrix_fill_lookup B R C t arr d r row c kdm k v :
  length arr = R → Forall (λ row, length row = C) arr →
  length d = size_of (B ++ [R; C]) →
  arr !! r = Some row → row !! c = Some kdm →
  (cast t <$> broadcast_to zero kdm B) !! k = Some v →
  apply_writes (all_writes_2d cast zero B R C t arr) d
    !! ((k * R + r) * C + c) = Some v.
Proof.
  intros HR HC Hd Hrow Hkdm Hk.
  assert (∀ r' row' c' (x : ndarray V),
    arr !! r' = Some row' → row' !! c' = Some x → r' < R ∧ c' < C) as Hrange.
  { intros r' row' c' x H1 H2. split.
    - rewrite <-HR. by eapply lookup_lt_Some.
    - rewrite <-(Forall_lookup_1 _ _ _ _ HC H1). by eapply lookup_lt_Some. }
  destruct (Hrange _ _ _ _ Hrow Hkdm) as [Hr Hc].
  apply apply_writes_lookup.
  - rewrite Hd, size_of_app. apply offset_2d_lt; [|done..].
    apply lookup_lt_Some in Hk.
    by rewrite length_fmap, length_broadcast_to in Hk.
  - apply elem_of_all_writes_2d. by exists r, row, c, kdm, k.
  - intros v' (r' & row' & c' & kdm' & k' & Hrow' & Hkdm' & Hk' & Heq)
      %elem_of_all_writes_2d.
    destruct (Hrange _ _ _ _ Hrow' Hkdm') as [Hr' Hc'].
    destruct (offset_2d_inj R C k r c k' r' c') as (-> & -> & ->);
      [done..|].
    simplify_eq. done.
Qed.

Lemma vector_fill_lookup B N t items d i rVal k v :
  length items = N → length d = size_of (B ++ [N]) →
  items !! i = Some rVal →
  (cast t <$> broadcast_to zero rVal B) !! k = Some v →
  apply_writes (all_writes_1d cast zero B N t items) d !! (k * N + i) = Some v.
Proof.
  intros HN Hd Hi Hk.
  assert (i < N) as Hlt by (rewrite <-HN; by eapply lookup_lt_Some).
  apply apply_writes_lookup.
  - rewrite Hd, size_of_app. apply offset_1d_lt; [|done].
    apply lookup_lt_Some in Hk.
    by rewrite length_fmap, length_broadcast_to in Hk.
  - apply elem_of_all_writes_1d. by exists i, rVal, k.
  - intros v' (i' & rVal' & k' & Hi' & Hk' & Heq)%elem_of_all_writes_1d.
    assert (i' < N) as Hlt' by (rewrite <-HN; by eapply lookup_lt_Some).
    destruct (offset_1d_inj N k i k' i') as (-> & ->); [done..|].
    simplify_eq. done.
Qed.

(** The slice of [(r, c)] of the filled array. *)
Lemma matrix_fill_slice B R C t arr d r row c kdm :
  length arr = R → Forall (λ row, length row = C) arr →
  length d = size_of (B ++ [R; C]) →
  arr !! r = Some row → row !! c = Some kdm →
  slice_2d zero
    (mk_ndarray (B ++ [R; C]) t
       (apply_writes (all_writes_2d cast zero B R C t arr) d) false) r c
  = cast t <$> broadcast_to zero kdm B.
Proof.
  intros HR HC Hd Hrow Hkdm. unfold slice_2d. cbn [shape data].
  destruct (shape_split_2d B R C) as (H1 & H2 & H3). cbn zeta in H1, H2, H3.
  rewrite H1, H2, H3. apply list_eq. intros k. rewrite list_lookup_fmap.
  destruct (decide (k < size_of B)) as [Hk|Hk].
  - rewrite lookup_seq_lt by done. cbn.
    destruct (lookup_lt_is_Some_2 (cast t <$> broadcast_to zero kdm B) k)
      as [v Hv]; [by rewrite length_fmap, length_broadcast_to|].
    rewrite Hv.
    by rewrite (matrix_fill_lookup B R C t arr d r row c kdm k v).
  - rewrite (lookup_ge_None_2 (seq _ _)) by (rewrite length_seq; lia).
    rewrite lookup_ge_None_2;
      [done | rewrite length_fmap, length_broadcast_to; lia].
Qed.

Lemma vector_fill_slice B N t items d i rVal :
  length items = N → length d = size_of (B ++ [N]) →
  items !! i = Some rVal →
  slice_1d zero
    (mk_ndarray (B ++ [N]) t
       (apply_writes (all_writes_1d cast zero B N t items) d) false) i
  = cast t <$> broadcast_to zero rVal B.
Proof.
  intros HN Hd Hi. unfold slice_1d. cbn [shape data].
  destruct (shape_split_1d B N) as (H1 & H2). cbn zeta in H1, H2.
  rewrite H1, H2. apply list_eq. intros k. rewrite list_lookup_fmap.
  destruct (decide (k < size_of B)) as [Hk|Hk].
  - rewrite lookup_seq_lt by done. cbn.
    destruct (lookup_lt_is_Some_2 (cast t <$> broadcast_to zero rVal B) k)
      as [v Hv]; [by rewrite length_fmap, length_broadcast_to|].
    rewrite Hv.
    by rewrite (vector_fill_lookup B N t items d i rVal k v).
  - rewrite (lookup_ge_None_2 (seq _ _)) by (rewrite length_seq; lia).
    rewrite lookup_ge_None_2;
      [done | rewrite length_fmap, length_broadcast_to; lia].
Qed.
End stackers_cells.

(** ** Outcomes of the stackers *)

Section stackers_outcome.
Context {V : Type}.
Variable cast : DType → V → V.
Variable reject : DType → V → option exn.
Variable zero : V.
Variable uninit : nat → V.
Implicit Types (arr : list (list (ndarray V))) (row vals items : list (ndarray V)).
Implicit Types (Marr kdm : ndarray V) (B : Shape) (d : list V).

Lemma outcome_np_result_type vals :
  outcome (np_result_type vals) =
  match promote_all vals with
  | Some t => Ok t
  | None => Raise ValueError_no_operand
  end.
Proof.
  unfold np_result_type. rewrite outcome_bind. cbn.
  by destruct (promote_all vals).
Qed.

Lemma trace_np_result_type vals :
  trace (np_result_type vals) = [EvResultType (length vals)].
Proof.
  unfold np_result_type. rewrite trace_bind. cbn.
  by destruct (promote_all vals).
Qed.

Lemma outcome_dtype_choice (dt : option DType) vals :
  outcome (match dt with
           | None => np_result_type vals
           | Some t => mret t
           end) =
  match result_dtype dt vals with
  | Some t => Ok t
  | None => Raise ValueError_no_operand
  end.
Proof. destruct dt as [t|]; [done | apply outcome_np_result_type]. Qed.

Lemma promote_all_is_Some vals : vals ≠ [] → is_Some (promote_all vals).
Proof.
  intros Hne. apply common_dtype_is_Some. by destruct vals.
Qed.

(** [matrix_stack] once the rows have been collected. *)
Lemma matrix_stack_collected row0 arr0 dt :
  let arr := row0 :: arr0 in
  Forall (λ row, length row = length row0) arr →
  matrix_stack cast reject zero uninit arr dt =
  (dtype ← match dt with
           | None => np_result_type (concat arr)
           | Some t => mret t
           end;
   bc ← broadcast_shapes (concat arr);
   n ← py_len bc;
   if n =? 0 then np_array_2d cast zero arr
   else
     Marr ← np_empty uninit (default [] bc ++ [length arr; length row0]) dtype;
     for_enumerate (λ Marr r_idx row,
       for_enumerate (λ Marr c_idx kdm, setitem_2d cast reject zero Marr r_idx c_idx kdm)
         row 0 Marr) arr 0 Marr).
Proof.
  intros arr Hrect. unfold matrix_stack. subst arr. cbv beta iota zeta.
  rewrite mret_bind. rewrite collect_rows_ok by done. rewrite mret_bind.
  by rewrite app_nil_l, np_result_type_asarray, broadcast_shapes_asarray.
Qed.

Lemma vector_stack_collected items dt :
  vector_stack cast reject zero uninit items dt =
  (dtype ← match dt with
           | None => np_result_type items
           | Some t => mret t
           end;
   bc ← broadcast_shapes items;
   n ← py_len bc;
   if n =? 0 then np_array_1d cast zero items
   else
     Marr ← np_empty uninit (default [] bc ++ [length items]) dtype;
     for_enumerate (λ Marr r_idx rVal, setitem_1d cast reject zero Marr r_idx rVal)
       items 0 Marr).
Proof.
  unfold vector_stack. rewrite collect_row, mret_bind.
  by rewrite app_nil_l, np_result_type_asarray, broadcast_shapes_asarray.
Qed.

Lemma broadcastable_rows arr B :
  np_broadcast_shapes (shape <$> concat arr) = Some B →
  Forall (Forall (λ kdm, broadcastable (shape kdm) B = true)) arr.
Proof.
  intros HB. apply list.Forall_forall. intros row Hrow.
  apply list.Forall_forall. intros kdm Hkdm.
  apply (np_broadcast_shapes_broadcastable _ _ _ HB).
  apply list_elem_of_fmap. exists kdm. split; [done|].
  rewrite concat_mjoin. apply list_elem_of_join. by exists row.
Qed.

(** The general path: some element has an axis.  The array is filled,
    unless an element is refused. *)
Lemma matrix_stack_general_outcome arr dt R C B t :
  length arr = R → Forall (λ row, length row = C) arr →
  np_broadcast_shapes (shape <$> concat arr) = Some B → 0 < length B →
  result_dtype dt (concat arr) = Some t →
  outcome (matrix_stack cast reject zero uninit arr dt) =
  match fill_error reject t (concat arr) with
  | Some e => Raise e
  | None =>
      Ok (mk_ndarray (B ++ [R; C]) t
            (apply_writes (all_writes_2d cast zero B R C t arr)
               (uninit <$> seq 0 (size_of (B ++ [R; C])))) false)
  end.
Proof.
  intros HR HC HB Hrank Ht.
  destruct arr as [|row0 arr0]; [cbn in HB; simplify_eq; cbn in Hrank; lia|].
  assert (length row0 = C) as HC0 by (by apply Forall_cons_1 in HC as [? _]).
  subst C. rewrite matrix_stack_collected by done.
  set (arr := row0 :: arr0) in *.
  assert (concat arr ≠ []) as Hne.
  { intros Heq. rewrite Heq in HB. cbn in HB. simplify_eq. cbn in Hrank. lia. }
  rewrite outcome_bind, outcome_dtype_choice, Ht.
  rewrite outcome_bind, broadcast_shapes_outcome, HB by done. cbn [of_shape].
  rewrite outcome_bind. cbn [py_len outcome mret M_ret ret snd].
  destruct (length B =? 0) eqn:Hz; [apply Nat.eqb_eq in Hz; lia|].
  rewrite outcome_bind. cbn [default]. rewrite HR.
  unfold np_empty. rewrite outcome_bind. cbn [tell outcome snd].
  cbn [mret M_ret ret outcome snd].
  rewrite (fill_rows cast reject zero B R (length row0))
    by (done || by apply broadcastable_rows).
  cbn [dtype]. by destruct (fill_error reject t (concat arr)).
Qed.
End stackers_outcome.

Lemma np_broadcast_shapes_scalars (shapes : list Shape) :
  (∀ s, s ∈ shapes → s = []) → np_broadcast_shapes shapes = Some [].
Proof.
  intros H. assert (max_rank shapes = 0) as Hr.
  { unfold max_rank. induction shapes as [|s shapes IH]; [done|].
    cbn. rewrite (H s) by left. cbn. apply IH. intros s' Hs'. apply H. by right. }
  apply np_broadcast_shapes_Some_2; [done|].
  intros j. rewrite unify_all_beyond by lia. by rewrite dim_r_ge by (cbn; lia).
Qed.

Section stackers_outcome_2.
Context {V : Type}.
Variable cast : DType → V → V.
Variable reject : DType → V → option exn.
Variable zero : V.
Variable uninit : nat → V.
Implicit Types (arr : list (list (ndarray V))) (row vals items : list (ndarray V)).
Implicit Types (Marr kdm : ndarray V) (B : Shape) (d : list V).

Lemma vector_stack_general_outcome items dt N B t :
  length items = N →
  np_broadcast_shapes (shape <$> items) = Some B → 0 < length B →
  result_dtype dt items = Some t →
  outcome (vector_stack cast reject zero uninit items dt) =
  match fill_error reject t items with
  | Some e => Raise e
  | None =>
      Ok (mk_ndarray (B ++ [N]) t
            (apply_writes (all_writes_1d cast zero B N t items)
               (uninit <$> seq 0 (size_of (B ++ [N])))) false)
  end.
Proof.
  intros HN HB Hrank Ht.
  assert (items ≠ []) as Hne.
  { intros ->. cbn in HB. simplify_eq. cbn in Hrank. lia. }
  rewrite vector_stack_collected.
  rewrite outcome_bind, outcome_dtype_choice, Ht.
  rewrite outcome_bind, broadcast_shapes_outcome, HB by done. cbn [of_shape].
  rewrite outcome_bind. cbn [py_len outcome mret M_ret ret snd].
  destruct (length B =? 0) eqn:Hz; [apply Nat.eqb_eq in Hz; lia|].
  rewrite outcome_bind. cbn [default]. rewrite HN.
  unfold np_empty. rewrite outcome_bind. cbn [tell outcome snd].
  cbn [mret M_ret ret outcome snd].
  rewrite (fill_vector cast reject zero B N);
    [cbn [dtype]; by destruct (fill_error reject t items) | done |].
  apply list.Forall_forall. intros rVal Hin.
  apply (np_broadcast_shapes_broadcastable _ _ _ HB).
  apply list_elem_of_fmap. by exists rVal.
Qed.

(** The shortcut: every element is 0-d. *)
Lemma matrix_stack_scalar_outcome arr dt R C t :
  length arr = R → Forall (λ row, length row = C) arr →
  Forall (Forall (λ kdm, shape kdm = [])) arr →
  promote_all (concat arr) = Some t →
  outcome (matrix_stack cast reject zero uninit arr dt) =
  Ok (mk_ndarray [R; C] t ((λ a, cast t (item zero a)) <$> concat arr) false).
Proof.
  intros HR HC Hsc Ht.
  destruct arr as [|row0 arr0]; [done|].
  assert (length row0 = C) as HC0 by (by apply Forall_cons_1 in HC as [? _]).
  subst C. rewrite matrix_stack_collected by done.
  set (arr := row0 :: arr0) in *.
  assert (concat arr ≠ []) as Hne by (by intros Heq; rewrite Heq in Ht).
  assert (np_broadcast_shapes (shape <$> concat arr) = Some []) as HB.
  { apply np_broadcast_shapes_scalars.
    intros s (kdm & -> & Hin)%list_elem_of_fmap.
    rewrite concat_mjoin in Hin.
    apply list_elem_of_join in Hin as (row & Hk & Hrow).
    rewrite list.Forall_forall in Hsc. specialize (Hsc _ Hrow).
    rewrite list.Forall_forall in Hsc. by apply Hsc. }
  rewrite outcome_bind, outcome_dtype_choice.
  assert (is_Some (result_dtype dt (concat arr))) as [t' ->].
  { unfold result_dtype. destruct dt; [by eexists | by rewrite Ht]. }
  rewrite outcome_bind, broadcast_shapes_outcome, HB by done. cbn [of_shape].
  rewrite outcome_bind. cbn [py_len outcome mret M_ret ret snd length Nat.eqb].
  unfold np_array_2d. rewrite outcome_bind. cbn [tell outcome snd].
  cbn [mret M_ret ret outcome snd]. rewrite Ht, HR. reflexivity.
Qed.

Lemma vector_stack_scalar_outcome items dt N t :
  length items = N →
  Forall (λ rVal, shape rVal = []) items →
  promote_all items = Some t →
  outcome (vector_stack cast reject zero uninit items dt) =
  Ok (mk_ndarray [N] t ((λ a, cast t (item zero a)) <$> items) false).
Proof.
  intros HN Hsc Ht.
  assert (items ≠ []) as Hne by (by intros ->).
  assert (np_broadcast_shapes (shape <$> items) = Some []) as HB.
  { apply np_broadcast_shapes_scalars.
    intros s (kdm & -> & Hin)%list_elem_of_fmap.
    rewrite list.Forall_forall in Hsc. by apply Hsc. }
  rewrite vector_stack_collected.
  rewrite outcome_bind, outcome_dtype_choice.
  assert (is_Some (result_dtype dt items)) as [t' ->].
  { unfold result_dtype. destruct dt; [by eexists | by rewrite Ht]. }
  rewrite outcome_bind, broadcast_shapes_outcome, HB by done. cbn [of_shape].
  rewrite outcome_bind. cbn [py_len outcome mret M_ret ret snd length Nat.eqb].
  unfold np_array_1d. rewrite outcome_bind. cbn [tell outcome snd].
  cbn [mret M_ret ret outcome snd]. rewrite Ht, HN. reflexivity.
Qed.
End stackers_outcome_2.

(** ** The calls the functions make *)

Section traces.
Context {V : Type}.
Variable cast : DType → V → V.
Variable reject : DType → V → option exn.
Variable zero : V.
Variable uninit : nat → V.
Implicit Types (mlist vals items row : list (ndarray V)).
Implicit Types (arr : list (list (ndarray V))).

(** The loop only calls the broadcasting primitive, and never with more
    than 32 operands. *)
Lemma trace_broadcast_shapes_loop mlist n : ∀ idx bc,
  n = length mlist - idx →
  Forall is_broadcast_call (trace (broadcast_shapes_loop mlist idx bc)).
Proof.
  induction n as [n IH] using lt_wf_ind. intros idx bc Hn.
  rewrite broadcast_shapes_loop_body.
  destruct (decide (idx < length mlist)) as [Hlt|Hge]; [|by constructor].
  destruct (bool_decide (idx = 0 ∨ bc = Some [])).
  - rewrite trace_bind, trace_call_broadcast_shapes. apply Forall_app_2.
    + constructor; [|constructor]. cbn. rewrite length_fmap, length_take. lia.
    + destruct (outcome _); [|constructor].
      apply (IH (length mlist - (idx + 32))); lia.
  - destruct bc as [b|]; [|constructor].
    rewrite trace_bind, trace_call_broadcast_shapes. apply Forall_app_2.
    + constructor; [|constructor]. cbn. rewrite length_fmap, length_take. lia.
    + destruct (outcome _); [|constructor].
      apply (IH (length mlist - (idx + 31))); lia.
Qed.

Lemma trace_broadcast_shapes mlist :
  Forall is_broadcast_call (trace (broadcast_shapes mlist)).
Proof. by apply (trace_broadcast_shapes_loop mlist (length mlist - 0)). Qed.

Lemma trace_dtype_choice (dt : option DType) vals s :
  EvAlloc s ∉ trace (match dt with
                     | None => np_result_type vals
                     | Some t => mret t
                     end).
Proof.
  destruct dt as [t|]; [apply not_elem_of_nil|].
  rewrite trace_np_result_type. by intros ?%list_elem_of_singleton.
Qed.

Lemma broadcast_shapes_no_alloc mlist s :
  EvAlloc s ∉ trace (broadcast_shapes mlist).
Proof.
  intros Hin. pose proof (trace_broadcast_shapes mlist) as H.
  rewrite list.Forall_forall in H. by apply H in Hin.
Qed.

(** Incompatible shapes: the stackers raise before allocating. *)
Lemma matrix_stack_mismatch arr dt C :
  Forall (λ row, length row = C) arr →
  np_broadcast_shapes (shape <$> concat arr) = None →
  outcome (matrix_stack cast reject zero uninit arr dt) = Raise ShapeMismatch ∧
  ∀ s, EvAlloc s ∉ trace (matrix_stack cast reject zero uninit arr dt).
Proof.
  intros HC HB. destruct arr as [|row0 arr0]; [done|].
  assert (length row0 = C) as HC0 by (by apply Forall_cons_1 in HC as [? _]).
  subst C. rewrite matrix_stack_collected by done.
  set (arr := row0 :: arr0) in *.
  assert (concat arr ≠ []) as Hne by (by intros Heq; rewrite Heq in HB).
  assert (is_Some (result_dtype dt (concat arr))) as [t Ht].
  { unfold result_dtype. destruct dt; [by eexists|].
    by apply promote_all_is_Some. }
  split.
  - rewrite outcome_bind, outcome_dtype_choice, Ht.
    by rewrite outcome_bind, broadcast_shapes_outcome, HB.
  - intros s. rewrite trace_bind, outcome_dtype_choice, Ht.
    rewrite trace_bind, broadcast_shapes_outcome, HB by done.
    cbn [of_shape]. rewrite app_nil_r. rewrite not_elem_of_app.
    split; [apply trace_dtype_choice | apply broadcast_shapes_no_alloc].
Qed.

Lemma vector_stack_mismatch items dt :
  np_broadcast_shapes (shape <$> items) = None →
  outcome (vector_stack cast reject zero uninit items dt) = Raise ShapeMismatch ∧
  ∀ s, EvAlloc s ∉ trace (vector_stack cast reject zero uninit items dt).
Proof.
  intros HB. rewrite vector_stack_collected.
  assert (items ≠ []) as Hne by (by intros ->).
  assert (is_Some (result_dtype dt items)) as [t Ht].
  { unfold result_dtype. destruct dt; [by eexists|].
    by apply promote_all_is_Some. }
  split.
  - rewrite outcome_bind, outcome_dtype_choice, Ht.
    by rewrite outcome_bind, broadcast_shapes_outcome, HB.
  - intros s. rewrite trace_bind, outcome_dtype_choice, Ht.
    rewrite trace_bind, broadcast_shapes_outcome, HB by done.
    cbn [of_shape]. rewrite app_nil_r. rewrite not_elem_of_app.
    split; [apply trace_dtype_choice | apply broadcast_shapes_no_alloc].
Qed.

(** Rows of unequal length: the assertion fails before any primitive is
    called. *)
Lemma matrix_stack_ragged arr dt i j row_i row_j :
  arr !! i = Some row_i → arr !! j = Some row_j →
  length row_i ≠ length row_j →
  matrix_stack cast reject zero uninit arr dt = ([], Raise RaggedInput).
Proof.
  intros Hi Hj Hne. destruct arr as [|row0 arr0]; [done|].
  unfold matrix_stack. cbv beta iota zeta. rewrite mret_bind.
  rewrite collect_rows_ragged; [done|].
  intros Hall. rewrite Forall_lookup in Hall.
  pose proof (Hall _ _ Hi). pose proof (Hall _ _ Hj). cbn in *. lia.
Qed.
End traces.

(** ** Order independence of the broadcast *)

Lemma unify_from_iff a ds x :
  unify_from (Some a) ds = Some x ↔
  (a = 1 ∨ a = x) ∧ (∀ d, d ∈ ds → d = 1 ∨ d = x) ∧ (x = 1 ∨ x = a ∨ x ∈ ds).
Proof.
  revert a. induction ds as [|d ds IH]; intros a.
  - cbn. setoid_rewrite elem_of_nil. naive_solver.
  - change (unify_from (Some a) (d :: ds)) with (unify_from (unify_dim a d) ds).
    setoid_rewrite elem_of_cons. unfold unify_dim.
    destruct (Nat.eqb_spec d 1) as [->|Hd1]; [rewrite IH; naive_solver|].
    destruct (Nat.eqb_spec a 1) as [->|Ha1]; [rewrite IH; naive_solver|].
    destruct (Nat.eqb_spec a d) as [->|Had]; [rewrite IH; naive_solver|].
    rewrite unify_from_None. naive_solver.
Qed.

Lemma unify_all_iff ds x :
  unify_all ds = Some x ↔
  (∀ d, d ∈ ds → d = 1 ∨ d = x) ∧ (x = 1 ∨ x ∈ ds).
Proof.
  change (unify_all ds) with (unify_from (Some 1) ds).
  rewrite unify_from_iff. naive_solver.
Qed.

(** Extents of 1 and the order of the operands do not matter. *)
Lemma unify_all_same_dims ds1 ds2 :
  (∀ d, d ≠ 1 → (d ∈ ds1 ↔ d ∈ ds2)) → unify_all ds1 = unify_all ds2.
Proof.
  intros H. apply option_eq. intros x. rewrite !unify_all_iff.
  split; intros [H1 H2]; split.
  - intros d Hd. destruct (decide (d = 1)); [auto|]. apply H1. by apply H.
  - destruct (decide (x = 1)); [auto|]. destruct H2; [done|]. right. by apply H.
  - intros d Hd. destruct (decide (d = 1)); [auto|]. apply H1. by apply H.
  - destruct (decide (x = 1)); [auto|]. destruct H2; [done|]. right. by apply H.
Qed.

Lemma max_rank_le shapes n :
  max_rank shapes ≤ n ↔ ∀ s : Shape, s ∈ shapes → length s ≤ n.
Proof.
  unfold max_rank. induction shapes as [|t shapes IH]; cbn.
  - split; [by intros _ s ?%elem_of_nil | lia].
  - setoid_rewrite elem_of_cons. rewrite Nat.max_lub_iff, IH. naive_solver.
Qed.

(** The broadcast shape only depends on which shapes occur, the empty
    shape aside. *)
Lemma np_broadcast_shapes_same_shapes l1 l2 :
  (∀ s : Shape, s ≠ [] → (s ∈ l1 ↔ s ∈ l2)) →
  np_broadcast_shapes l1 = np_broadcast_shapes l2.
Proof.
  intros H.
  assert (max_rank l1 = max_rank l2) as Hrank.
  { apply Nat.le_antisymm; apply max_rank_le; intros s Hs;
      (destruct (decide (s = [])) as [->|Hne]; [cbn; lia|]);
      apply max_rank_ge; by apply H. }
  assert (∀ j, unify_all (dims_at l1 j) = unify_all (dims_at l2 j)) as Hdims.
  { intros j. apply unify_all_same_dims. intros d Hd. unfold dims_at.
    rewrite !list_elem_of_fmap.
    split; intros (s & -> & Hs); exists s; (split; [done|]); apply H; try done;
      intros ->; apply Hd; by destruct j. }
  apply option_eq. intros r. split.
  - intros [Hlen Hr]%np_broadcast_shapes_Some_1.
    apply np_broadcast_shapes_Some_2; [congruence|].
    intros j. by rewrite <-Hdims.
  - intros [Hlen Hr]%np_broadcast_shapes_Some_1.
    apply np_broadcast_shapes_Some_2; [congruence|].
    intros j. by rewrite Hdims.
Qed.

(** ** Slices of the stacked array, on both paths *)

Lemma lookup_concat_rect {A} (ls : list (list A)) C i j l x :
  Forall (λ l, length l = C) ls → ls !! i = Some l → l !! j = Some x →
  concat ls !! (i * C + j) = Some x.
Proof.
  intros HC. revert i. induction HC as [|l0 ls Hl0 _ IH]; intros i Hi Hj.
  - done.
  - destruct i as [|i]; cbn in Hi |- *.
    + simplify_eq. rewrite lookup_app_l by (by eapply lookup_lt_Some). done.
    + rewrite lookup_app_r by lia.
      replace (C + i * C + j - length l0) with (i * C + j) by lia. by apply IH.
Qed.

Lemma foldl_snoc_fmap {A B} (f : A → B) (l : list A) (init : list B) :
  foldl (λ acc x, acc ++ [f x]) init l = init ++ (f <$> l).
Proof.
  revert init. induction l as [|x l IH]; intros init; cbn.
  - by rewrite app_nil_r.
  - rewrite IH. by rewrite <-app_assoc.
Qed.

Section stackers_slices.
Context {V : Type}.
Variable cast : DType → V → V.
Variable reject : DType → V → option exn.
Variable zero : V.
Variable uninit : nat → V.
Implicit Types (arr : list (list (ndarray V))) (row vals items : list (ndarray V)).
Implicit Types (Marr kdm : ndarray V) (B : Shape) (d : list V).

(** Broadcasting into the empty shape reads the one value. *)
Lemma broadcast_to_nil kdm : broadcast_to zero kdm [] = [item zero kdm].
Proof.
  unfold broadcast_to, item. cbn.
  assert (∀ sr, src_offset sr [] 0 1 = 0) as Hoff
    by (intros sr; destruct sr; reflexivity).
  by rewrite Hoff.
Qed.

Lemma length_uninit (s : Shape) : length (uninit <$> seq 0 (size_of s)) = size_of s.
Proof. by rewrite length_fmap, length_seq. Qed.

Lemma override_error_None dt B vals :
  override_error reject dt B vals = None ↔
  ∀ t, dt = Some t → 0 < length B → fill_error reject t vals = None.
Proof.
  unfold override_error. destruct dt as [t|], B as [|n B]; cbn.
  - split; [intros _ t' _ Hlt; lia | done].
  - split; [by intros Hf t' [= <-] _ | intros Hf; apply Hf; [done | lia]].
  - by split.
  - by split.
Qed.

Lemma override_error_Some dt B vals e :
  override_error reject dt B vals = Some e ↔
  ∃ t, dt = Some t ∧ 0 < length B ∧ fill_error reject t vals = Some e.
Proof.
  unfold override_error. destruct dt as [t|], B as [|n B]; cbn.
  - split; [done | intros (t' & _ & Hlt & _); lia].
  - split; [intros Hf; exists t; split_and!; [done | lia | done]|].
    by intros (t' & [= <-] & _ & Hf).
  - split; [done | by intros (t' & ? & _)].
  - split; [done | by intros (t' & ? & _)].
Qed.

(** An element refused for the override: the stacker raises what numpy
    raises. *)
Lemma matrix_stack_refused arr dt R C B e :
  length arr = R → Forall (λ row, length row = C) arr →
  np_broadcast_shapes (shape <$> concat arr) = Some B →
  override_error reject dt B (concat arr) = Some e →
  outcome (matrix_stack cast reject zero uninit arr dt) = Raise e.
Proof.
  intros HR HC HB (t & -> & Hrank & Hfill)%override_error_Some.
  rewrite (matrix_stack_general_outcome cast reject zero uninit
             arr (Some t) R C B t) by done.
  by rewrite Hfill.
Qed.

Lemma vector_stack_refused items dt B e :
  np_broadcast_shapes (shape <$> items) = Some B →
  override_error reject dt B items = Some e →
  outcome (vector_stack cast reject zero uninit items dt) = Raise e.
Proof.
  intros HB (t & -> & Hrank & Hfill)%override_error_Some.
  rewrite (vector_stack_general_outcome cast reject zero uninit
             items (Some t) (length items) B t) by done.
  by rewrite Hfill.
Qed.

(** [matrix_stack] on a rectangular input with compatible shapes,
    whichever path it takes, when no element is refused by an override. *)
Lemma matrix_stack_slices arr dt R C B :
  length arr = R → Forall (λ row, length row = C) arr →
  concat arr ≠ [] →
  np_broadcast_shapes (shape <$> concat arr) = Some B →
  (∀ t, dt = Some t → 0 < length B →
        fill_error reject t (concat arr) = None) →
  ∃ Marr, outcome (matrix_stack cast reject zero uninit arr dt) = Ok Marr ∧
    shape Marr = B ++ [R; C] ∧
    (0 < length B → Some (dtype Marr) = result_dtype dt (concat arr)) ∧
    (length B = 0 → Some (dtype Marr) = promote_all (concat arr)) ∧
    ∀ r c row kdm, arr !! r = Some row → row !! c = Some kdm →
      slice_2d zero Marr r c = cast (dtype Marr) <$> broadcast_to zero kdm B.
Proof.
  intros HR HC Hne HB Hov.
  destruct (promote_all_is_Some _ Hne) as [tn Htn].
  destruct (decide (0 < length B)) as [Hrank|Hrank].
  - assert (is_Some (result_dtype dt (concat arr))) as [t Ht].
    { unfold result_dtype. destruct dt; [by eexists | by rewrite Htn]. }
    assert (fill_error reject t (concat arr) = None) as Hfill.
    { apply (fill_error_result_dtype _ dt); [done|].
      intros t' Hdt. by apply Hov. }
    eexists. split.
    { rewrite (matrix_stack_general_outcome cast reject zero uninit
                 arr dt R C B t) by done.
      by rewrite Hfill. }
    cbn [shape dtype]. split; [done|]. split; [done|]. split; [lia|].
    intros r c row kdm Hrow Hkdm.
    apply (matrix_fill_slice _ _ _ _ _ _ _ _ r row c kdm);
      [done | done | apply length_uninit | done | done].
  - destruct B as [|? ?]; [|cbn in Hrank; lia].
    assert (Forall (Forall (λ kdm, shape kdm = [])) arr) as Hsc.
    { apply list.Forall_forall. intros row Hrow.
      apply list.Forall_forall. intros kdm Hkdm.
      apply np_broadcast_shapes_Some_1 in HB as [Hlen _].
      assert (length (shape kdm) ≤ max_rank (shape <$> concat arr)) as Hle.
      { apply max_rank_ge, list_elem_of_fmap. exists kdm. split; [done|].
        rewrite concat_mjoin. apply list_elem_of_join. by exists row. }
      rewrite <-Hlen in Hle. cbn in Hle. destruct (shape kdm); [done | cbn in Hle; lia]. }
    eexists. split;
      [by apply (matrix_stack_scalar_outcome cast reject zero uninit
                   arr dt R C tn)|].
    cbn [shape dtype]. split; [done|]. split; [cbn; lia|]. split; [done|].
    intros r c row kdm Hrow Hkdm. rewrite broadcast_to_nil.
    unfold slice_2d. cbn [shape data length Nat.sub take nth size_of foldr].
    cbn [seq fmap list_fmap Nat.mul Nat.add].
    rewrite list_lookup_fmap.
    by rewrite (lookup_concat_rect arr C r c row kdm).
Qed.

Lemma vector_stack_slices items dt N B :
  length items = N → items ≠ [] →
  np_broadcast_shapes (shape <$> items) = Some B →
  (∀ t, dt = Some t → 0 < length B → fill_error reject t items = None) →
  ∃ Marr, outcome (vector_stack cast reject zero uninit items dt) = Ok Marr ∧
    shape Marr = B ++ [N] ∧
    (0 < length B → Some (dtype Marr) = result_dtype dt items) ∧
    (length B = 0 → Some (dtype Marr) = promote_all items) ∧
    ∀ i rVal, items !! i = Some rVal →
      slice_1d zero Marr i = cast (dtype Marr) <$> broadcast_to zero rVal B.
Proof.
  intros HN Hne HB Hov.
  destruct (promote_all_is_Some _ Hne) as [tn Htn].
  destruct (decide (0 < length B)) as [Hrank|Hrank].
  - assert (is_Some (result_dtype dt items)) as [t Ht].
    { unfold result_dtype. destruct dt; [by eexists | by rewrite Htn]. }
    assert (fill_error reject t items = None) as Hfill.
    { apply (fill_error_result_dtype _ dt); [done|].
      intros t' Hdt. by apply Hov. }
    eexists. split.
    { rewrite (vector_stack_general_outcome cast reject zero uninit
                 items dt N B t) by done.
      by rewrite Hfill. }
    cbn [shape dtype]. split; [done|]. split; [done|]. split; [lia|].
    intros i rVal Hi.
    apply (vector_fill_slice _ _ _ _ _ _ _ i rVal);
      [done | apply length_uninit | done].
  - destruct B as [|? ?]; [|cbn in Hrank; lia].
    assert (Forall (λ rVal, shape rVal = []) items) as Hsc.
    { apply list.Forall_forall. intros rVal Hin.
      apply np_broadcast_shapes_Some_1 in HB as [Hlen _].
      assert (length (shape rVal) ≤ max_rank (shape <$> items)) as Hle.
      { apply max_rank_ge, list_elem_of_fmap. by exists rVal. }
      rewrite <-Hlen in Hle. cbn in Hle. destruct (shape rVal); [done | cbn in Hle; lia]. }
    eexists. split;
      [by apply (vector_stack_scalar_outcome cast reject zero uninit
                   items dt N tn)|].
    cbn [shape dtype]. split; [done|]. split; [cbn; lia|]. split; [done|].
    intros i rVal Hi. rewrite broadcast_to_nil.
    unfold slice_1d. cbn [shape data length Nat.sub take nth size_of foldr].
    cbn [seq fmap list_fmap Nat.mul Nat.add].
    rewrite list_lookup_fmap. by rewrite Hi.
Qed.
End stackers_slices.

(** ** The rows of [matrix_stack_id] *)

Section id_rows.
Context {V : Type}.
Variable cast : DType → V → V.
Variable reject : DType → V → option exn.
Variable zero : V.
Variable uninit : nat → V.
Implicit Types (arr : list (ndarray V)) (a x : ndarray V).

Lemma matrix_stack_id_rows arr dt :
  matrix_stack_id cast reject zero uninit arr dt =
  matrix_stack cast reject zero uninit (id_rows zero arr) dt.
Proof.
  unfold matrix_stack_id, id_rows. f_equal.
  rewrite (foldl_snoc_fmap
    (λ ia, <[ia.1:=ia.2]> (replicate (length arr) (literal_0 zero)))).
  cbn [app]. by rewrite fmap_imap.
Qed.

Lemma length_id_rows arr : length (id_rows zero arr) = length arr.
Proof. apply length_imap. Qed.

Lemma id_rows_lookup arr i a :
  arr !! i = Some a →
  id_rows zero arr !! i
  = Some (<[i := a]> (replicate (length arr) (literal_0 zero))).
Proof. intros Hi. unfold id_rows. by rewrite list_lookup_imap, Hi. Qed.

Lemma id_rows_rect arr :
  Forall (λ row, length row = length arr) (id_rows zero arr).
Proof.
  apply Forall_lookup. intros i row. unfold id_rows.
  rewrite list_lookup_imap. destruct (arr !! i) as [a|]; [|done].
  cbn. intros Heq; simplify_eq. by rewrite length_insert, length_replicate.
Qed.

(** Row [i] holds element [i] at column [i] and the literal 0 elsewhere. *)
Lemma id_rows_entry arr i j a :
  arr !! i = Some a → j < length arr →
  ∃ row, id_rows zero arr !! i = Some row ∧
    row !! j = Some (if decide (i = j) then a else literal_0 zero).
Proof.
  intros Hi Hj. eexists. split; [by apply id_rows_lookup|].
  rewrite list_lookup_insert, length_replicate.
  apply lookup_lt_Some in Hi as Hlt.
  destruct (decide (i = j)) as [->|Hne].
  - by rewrite decide_True.
  - rewrite decide_False by (by intros [? _]). by apply lookup_replicate_2.
Qed.

Lemma elem_of_id_rows arr x :
  x ∈ concat (id_rows zero arr) → x ∈ arr ∨ x = literal_0 zero.
Proof.
  rewrite concat_mjoin. intros (row & Hx & Hrow)%list_elem_of_join.
  apply list_elem_of_lookup in Hrow as [i Hrow]. unfold id_rows in Hrow.
  rewrite list_lookup_imap in Hrow.
  destruct (arr !! i) as [a|] eqn:Hi; [|done]. cbn in Hrow. simplify_eq.
  apply list_elem_of_lookup in Hx as [j Hx].
  rewrite list_lookup_insert in Hx. case_decide as Hd.
  - simplify_eq. left. by eapply list_elem_of_lookup_2.
  - apply lookup_replicate in Hx as [-> _]. by right.
Qed.

Lemma elem_of_id_rows_diag arr a : a ∈ arr → a ∈ concat (id_rows zero arr).
Proof.
  intros [i Hi]%list_elem_of_lookup.
  destruct (id_rows_entry arr i i a Hi) as (row & Hrow & Ha);
    [by eapply lookup_lt_Some|].
  rewrite decide_True in Ha by done.
  rewrite concat_mjoin. apply list_elem_of_join. exists row.
  split; by eapply list_elem_of_lookup_2.
Qed.

Lemma elem_of_id_rows_zero arr :
  2 ≤ length arr → literal_0 zero ∈ concat (id_rows zero arr).
Proof.
  intros HN. destruct arr as [|a arr]; [cbn in HN; lia|].
  destruct (id_rows_entry (a :: arr) 0 1 a) as (row & Hrow & Hz);
    [done | cbn in *; lia |].
  rewrite decide_False in Hz by done.
  rewrite concat_mjoin. apply list_elem_of_join. exists row.
  split; by eapply list_elem_of_lookup_2.
Qed.

(** The literal zeros do not change the broadcast shape. *)
Lemma id_rows_shapes arr :
  np_broadcast_shapes (shape <$> concat (id_rows zero arr))
  = np_broadcast_shapes (shape <$> arr).
Proof.
  apply np_broadcast_shapes_same_shapes. intros s Hs.
  rewrite !list_elem_of_fmap. split.
  - intros (x & -> & [Hx | ->]%elem_of_id_rows); [by exists x | done].
  - intros (a & -> & Ha). exists a. split; [done|].
    by apply elem_of_id_rows_diag.
Qed.

(** With two rows or more, the zeros take part in the promotion. *)
Lemma id_rows_dtypes arr :
  2 ≤ length arr →
  promote_all (concat (id_rows zero arr))
  = common_dtype (default_int :: (dtype <$> arr)).
Proof.
  intros HN. unfold promote_all. apply common_dtype_same_set. intros t.
  rewrite elem_of_cons, !list_elem_of_fmap. split.
  - intros (x & -> & [Hx | ->]%elem_of_id_rows); [right; by exists x | by left].
  - intros [-> | (a & -> & Ha)].
    + exists (literal_0 zero). split; [done | by apply elem_of_id_rows_zero].
    + exists a. split; [done | by apply elem_of_id_rows_diag].
Qed.

Lemma broadcast_to_literal_0 (B : Shape) :
  broadcast_to zero (literal_0 zero) B = replicate (size_of B) zero.
Proof.
  unfold broadcast_to.
  rewrite (const_fmap _ (seq 0 (size_of B)) zero); [by rewrite length_seq|].
  intros i k _. reflexivity.
Qed.
End id_rows.

(** * The properties of the specification *)

(** The example of the docstring of [matrix_stack]: the result has shape
    [(10, 2, 2)]. *)
Example matrix_stack_docstring :
  ∃ Marr, outcome (matrix_stack Sample.cast Sample.reject 0%Z Sample.uninit
                     [[Sample.linspace_1_10; Sample.py_int 0%Z];
                      [Sample.py_int 2%Z; Sample.linspace_1_10]] None)
          = Ok Marr ∧
    shape Marr = [10; 2; 2] ∧ dtype Marr = Float64 ∧
    slice_2d 0%Z Marr 0 0 = [1; 2; 3; 4; 5; 6; 7; 8; 9; 10]%Z ∧
    slice_2d 0%Z Marr 1 0 = replicate 10 2%Z.
Proof. eexists. split; [vm_compute; reflexivity|]. by vm_compute. Qed.

(** C1.  For a rectangular input of [R] rows of [C] elements whose shapes
    have the common broadcast shape [B] of rank at least 1, [matrix_stack]
    returns an array of shape [B ++ [R; C]].  Its dtype is the promoted type
    of the elements, or the override when one is given; its slice
    [[..., r, c]] is element [(r, c)] broadcast into [B], its values stored
    in that dtype.  The one exception: when an override is given that numpy
    refuses for a Python number among the elements (it never refuses an
    array), [matrix_stack] raises what numpy raises. *)
Theorem matrix_stack_spec {V} (cast : DType → V → V)
    (reject : DType → V → option exn) (zero : V)
    (uninit : nat → V) (arr : list (list (ndarray V))) (dt : option DType)
    (R C : nat) (B : Shape) :
  length arr = R → Forall (λ row, length row = C) arr →
  np_broadcast_shapes (shape <$> concat arr) = Some B → 0 < length B →
  match override_error reject dt B (concat arr) with
  | Some e => outcome (matrix_stack cast reject zero uninit arr dt) = Raise e
  | None =>
      ∃ Marr, outcome (matrix_stack cast reject zero uninit arr dt) = Ok Marr ∧
        shape Marr = B ++ [R; C] ∧
        (dt = None → promote_all (concat arr) = Some (dtype Marr)) ∧
        (∀ t, dt = Some t → dtype Marr = t) ∧
        ∀ r c row kdm, arr !! r = Some row → row !! c = Some kdm →
          slice_2d zero Marr r c
          = cast (dtype Marr) <$> broadcast_to zero kdm B
  end.
Proof.
  intros HR HC HB Hrank.
  destruct (override_error reject dt B (concat arr)) as [e|] eqn:Hov;
    [by apply (matrix_stack_refused cast reject zero uninit arr dt R C B)|].
  assert (concat arr ≠ []) as Hne.
  { intros Heq. rewrite Heq in HB. cbn in HB. simplify_eq. cbn in Hrank. lia. }
  destruct (matrix_stack_slices cast reject zero uninit arr dt R C B
              HR HC Hne HB) as (Marr & Hout & Hshape & Hdt & _ & Hslices).
  { by apply override_error_None. }
  specialize (Hdt Hrank).
  exists Marr. split_and!; [done | done | | | done].
  - intros ->. by rewrite Hdt.
  - intros t ->. cbn in Hdt. by simplify_eq.
Qed.

Lemma matrix_stack_spec_witness :
  ∃ Marr, outcome (matrix_stack Sample.cast Sample.reject 0%Z Sample.uninit
                     Sample.mixed (Some Int16)) = Ok Marr ∧
    shape Marr = [2; 2] ++ [2; 2] ∧
    (Some Int16 = None → promote_all (concat Sample.mixed) = Some (dtype Marr)) ∧
    (∀ t, Some Int16 = Some t → dtype Marr = t) ∧
    ∀ r c row kdm, Sample.mixed !! r = Some row → row !! c = Some kdm →
      slice_2d 0%Z Marr r c
      = Sample.cast (dtype Marr) <$> broadcast_to 0%Z kdm [2; 2].
Proof.
  refine (matrix_stack_spec Sample.cast Sample.reject 0%Z Sample.uninit
            Sample.mixed (Some Int16) 2 2 [2; 2] _ _ _ _).
  - reflexivity.
  - repeat constructor.
  - vm_compute. reflexivity.
  - simpl. lia.
Defined.

(** Without an override the same input gives the promoted dtype. *)
Example matrix_stack_mixed_default :
  ∃ Marr, outcome (matrix_stack Sample.cast Sample.reject 0%Z Sample.uninit
                     Sample.mixed None) = Ok Marr ∧
    shape Marr = [2; 2; 2; 2] ∧ dtype Marr = Float64 ∧
    slice_2d 0%Z Marr 0 0 = [10; 20; 10; 20]%Z ∧
    slice_2d 0%Z Marr 0 1 = [1; 1; 1; 1]%Z ∧
    slice_2d 0%Z Marr 1 1 = [30; 30; 40; 40]%Z.
Proof. eexists. split; [vm_compute; reflexivity|]. by vm_compute. Qed.

(** An override that cannot hold a Python integer among the elements: the
    assignment of 300 into an [int8] array raises, where the same value
    held by an array would be cast. *)
Example vector_stack_override_refused :
  outcome (vector_stack Sample.cast Sample.reject 0%Z Sample.uninit
             Sample.v3_and_300 (Some Int8)) = Raise OverflowError ∧
  ∃ Marr, outcome (vector_stack Sample.cast Sample.reject 0%Z Sample.uninit
                     [Sample.v3; Sample.scalar Int64 300%Z] (Some Int8))
          = Ok Marr ∧
    slice_1d 0%Z Marr 1 = [44; 44; 44]%Z.
Proof.
  split; [vm_compute; reflexivity|].
  eexists. split; [vm_compute; reflexivity|]. by vm_compute.
Qed.

(** C2.  For a non-empty sequence of [N] elements whose shapes have the
    common broadcast shape [B] of rank at least 1, [vector_stack] returns an
    array of shape [B ++ [N]]; without an override its dtype is the promoted
    type of the elements, with one it is the override; its slice
    [[..., i]] is element [i] broadcast into [B].  The one exception: when
    an override is given that numpy refuses for a Python number among the
    elements (it never refuses an array), [vector_stack] raises what numpy
    raises. *)
Theorem vector_stack_spec {V} (cast : DType → V → V)
    (reject : DType → V → option exn) (zero : V)
    (uninit : nat → V) (items : list (ndarray V)) (dt : option DType)
    (N : nat) (B : Shape) :
  items ≠ [] → length items = N →
  np_broadcast_shapes (shape <$> items) = Some B → 0 < length B →
  match override_error reject dt B items with
  | Some e => outcome (vector_stack cast reject zero uninit items dt) = Raise e
  | None =>
      ∃ Marr, outcome (vector_stack cast reject zero uninit items dt) = Ok Marr ∧
        shape Marr = B ++ [N] ∧
        (dt = None → promote_all items = Some (dtype Marr)) ∧
        (∀ t, dt = Some t → dtype Marr = t) ∧
        ∀ i rVal, items !! i = Some rVal →
          slice_1d zero Marr i
          = cast (dtype Marr) <$> broadcast_to zero rVal B
  end.
Proof.
  intros Hne HN HB Hrank.
  destruct (override_error reject dt B items) as [e|] eqn:Hov;
    [by apply (vector_stack_refused cast reject zero uninit items dt B)|].
  destruct (vector_stack_slices cast reject zero uninit items dt N B HN Hne HB)
    as (Marr & Hout & Hshape & Hdt & _ & Hslices).
  { by apply override_error_None. }
  specialize (Hdt Hrank).
  exists Marr. split_and!; [done | done | | | done].
  - intros ->. by rewrite Hdt.
  - intros t ->. cbn in Hdt. by simplify_eq.
Qed.

Lemma vector_stack_spec_witness :
  ∃ Marr, outcome (vector_stack Sample.cast Sample.reject 0%Z Sample.uninit
                     [Sample.b32; Sample.v3] None) = Ok Marr ∧
    shape Marr = [2; 3] ++ [2] ∧
    (@None DType = None → promote_all [Sample.b32; Sample.v3] = Some (dtype Marr)) ∧
    (∀ t, None = Some t → dtype Marr = t) ∧
    ∀ i rVal, [Sample.b32; Sample.v3] !! i = Some rVal →
      slice_1d 0%Z Marr i
      = Sample.cast (dtype Marr) <$> broadcast_to 0%Z rVal [2; 3].
Proof.
  refine (vector_stack_spec Sample.cast Sample.reject 0%Z Sample.uninit
            [Sample.b32; Sample.v3] None 2 [2; 3] _ _ _ _).
  - discriminate.
  - reflexivity.
  - vm_compute. reflexivity.
  - simpl. lia.
Defined.

(** The windows of the loop on seventy operands: 32, then the running
    result with 31 more, then the running result with the last 7. *)
Example broadcast_shapes_windows :
  trace (broadcast_shapes Sample.seventy)
  = [EvBroadcastShapes 32; EvBroadcastShapes 32; EvBroadcastShapes 8].
Proof. vm_compute. reflexivity. Qed.

(** After a window of scalars the running result is [()] and the next
    window is full again. *)
Example broadcast_shapes_windows_after_scalars :
  broadcast_shapes (replicate 32 (Sample.scalar Int64 0%Z)
                    ++ replicate 38 Sample.a32)
  = ([EvBroadcastShapes 32; EvBroadcastShapes 32; EvBroadcastShapes 7],
     Ok (Some [2])).
Proof. vm_compute. reflexivity. Qed.

(** C3.  On a non-empty sequence of shapes that has a common broadcast
    shape, the chunked loop of [broadcast_shapes] returns the shape that one
    call of the primitive on all the shapes returns, which is also the left
    fold of the two-shape rule. *)
Theorem broadcast_shapes_chunking_transparent {V} (mlist : list (ndarray V))
    (B : Shape) :
  mlist ≠ [] → np_broadcast_shapes (shape <$> mlist) = Some B →
  outcome (broadcast_shapes mlist) = Ok (Some B) ∧
  fold_broadcast (shape <$> mlist) = Some B.
Proof.
  intros Hne HB. split.
  - by rewrite broadcast_shapes_outcome, HB.
  - by rewrite <-np_broadcast_shapes_fold_broadcast.
Qed.

Lemma broadcast_shapes_chunking_transparent_witness :
  outcome (broadcast_shapes Sample.seventy) = Ok (Some [3; 5]) ∧
  fold_broadcast (shape <$> Sample.seventy) = Some [3; 5].
Proof.
  apply (broadcast_shapes_chunking_transparent Sample.seventy [3; 5]).
  - discriminate.
  - vm_compute. reflexivity.
Defined.

(** C4.  When every element is 0-d, [matrix_stack] returns the plain
    [R] by [C] array of the values and [vector_stack] the plain array of
    length [N], with no leading axis. *)
Theorem scalar_input_plain_array {V} (cast : DType → V → V)
    (reject : DType → V → option exn) (zero : V)
    (uninit : nat → V) (arr : list (list (ndarray V)))
    (items : list (ndarray V)) (dt dt' : option DType) (R C N : nat) :
  length arr = R → Forall (λ row, length row = C) arr → 0 < R → 0 < C →
  Forall (Forall (λ kdm, shape kdm = [])) arr →
  length items = N → 0 < N → Forall (λ rVal, shape rVal = []) items →
  (∃ t, promote_all (concat arr) = Some t ∧
     outcome (matrix_stack cast reject zero uninit arr dt) =
     Ok (mk_ndarray [R; C] t ((λ a, cast t (item zero a)) <$> concat arr)
           false)) ∧
  (∃ t, promote_all items = Some t ∧
     outcome (vector_stack cast reject zero uninit items dt') =
     Ok (mk_ndarray [N] t ((λ a, cast t (item zero a)) <$> items) false)).
Proof.
  intros HR HC HR0 HC0 Hsc HN HN0 Hsc'. split.
  - assert (concat arr ≠ []) as Hne.
    { destruct arr as [|row0 arr0]; [cbn in HR; lia|].
      apply Forall_cons_1 in HC as [Hrow0 _].
      destruct row0; [cbn in Hrow0; lia | done]. }
    destruct (promote_all_is_Some _ Hne) as [t Ht]. exists t.
    split; [done|]. by apply matrix_stack_scalar_outcome.
  - assert (items ≠ []) as Hne by (destruct items; [cbn in HN; lia | done]).
    destruct (promote_all_is_Some _ Hne) as [t Ht]. exists t.
    split; [done|]. by apply vector_stack_scalar_outcome.
Qed.

Lemma scalar_input_plain_array_witness :
  (∃ t, promote_all (concat Sample.ints) = Some t ∧
     outcome (matrix_stack Sample.cast Sample.reject 0%Z Sample.uninit Sample.ints None) =
     Ok (mk_ndarray [2; 2] t
           ((λ a, Sample.cast t (item 0%Z a)) <$> concat Sample.ints)
           false)) ∧
  (∃ t, promote_all [Sample.scalar Int8 5%Z; Sample.scalar Float32 6%Z] = Some t ∧
     outcome (vector_stack Sample.cast Sample.reject 0%Z Sample.uninit
                [Sample.scalar Int8 5%Z; Sample.scalar Float32 6%Z] None) =
     Ok (mk_ndarray [2] t
           ((λ a, Sample.cast t (item 0%Z a))
              <$> [Sample.scalar Int8 5%Z; Sample.scalar Float32 6%Z])
           false)).
Proof.
  apply (scalar_input_plain_array Sample.cast Sample.reject 0%Z Sample.uninit Sample.ints
           [Sample.scalar Int8 5%Z; Sample.scalar Float32 6%Z] None None 2 2 2).
  - reflexivity.
  - repeat constructor.
  - lia.
  - lia.
  - repeat constructor.
  - reflexivity.
  - lia.
  - repeat constructor.
Defined.

(** On the general path the override, when numpy accepts it for the
    elements, is the dtype of the result. *)
Lemma matrix_stack_override_general {V} (cast : DType → V → V)
    (reject : DType → V → option exn) (zero : V)
    (uninit : nat → V) (arr : list (list (ndarray V))) (t : DType)
    (R C : nat) (B : Shape) :
  length arr = R → Forall (λ row, length row = C) arr →
  np_broadcast_shapes (shape <$> concat arr) = Some B → 0 < length B →
  fill_error reject t (concat arr) = None →
  ∃ Marr, outcome (matrix_stack cast reject zero uninit arr (Some t)) = Ok Marr ∧
    dtype Marr = t.
Proof.
  intros HR HC HB Hrank Hfill.
  assert (concat arr ≠ []) as Hne.
  { intros Heq. rewrite Heq in HB. cbn in HB. simplify_eq. cbn in Hrank. lia. }
  destruct (matrix_stack_slices cast reject zero uninit arr (Some t) R C B
              HR HC Hne HB) as (Marr & Hout & _ & Hdt & _).
  { intros t' Ht' _. by simplify_eq. }
  exists Marr. split; [done|]. specialize (Hdt Hrank). cbn in Hdt. congruence.
Qed.

(** C5.  The code at an all-scalar input with an override: the [2] by [2]
    list of [int64] scalars, be they Python integers ([p = true]) or 0-d
    arrays, stacked with [dtype=float64] comes back as an [int64] array, and
    so does the vector of two of them; the shortcut [np.array(arr)] does not
    pass the override on. *)
Theorem dtype_override_dropped_on_scalars {V} (cast : DType → V → V)
    (reject : DType → V → option exn) (zero : V) (uninit : nat → V)
    (a b c d : V) (p : bool) :
  let sc := λ v, mk_ndarray [] Int64 [v] p in
  outcome (matrix_stack cast reject zero uninit [[sc a; sc b]; [sc c; sc d]]
             (Some Float64))
  = Ok (mk_ndarray [2; 2] Int64
          [cast Int64 a; cast Int64 b; cast Int64 c; cast Int64 d] false) ∧
  outcome (vector_stack cast reject zero uninit [sc a; sc b] (Some Float64))
  = Ok (mk_ndarray [2] Int64 [cast Int64 a; cast Int64 b] false).
Proof. split; reflexivity. Qed.

(** C6.  When two elements disagree on an extent at the same position from
    the right, neither extent being 1, [broadcast_shapes] raises the shape
    mismatch, and so do [vector_stack] and, on rows of equal length,
    [matrix_stack], without having allocated a result. *)
Theorem shape_mismatch_raises {V} (cast : DType → V → V)
    (reject : DType → V → option exn) (zero : V)
    (uninit : nat → V) (vals : list (ndarray V)) (a b : ndarray V) (j : nat) :
  a ∈ vals → b ∈ vals →
  dim_r (shape a) j ≠ 1 → dim_r (shape b) j ≠ 1 →
  dim_r (shape a) j ≠ dim_r (shape b) j →
  outcome (broadcast_shapes vals) = Raise ShapeMismatch ∧
  (∀ dt, outcome (vector_stack cast reject zero uninit vals dt) = Raise ShapeMismatch ∧
         ∀ s, EvAlloc s ∉ trace (vector_stack cast reject zero uninit vals dt)) ∧
  (∀ arr dt C, concat arr = vals → Forall (λ row, length row = C) arr →
     outcome (matrix_stack cast reject zero uninit arr dt) = Raise ShapeMismatch ∧
     ∀ s, EvAlloc s ∉ trace (matrix_stack cast reject zero uninit arr dt)).
Proof.
  intros Ha Hb Ha1 Hb1 Hab.
  assert (np_broadcast_shapes (shape <$> vals) = None) as HB.
  { apply (np_broadcast_shapes_conflict _ (shape a) (shape b) j);
      [apply list_elem_of_fmap; by exists a
      |apply list_elem_of_fmap; by exists b | done..]. }
  assert (vals ≠ []) as Hne by (intros ->; by apply elem_of_nil in Ha).
  split; [by rewrite broadcast_shapes_outcome, HB|]. split.
  - intros dt. by apply vector_stack_mismatch.
  - intros arr dt C <- HC.
    by apply (matrix_stack_mismatch cast reject zero uninit arr dt C).
Qed.

Lemma shape_mismatch_raises_witness :
  outcome (broadcast_shapes [Sample.v3; Sample.v4]) = Raise ShapeMismatch ∧
  (∀ dt, outcome (vector_stack Sample.cast Sample.reject 0%Z Sample.uninit
                    [Sample.v3; Sample.v4] dt) = Raise ShapeMismatch ∧
         ∀ s, EvAlloc s ∉ trace (vector_stack Sample.cast Sample.reject 0%Z Sample.uninit
                                   [Sample.v3; Sample.v4] dt)) ∧
  (∀ arr dt C, concat arr = [Sample.v3; Sample.v4] →
     Forall (λ row, length row = C) arr →
     outcome (matrix_stack Sample.cast Sample.reject 0%Z Sample.uninit arr dt)
     = Raise ShapeMismatch ∧
     ∀ s, EvAlloc s ∉ trace (matrix_stack Sample.cast Sample.reject 0%Z Sample.uninit arr dt)).
Proof.
  apply (shape_mismatch_raises Sample.cast Sample.reject 0%Z Sample.uninit
           [Sample.v3; Sample.v4] Sample.v3 Sample.v4 0).
  - left.
  - right. left.
  - vm_compute. lia.
  - vm_compute. lia.
  - vm_compute. lia.
Defined.

(** C7.  When two rows differ in length, [matrix_stack] raises the ragged
    input error having called neither [np.result_type] nor
    [np.broadcast_shapes]: its log of calls is empty. *)
Theorem ragged_input_raises {V} (cast : DType → V → V)
    (reject : DType → V → option exn) (zero : V)
    (uninit : nat → V) (arr : list (list (ndarray V))) (dt : option DType)
    (i j : nat) (row_i row_j : list (ndarray V)) :
  arr !! i = Some row_i → arr !! j = Some row_j →
  length row_i ≠ length row_j →
  outcome (matrix_stack cast reject zero uninit arr dt) = Raise RaggedInput ∧
  trace (matrix_stack cast reject zero uninit arr dt) = [].
Proof.
  intros Hi Hj Hne.
  by rewrite (matrix_stack_ragged cast reject zero uninit arr dt i j row_i row_j).
Qed.

Lemma ragged_input_raises_witness :
  outcome (matrix_stack Sample.cast Sample.reject 0%Z Sample.uninit
             [[Sample.v3; Sample.v4]; [Sample.v3; Sample.v3; Sample.v3]] None)
  = Raise RaggedInput ∧
  trace (matrix_stack Sample.cast Sample.reject 0%Z Sample.uninit
           [[Sample.v3; Sample.v4]; [Sample.v3; Sample.v3; Sample.v3]] None)
  = [].
Proof.
  apply (ragged_input_raises Sample.cast Sample.reject 0%Z Sample.uninit
           [[Sample.v3; Sample.v4]; [Sample.v3; Sample.v3; Sample.v3]] None
           0 1 [Sample.v3; Sample.v4] [Sample.v3; Sample.v3; Sample.v3]).
  - reflexivity.
  - reflexivity.
  - simpl. lia.
Defined.

(** C8.  For [N] diagonal elements, at least one, with the common broadcast
    shape [B], [matrix_stack_id] hands [matrix_stack] the [N] rows of [N]
    elements that hold element [i] at column [i] of row [i] and the literal 0
    elsewhere; in the result the slice of [(i, i)] is element [i] broadcast
    into [B] and the slice of [(i, j)], [i ≠ j], is 0 throughout, the
    values being stored in the dtype of the result: the promoted type of
    the elements of the rows, or on the general path the override when one
    is given.  The one exception: when an override is given that numpy
    refuses for the literal 0 or for a Python number among the elements,
    [matrix_stack_id] raises what numpy raises. *)
Theorem matrix_stack_id_spec {V} (cast : DType → V → V)
    (reject : DType → V → option exn) (zero : V)
    (uninit : nat → V) (arr : list (ndarray V)) (dt : option DType)
    (N : nat) (B : Shape) :
  length arr = N → 0 < N →
  np_broadcast_shapes (shape <$> arr) = Some B →
  matrix_stack_id cast reject zero uninit arr dt
  = matrix_stack cast reject zero uninit (id_rows zero arr) dt ∧
  length (id_rows zero arr) = N ∧
  Forall (λ row, length row = N) (id_rows zero arr) ∧
  (∀ i j a, arr !! i = Some a → j < N →
     ∃ row, id_rows zero arr !! i = Some row ∧
       row !! j = Some (if decide (i = j) then a else literal_0 zero)) ∧
  match override_error reject dt B (concat (id_rows zero arr)) with
  | Some e =>
      outcome (matrix_stack_id cast reject zero uninit arr dt) = Raise e
  | None =>
      ∃ Marr,
        outcome (matrix_stack_id cast reject zero uninit arr dt) = Ok Marr ∧
        shape Marr = B ++ [N; N] ∧
        (dt = None ∨ length B = 0 →
         promote_all (concat (id_rows zero arr)) = Some (dtype Marr)) ∧
        (∀ t, dt = Some t → 0 < length B → dtype Marr = t) ∧
        ∀ i j a, arr !! i = Some a → j < N →
          slice_2d zero Marr i j =
          if decide (i = j) then cast (dtype Marr) <$> broadcast_to zero a B
          else replicate (size_of B) (cast (dtype Marr) zero)
  end.
Proof.
  intros HN HN0 HB. subst N.
  split; [apply matrix_stack_id_rows|].
  split; [apply length_id_rows|].
  split; [apply id_rows_rect|].
  split; [intros i j a; apply id_rows_entry|].
  rewrite matrix_stack_id_rows.
  assert (concat (id_rows zero arr) ≠ []) as Hne.
  { destruct arr as [|a arr]; [cbn in HN0; lia|].
    intros Heq. assert (a ∈ concat (id_rows zero (a :: arr))) as Hin
      by (apply elem_of_id_rows_diag; left).
    rewrite Heq in Hin. by apply elem_of_nil in Hin. }
  destruct (override_error reject dt B (concat (id_rows zero arr)))
    as [e|] eqn:Hov.
  { apply (matrix_stack_refused cast reject zero uninit (id_rows zero arr) dt
             (length arr) (length arr) B);
      [apply length_id_rows | apply id_rows_rect
      | by rewrite id_rows_shapes | done]. }
  destruct (matrix_stack_slices cast reject zero uninit (id_rows zero arr) dt
              (length arr) (length arr) B)
    as (Marr & Hout & Hshape & Hdt1 & Hdt0 & Hslices);
    [apply length_id_rows | apply id_rows_rect | done
    | by rewrite id_rows_shapes | by apply override_error_None |].
  exists Marr. split; [done|]. split; [done|]. split_and!.
  { intros [-> | HB0]; [|by rewrite Hdt0].
    destruct (decide (0 < length B)) as [Hrank | Hrank].
    - by rewrite (Hdt1 Hrank).
    - rewrite Hdt0; [done | lia]. }
  { intros t -> Hrank. specialize (Hdt1 Hrank). cbn in Hdt1. by simplify_eq. }
  intros i j a Hi Hj.
  destruct (id_rows_entry zero arr i j a Hi Hj) as (row & Hrow & Hx).
  rewrite (Hslices i j row _ Hrow Hx).
  destruct (decide (i = j)); [done|].
  by rewrite broadcast_to_literal_0, fmap_replicate.
Qed.

Lemma matrix_stack_id_spec_witness :
  ∃ Marr, outcome (matrix_stack_id Sample.cast Sample.reject 0%Z Sample.uninit
                     [Sample.a32; Sample.b32] None) = Ok Marr ∧
    shape Marr = [2; 2] ++ [2; 2] ∧
    (@None DType = None ∨ length [2; 2] = 0 →
     promote_all (concat (id_rows 0%Z [Sample.a32; Sample.b32]))
     = Some (dtype Marr)) ∧
    (∀ t, None = Some t → 0 < length [2; 2] → dtype Marr = t) ∧
    ∀ i j a, [Sample.a32; Sample.b32] !! i = Some a → j < 2 →
      slice_2d 0%Z Marr i j =
      if decide (i = j) then Sample.cast (dtype Marr) <$> broadcast_to 0%Z a [2; 2]
      else replicate (size_of [2; 2]) (Sample.cast (dtype Marr) 0%Z).
Proof.
  refine (proj2 (proj2 (proj2 (proj2
            (matrix_stack_id_spec Sample.cast Sample.reject 0%Z Sample.uninit
               [Sample.a32; Sample.b32] None 2 [2; 2] _ _ _))))).
  - reflexivity.
  - lia.
  - vm_compute. reflexivity.
Defined.

(** C9.  The code on the empty list: the loop body never runs and the
    initial [None] is returned, where the primitive without operands gives
    the empty shape. *)
Theorem broadcast_shapes_empty_returns_None {V} :
  broadcast_shapes (@nil (ndarray V)) = ([], Ok None) ∧
  np_broadcast_shapes [] = Some [].
Proof. split; reflexivity. Qed.

(** C10, as stated, fails for a single diagonal element: the 1 by 1 input
    holds no literal 0, and a [float32] element gives a [float32] result,
    not the promotion of [float32] with the default integer. *)
Lemma matrix_stack_id_single_has_no_literal :
  ¬ ∃ Marr, outcome (matrix_stack_id Sample.cast Sample.reject 0%Z Sample.uninit
                       [Sample.a32] None) = Ok Marr ∧
      common_dtype (default_int :: (dtype <$> [Sample.a32]))
      = Some (dtype Marr).
Proof.
  intros (Marr & Hout & Hdt). vm_compute in Hout. simplify_eq.
Qed.

(** C10, amended.  For diagonal elements of compatible shapes and without
    an override, the dtype of the result of [matrix_stack_id] is, for two
    elements or more, the promotion of the dtypes of the diagonal elements
    together with the default integer of the literal 0, and for a single
    element, beside which there is no literal 0, the dtype of that
    element; every diagonal dtype casts safely to it; it can be wider than
    the promotion of the diagonal dtypes alone: two or more [float32]
    elements give a [float64] result. *)
Theorem matrix_stack_id_dtype {V} (cast : DType → V → V)
    (reject : DType → V → option exn) (zero : V)
    (uninit : nat → V) (arr : list (ndarray V)) (N : nat) (B : Shape) :
  length arr = N → 1 ≤ N →
  np_broadcast_shapes (shape <$> arr) = Some B →
  ∃ Marr, outcome (matrix_stack_id cast reject zero uninit arr None) = Ok Marr ∧
    (2 ≤ N → common_dtype (default_int :: (dtype <$> arr)) = Some (dtype Marr)) ∧
    (∀ a, arr = [a] → dtype Marr = dtype a) ∧
    (∀ a, a ∈ arr → can_cast (dtype a) (dtype Marr) = true) ∧
    (2 ≤ N → (∀ a, a ∈ arr → dtype a = Float32) →
       promote_all arr = Some Float32 ∧ dtype Marr = Float64).
Proof.
  intros HN HN1 HB. subst N. rewrite matrix_stack_id_rows.
  assert (arr ≠ []) as Harr by (intros ->; cbn in HN1; lia).
  assert (concat (id_rows zero arr) ≠ []) as Hne.
  { destruct arr as [|a arr]; [done|].
    intros Heq. assert (a ∈ concat (id_rows zero (a :: arr))) as Hin
      by (apply elem_of_id_rows_diag; left).
    rewrite Heq in Hin. by apply elem_of_nil in Hin. }
  destruct (matrix_stack_slices cast reject zero uninit (id_rows zero arr) None
              (length arr) (length arr) B)
    as (Marr & Hout & _ & Hdt1 & Hdt0 & _);
    [apply length_id_rows | apply id_rows_rect | done
    | by rewrite id_rows_shapes | by intros t ? |].
  assert (promote_all (concat (id_rows zero arr)) = Some (dtype Marr))
    as Hpromo.
  { destruct (decide (0 < length B)); [by rewrite Hdt1|].
    rewrite Hdt0; [done | lia]. }
  assert (2 ≤ length arr →
          common_dtype (default_int :: (dtype <$> arr)) = Some (dtype Marr))
    as Hdt.
  { intros HN2. by rewrite <-(id_rows_dtypes zero). }
  exists Marr. split; [done|]. split; [done|]. split_and!.
  - intros a ->.
    assert (promote_all (concat (id_rows zero [a])) = common_dtype [dtype a])
      as Hrow by reflexivity.
    assert (common_dtype [dtype a] = Some (dtype a)) as Hsingle
      by (by destruct (dtype a)).
    congruence.
  - intros a Ha. apply (common_dtype_upper _ _ _ Hpromo).
    apply list_elem_of_fmap. exists a. split; [done|].
    by apply elem_of_id_rows_diag.
  - intros HN2 H32. specialize (Hdt HN2).
    assert (∀ x, x ∈ dtype <$> arr ↔ x ∈ [Float32]) as Hset.
    { intros x. rewrite list_elem_of_fmap, list_elem_of_singleton. split.
      - intros (a & -> & Ha). by apply H32.
      - intros ->. destruct arr as [|a arr]; [done|].
        exists a. split; [symmetry; apply H32|]; left. }
    split.
    + unfold promote_all. by rewrite (common_dtype_same_set _ [Float32]).
    + assert (common_dtype (default_int :: (dtype <$> arr))
              = common_dtype [default_int; Float32]) as Heq.
      { apply common_dtype_same_set. intros x.
        rewrite !elem_of_cons, Hset, list_elem_of_singleton, elem_of_nil.
        naive_solver. }
      assert (common_dtype [default_int; Float32] = Some Float64) as Hc
        by reflexivity.
      congruence.
Qed.

Lemma matrix_stack_id_dtype_witness :
  ∃ Marr, outcome (matrix_stack_id Sample.cast Sample.reject 0%Z Sample.uninit
                     [Sample.a32; Sample.b32] None) = Ok Marr ∧
    (2 ≤ 2 →
     common_dtype (default_int :: (dtype <$> [Sample.a32; Sample.b32]))
     = Some (dtype Marr)) ∧
    (∀ a, [Sample.a32; Sample.b32] = [a] → dtype Marr = dtype a) ∧
    (∀ a, a ∈ [Sample.a32; Sample.b32] →
       can_cast (dtype a) (dtype Marr) = true) ∧
    (2 ≤ 2 → (∀ a, a ∈ [Sample.a32; Sample.b32] → dtype a = Float32) →
       promote_all [Sample.a32; Sample.b32] = Some Float32 ∧
       dtype Marr = Float64).
Proof.
  apply (matrix_stack_id_dtype Sample.cast Sample.reject 0%Z Sample.uninit
           [Sample.a32; Sample.b32] 2 [2; 2]).
  - reflexivity.
  - lia.
  - vm_compute. reflexivity.
Defined.

(** * Further properties of the code *)

(** ** [broadcast_shapes] *)

(** X1.  Whatever the list, [broadcast_shapes] calls no primitive but
    [np.broadcast_shapes], and never with more than 32 operands. *)
Theorem broadcast_shapes_arity_ceiling {V} (mlist : list (ndarray V)) :
  Forall (λ ev, ∃ n, ev = EvBroadcastShapes n ∧ n ≤ 32)
    (trace (broadcast_shapes mlist)).
Proof.
  eapply list.Forall_impl; [apply trace_broadcast_shapes|].
  intros [n|n|s] Hev; [done | by exists n | done].
Qed.

Lemma unify_from_None_conflict a ds :
  unify_from (Some a) ds = None →
  ∃ d1 d2, d1 ∈ a :: ds ∧ d2 ∈ a :: ds ∧ d1 ≠ 1 ∧ d2 ≠ 1 ∧ d1 ≠ d2.
Proof.
  revert a. induction ds as [|d ds IH]; intros a; [done|].
  change (unify_from (Some a) (d :: ds)) with (unify_from (unify_dim a d) ds).
  unfold unify_dim.
  destruct (Nat.eqb_spec d 1) as [->|Hd1].
  { intros (d1 & d2 & H1 & H2 & ?)%IH. exists d1, d2.
    rewrite !elem_of_cons in *. naive_solver. }
  destruct (Nat.eqb_spec a 1) as [->|Ha1].
  { intros (d1 & d2 & H1 & H2 & ?)%IH. exists d1, d2.
    rewrite !elem_of_cons in *. naive_solver. }
  destruct (Nat.eqb_spec a d) as [->|Had].
  { intros (d1 & d2 & H1 & H2 & ?)%IH. exists d1, d2.
    rewrite !elem_of_cons in *. naive_solver. }
  intros _. exists a, d. rewrite !elem_of_cons. naive_solver.
Qed.

(** When the primitive fails, two operands conflict at some position. *)
Lemma np_broadcast_shapes_None_conflict shapes :
  np_broadcast_shapes shapes = None →
  ∃ (a b : Shape) j, a ∈ shapes ∧ b ∈ shapes ∧
    dim_r a j ≠ 1 ∧ dim_r b j ≠ 1 ∧ dim_r a j ≠ dim_r b j.
Proof.
  intros [j Hj]%np_broadcast_shapes_None_1.
  apply (unify_from_None_conflict 1) in Hj
    as (d1 & d2 & H1 & H2 & Hd1 & Hd2 & Hne).
  apply elem_of_cons in H1 as [-> | H1]; [done|].
  apply elem_of_cons in H2 as [-> | H2]; [done|].
  apply list_elem_of_fmap in H1 as (a & -> & Ha).
  apply list_elem_of_fmap in H2 as (b & -> & Hb).
  by exists a, b, j.
Qed.

Lemma max_rank_attained shapes :
  shapes ≠ [] → ∃ s : Shape, s ∈ shapes ∧ length s = max_rank shapes.
Proof.
  induction shapes as [|t shapes IH]; [done|]. intros _.
  destruct shapes as [|t' shapes'].
  - exists t. split; [left|]. unfold max_rank. cbn. lia.
  - destruct IH as (s & Hs & Hlen); [done|].
    change (max_rank (t :: t' :: shapes'))
      with (length t `max` max_rank (t' :: shapes')).
    destruct (decide (max_rank (t' :: shapes') ≤ length t)).
    + exists t. split; [left | lia].
    + exists s. split; [by right | lia].
Qed.

Lemma broadcast_shapes_outcome_Some {V} (mlist : list (ndarray V)) B :
  outcome (broadcast_shapes mlist) = Ok (Some B) →
  mlist ≠ [] ∧ np_broadcast_shapes (shape <$> mlist) = Some B.
Proof.
  intros Hout. destruct mlist as [|m mlist]; [done|]. split; [done|].
  rewrite broadcast_shapes_outcome in Hout by done.
  destruct (np_broadcast_shapes _); cbn in Hout; by simplify_eq.
Qed.

(** X2.  The result of [broadcast_shapes] does not depend on the order of
    the list. *)
Theorem broadcast_shapes_permutation {V} (mlist1 mlist2 : list (ndarray V)) :
  mlist1 ≡ₚ mlist2 →
  outcome (broadcast_shapes mlist1) = outcome (broadcast_shapes mlist2).
Proof.
  intros Hp. destruct mlist1 as [|m mlist1].
  - by apply Permutation_nil_l in Hp as ->.
  - assert (mlist2 ≠ []) as Hne2.
    { intros ->. by apply Permutation_nil_r in Hp. }
    rewrite !broadcast_shapes_outcome by done. f_equal.
    apply np_broadcast_shapes_same_shapes. intros s _.
    rewrite !list_elem_of_fmap. split; intros (a & -> & Ha); exists a;
      (split; [done|]).
    + by rewrite <-Hp.
    + by rewrite Hp.
Qed.

Lemma broadcast_shapes_permutation_witness :
  outcome (broadcast_shapes [Sample.a32; Sample.b32; Sample.scalar Int64 1%Z])
  = outcome (broadcast_shapes [Sample.b32; Sample.a32; Sample.scalar Int64 1%Z]).
Proof.
  apply (broadcast_shapes_permutation
           [Sample.a32; Sample.b32; Sample.scalar Int64 1%Z]
           [Sample.b32; Sample.a32; Sample.scalar Int64 1%Z]).
  constructor.
Defined.

(** X3.  [broadcast_shapes] raises the shape mismatch exactly when two of
    the arrays have different extents, neither of them 1, at the same
    position from the right; it raises nothing else. *)
Theorem broadcast_shapes_raises_iff_conflict {V} (mlist : list (ndarray V)) :
  (outcome (broadcast_shapes mlist) = Raise ShapeMismatch ↔
   ∃ a b j, a ∈ mlist ∧ b ∈ mlist ∧ dim_r (shape a) j ≠ 1 ∧
     dim_r (shape b) j ≠ 1 ∧ dim_r (shape a) j ≠ dim_r (shape b) j) ∧
  (∀ e, outcome (broadcast_shapes mlist) = Raise e → e = ShapeMismatch).
Proof.
  destruct mlist as [|m mlist].
  { split; [|done]. split; [done|]. by intros (a & _ & _ & ?%elem_of_nil & _). }
  rewrite broadcast_shapes_outcome by done.
  destruct (np_broadcast_shapes _) as [B|] eqn:HB; cbn.
  - split; [|done]. split; [done|].
    intros (a & b & j & Ha & Hb & Ha1 & Hb1 & Hab).
    rewrite (np_broadcast_shapes_conflict _ (shape a) (shape b) j) in HB;
      [done | apply list_elem_of_fmap; by exists a
      | apply list_elem_of_fmap; by exists b | done..].
  - split; [|by intros e ?; simplify_eq]. split; [|done]. intros _.
    apply np_broadcast_shapes_None_conflict in HB
      as (sa & sb & j & (a & -> & Ha)%list_elem_of_fmap
          & (b & -> & Hb)%list_elem_of_fmap & ?).
    by exists a, b, j.
Qed.

(** X4.  A shape [broadcast_shapes] returns has the rank of an array of
    largest rank, every array broadcasts into it, and each of its extents
    is 1 or the extent of some array at that position. *)
Theorem broadcast_shapes_result {V} (mlist : list (ndarray V)) (B : Shape) :
  outcome (broadcast_shapes mlist) = Ok (Some B) →
  (∀ a, a ∈ mlist → broadcastable (shape a) B = true) ∧
  (∃ a, a ∈ mlist ∧ length (shape a) = length B) ∧
  (∀ j, dim_r B j = 1 ∨ ∃ a, a ∈ mlist ∧ dim_r (shape a) j = dim_r B j).
Proof.
  intros [Hne HB]%broadcast_shapes_outcome_Some. split; [|split].
  - intros a Ha. apply (np_broadcast_shapes_broadcastable _ _ _ HB).
    apply list_elem_of_fmap. by exists a.
  - apply np_broadcast_shapes_Some_1 in HB as [Hlen _].
    destruct (max_rank_attained (shape <$> mlist))
      as (s & (a & -> & Ha)%list_elem_of_fmap & Hs); [by destruct mlist|].
    exists a. split; [done | congruence].
  - intros j. apply np_broadcast_shapes_Some_1 in HB as [_ HB].
    specialize (HB j). apply unify_all_iff in HB as [_ [?|Hin]]; [by left|].
    right. apply list_elem_of_fmap in Hin as (s & Hs & Hin).
    apply list_elem_of_fmap in Hin as (a & -> & Ha). by exists a.
Qed.

Lemma broadcast_shapes_result_witness :
  (∀ a, a ∈ [Sample.a32; Sample.b32] → broadcastable (shape a) [2; 2] = true) ∧
  (∃ a, a ∈ [Sample.a32; Sample.b32] ∧ length (shape a) = length [2; 2]) ∧
  (∀ j, dim_r [2; 2] j = 1 ∨
     ∃ a, a ∈ [Sample.a32; Sample.b32] ∧ dim_r (shape a) j = dim_r [2; 2] j).
Proof.
  apply (broadcast_shapes_result [Sample.a32; Sample.b32] [2; 2]).
  vm_compute. reflexivity.
Defined.

(** X5.  A 0-d array anywhere in a list that has other arrays does not
    change the result of [broadcast_shapes]. *)
Theorem broadcast_shapes_scalar_neutral {V} (l1 l2 : list (ndarray V))
    (s : ndarray V) :
  shape s = [] → l1 ++ l2 ≠ [] →
  outcome (broadcast_shapes (l1 ++ s :: l2))
  = outcome (broadcast_shapes (l1 ++ l2)).
Proof.
  intros Hs Hne.
  rewrite !broadcast_shapes_outcome by (done || by destruct l1).
  f_equal. apply np_broadcast_shapes_same_shapes. intros t Ht.
  rewrite !list_elem_of_fmap. split.
  - intros (a & -> & Ha). exists a. split; [done|].
    rewrite elem_of_app, elem_of_cons in Ha. rewrite elem_of_app.
    destruct Ha as [?|[->|?]]; [by left | done | by right].
  - intros (a & -> & Ha). exists a. split; [done|].
    rewrite elem_of_app in Ha. rewrite elem_of_app, elem_of_cons.
    destruct Ha; [by left | right; by right].
Qed.

Lemma broadcast_shapes_scalar_neutral_witness :
  outcome (broadcast_shapes ([Sample.a32] ++ Sample.scalar Int64 1%Z :: [Sample.b32]))
  = outcome (broadcast_shapes ([Sample.a32] ++ [Sample.b32])).
Proof.
  apply (broadcast_shapes_scalar_neutral [Sample.a32] [Sample.b32]
           (Sample.scalar Int64 1%Z)).
  - reflexivity.
  - discriminate.
Defined.

(** ** [broadcast_deep] and [broadcast_arrays_none] *)

Lemma for_each_cons {A St} (body : St → A → M St) x l s :
  for_each body (x :: l) s = body s x ≫= λ s', for_each body l s'.
Proof. reflexivity. Qed.

Lemma list_comprehension_pure {A B} (f : A → M B) (g : A → B) (l : list A) :
  (∀ x, x ∈ l → f x = mret (g x)) → list_comprehension f l = mret (g <$> l).
Proof.
  induction l as [|x l IH]; intros H; [done|].
  change (list_comprehension f (x :: l))
    with (f x ≫= λ y, list_comprehension f l ≫= λ ys, mret (y :: ys)).
  rewrite (H x) by left. rewrite mret_bind, IH by (intros; apply H; by right).
  by rewrite mret_bind.
Qed.

Lemma src_offset_same Br : ∀ k stride,
  k < foldr Nat.mul 1 Br → src_offset Br Br k stride = k * stride.
Proof.
  induction Br as [|d Br IH]; intros k stride Hk; cbn in *; [lia|].
  assert (d ≠ 0) as Hd by (intros ->; lia).
  rewrite IH by (apply Nat.Div0.div_lt_upper_bound; lia).
  pose proof (Nat.div_mod_eq k d) as Hdm.
  destruct (Nat.eqb_spec d 1) as [->|Hd1].
  - rewrite Nat.div_1_r. lia.
  - nia.
Qed.

Lemma size_of_reverse (B : Shape) : size_of (reverse B) = size_of B.
Proof.
  unfold size_of. induction B as [|d B IH]; [done|].
  rewrite reverse_cons, foldr_app. cbn. rewrite <-IH.
  generalize (reverse B). intros l. induction l as [|x l IHl]; cbn; [lia|].
  rewrite IHl. lia.
Qed.

Section broadcast_deep_correct.
Context {V : Type}.
Variable zero : V.
Implicit Types (mlist arrm : list (ndarray V)) (B : Shape).

(** Broadcasting an array into its own shape shows its own data. *)
Lemma broadcast_to_own_shape (m : ndarray V) :
  length (data m) = size_of (shape m) →
  broadcast_to zero m (shape m) = data m.
Proof.
  intros Hlen. unfold broadcast_to. apply list_eq. intros k.
  rewrite list_lookup_fmap. rewrite <-Hlen.
  destruct (decide (k < length (data m))) as [Hk|Hk].
  - rewrite lookup_seq_lt by done. cbn.
    rewrite src_offset_same
      by (fold (size_of (reverse (shape m))); rewrite size_of_reverse; lia).
    rewrite Nat.mul_1_r.
    by destruct (lookup_lt_is_Some_2 (data m) k Hk) as [v ->].
  - rewrite (lookup_ge_None_2 (seq _ _)) by (rewrite length_seq; lia).
    by rewrite lookup_ge_None_2 by lia.
Qed.

Lemma np_broadcast_shapes_replicate n B :
  0 < n → np_broadcast_shapes (replicate n B) = Some B.
Proof.
  intros Hn. destruct n as [|n]; [lia|].
  transitivity (np_broadcast_shapes [B]).
  - apply np_broadcast_shapes_same_shapes. intros s _.
    rewrite list_elem_of_singleton. split.
    + by intros [-> _]%elem_of_replicate.
    + intros ->. left.
  - rewrite np_broadcast_shapes_cons. reflexivity.
Qed.

Lemma outcome_broadcast_deep mlist :
  outcome (broadcast_deep zero mlist) = outcome (np_broadcast_arrays zero mlist).
Proof.
  unfold broadcast_deep, np_broadcast_arrays. rewrite outcome_bind.
  destruct mlist as [|m0 mlist0]; [reflexivity|].
  set (mlist := m0 :: mlist0).
  rewrite broadcast_shapes_outcome by done.
  destruct (np_broadcast_shapes (shape <$> mlist)) as [B|] eqn:HB;
    [|reflexivity].
  cbn [of_shape].
  rewrite (list_comprehension_pure _ (λ m, broadcast_view zero m B));
    [reflexivity|].
  intros m Hm. unfold np_broadcast_to.
  rewrite (np_broadcast_shapes_broadcastable _ _ _ HB); [done|].
  apply list_elem_of_fmap. by exists m.
Qed.
End broadcast_deep_correct.

(** X6.  [broadcast_deep] does what [np.broadcast_arrays] does, on lists of
    any length: with a common shape every array comes back, in order, as
    its view of that shape; without one the shape mismatch is raised; the
    empty list gives the empty list. *)
Theorem broadcast_deep_as_broadcast_arrays {V} (zero : V)
    (mlist : list (ndarray V)) :
  outcome (broadcast_deep zero mlist) =
  match np_broadcast_shapes (shape <$> mlist) with
  | Some B =>
      Ok ((λ m, mk_ndarray B (dtype m) (broadcast_to zero m B) false) <$> mlist)
  | None => Raise ShapeMismatch
  end.
Proof.
  rewrite outcome_broadcast_deep. unfold np_broadcast_arrays.
  by destruct (np_broadcast_shapes _).
Qed.

(** X7.  [broadcast_deep] is idempotent: applied to the arrays it returned
    (their data being as long as their shape says), it returns them again. *)
Theorem broadcast_deep_idempotent {V} (zero : V)
    (mlist outs : list (ndarray V)) :
  outcome (broadcast_deep zero mlist) = Ok outs →
  outcome (broadcast_deep zero outs) = Ok outs.
Proof.
  rewrite !outcome_broadcast_deep. unfold np_broadcast_arrays.
  destruct (np_broadcast_shapes (shape <$> mlist)) as [B|] eqn:HB; [|done].
  cbn. intros Heq; simplify_eq.
  rewrite <-list_fmap_compose.
  destruct mlist as [|m0 mlist0]; [reflexivity|].
  set (mlist := m0 :: mlist0).
  assert (shape ∘ (λ m, broadcast_view zero m B) <$> mlist
          = replicate (length mlist) B) as ->.
  { apply const_fmap. by intros i x _. }
  rewrite np_broadcast_shapes_replicate by (cbn; lia).
  unfold outcome, mret, M_ret, ret. cbn [snd]. f_equal.
  rewrite <-list_fmap_compose. apply list_fmap_ext. intros i m _.
  unfold compose. unfold broadcast_view at 1.
  pose proof (broadcast_to_own_shape zero (broadcast_view zero m B)) as Hown.
  cbn [broadcast_view shape data] in Hown.
  rewrite Hown by (by rewrite length_broadcast_to). reflexivity.
Qed.

Lemma broadcast_deep_idempotent_witness :
  outcome (broadcast_deep 0%Z
             [mk_ndarray [2; 2] Float32 [10; 20; 10; 20]%Z false;
              mk_ndarray [2; 2] Float32 [30; 30; 40; 40]%Z false])
  = Ok [mk_ndarray [2; 2] Float32 [10; 20; 10; 20]%Z false;
        mk_ndarray [2; 2] Float32 [30; 30; 40; 40]%Z false].
Proof.
  apply (broadcast_deep_idempotent 0%Z [Sample.a32; Sample.b32]).
  vm_compute. reflexivity.
Defined.

Section broadcast_arrays_none_correct.
Context {V : Type}.
Variable zero : V.
Implicit Types (args : list (option (ndarray V))) (arrm : list (ndarray V)).

Lemma collect_not_None args arrm :
  for_each (λ arrm (arg : option (ndarray V)),
    match arg with
    | None => mret arrm
    | Some a => mret (arrm ++ [a])
    end) args arrm
  = mret (arrm ++ @omap list _ _ _ id args).
Proof.
  revert arrm. induction args as [|[a|] args IH]; intros arrm.
  - cbn. by rewrite app_nil_r.
  - rewrite for_each_cons, mret_bind, IH. cbn. by rewrite <-app_assoc.
  - rewrite for_each_cons, mret_bind, IH. done.
Qed.

Lemma reinsert_None (f : ndarray V → ndarray V) (arrm : list (ndarray V))
    (args : list (option (ndarray V))) :
  ∀ (pre : list (ndarray V)) (ret : list (option (ndarray V))),
  arrm = pre ++ @omap list _ _ _ id args →
  for_each (λ (st : list (option (ndarray V)) * nat) (arg : option (ndarray V)),
    match arg with
    | None => mret (st.1 ++ [None], st.2)
    | Some _ =>
        match (f <$> arrm) !! st.2 with
        | Some x => mret (st.1 ++ [Some x], S st.2)
        | None => raise IndexError
        end
    end) args (ret, length pre)
  = mret (ret ++ (@fmap list _ _ _ (fmap f) args),
          length pre + length (@omap list _ _ _ id args)).
Proof.
  induction args as [|[a|] args IH]; intros pre ret Harrm.
  - cbn. by rewrite app_nil_r, Nat.add_0_r.
  - rewrite for_each_cons. cbn [fst snd]. cbn [omap list_omap id] in Harrm.
    rewrite list_lookup_fmap, Harrm, list_lookup_middle by done.
    cbn [fmap option_fmap option_map]. rewrite mret_bind, <-Harrm.
    replace (S (length pre)) with (length (pre ++ [a]))
      by (rewrite length_app; cbn; lia).
    rewrite (IH (pre ++ [a]) (ret ++ [Some (f a)]))
      by (by rewrite <-app_assoc).
    rewrite <-app_assoc, length_app. cbn. do 2 f_equal. lia.
  - rewrite for_each_cons. cbn [fst snd].
    rewrite mret_bind. rewrite (IH pre (ret ++ [None])) by done.
    by rewrite <-app_assoc.
Qed.
End broadcast_arrays_none_correct.

(** X8.  [broadcast_arrays_none] keeps the number and the places of its
    arguments: a [None] stays [None] where it was, and every array comes
    back as its view of the common shape of the arrays; when the arrays
    have no common shape the shape mismatch is raised. *)
Theorem broadcast_arrays_none_spec {V} (zero : V)
    (args : list (option (ndarray V))) :
  outcome (broadcast_arrays_none zero args) =
  match np_broadcast_shapes (shape <$> not_None args) with
  | Some B =>
      Ok ((λ arg : option (ndarray V),
             match arg with
             | Some m =>
                 Some (mk_ndarray B (dtype m) (broadcast_to zero m B) false)
             | None => None
             end) <$> args)
  | None => Raise ShapeMismatch
  end.
Proof.
  unfold broadcast_arrays_none, not_None. rewrite collect_not_None, mret_bind.
  cbn [app]. unfold np_broadcast_arrays.
  destruct (np_broadcast_shapes _) as [B|]; [|reflexivity].
  rewrite mret_bind.
  pose proof (reinsert_None (λ m, broadcast_view zero m B)
                (@omap list _ _ _ id args) args [] [] eq_refl) as H.
  cbn [app length] in H. rewrite H. rewrite mret_bind.
  unfold outcome, mret, M_ret, ret. cbn [fst snd]. reflexivity.
Qed.

(** ** The stackers: every outcome and its cause *)

Lemma concat_nil_Forall {A} (ls : list (list A)) :
  concat ls = [] ↔ Forall (λ l, l = []) ls.
Proof.
  induction ls as [|l ls IH]; cbn.
  - split; [constructor | done].
  - rewrite list.Forall_cons, <-IH. split.
    + by intros [-> ->]%app_eq_nil.
    + by intros [-> ->].
Qed.

Lemma length_concat_rect {A} (ls : list (list A)) C :
  Forall (λ l, length l = C) ls → length (concat ls) = length ls * C.
Proof.
  induction 1 as [|l ls Hl _ IH]; [done|].
  cbn. rewrite length_app, IH, Hl. lia.
Qed.

Section stackers_cases.
Context {V : Type}.
Variable cast : DType → V → V.
Variable reject : DType → V → option exn.
Variable zero : V.
Variable uninit : nat → V.
Implicit Types (arr : list (list (ndarray V))) (row items : list (ndarray V)).
Implicit Types (Marr : ndarray V) (B : Shape).

(** Rows that all are empty: [np.result_type()] fails for want of
    operands, or [len(None)] fails when the dtype is given. *)
Lemma matrix_stack_no_column arr dt :
  arr ≠ [] → Forall (λ row, row = []) arr →
  outcome (matrix_stack cast reject zero uninit arr dt) =
  Raise (match dt with None => ValueError_no_operand | Some _ => TypeError end).
Proof.
  intros Hne Hnil. destruct arr as [|row0 arr0]; [done|].
  set (arr := row0 :: arr0) in *.
  assert (concat arr = []) as Hc by (by apply concat_nil_Forall).
  assert (Forall (λ row, length row = length row0) arr) as Hrect.
  { eapply list.Forall_impl; [exact Hnil|]. intros row ->.
    apply Forall_cons_1 in Hnil as [-> _]. done. }
  subst arr. rewrite matrix_stack_collected by done. rewrite Hc.
  by destruct dt.
Qed.

Lemma vector_stack_no_element dt :
  outcome (vector_stack cast reject zero uninit [] dt) =
  Raise (match dt with None => ValueError_no_operand | Some _ => TypeError end).
Proof. by destruct dt. Qed.

Lemma matrix_stack_classify arr dt :
  match outcome (matrix_stack cast reject zero uninit arr dt) with
  | Ok Marr =>
      ∃ R C B, length arr = R ∧ Forall (λ row, length row = C) arr ∧
        0 < R ∧ 0 < C ∧
        np_broadcast_shapes (shape <$> concat arr) = Some B ∧
        shape Marr = B ++ [R; C] ∧
        (∀ t, dt = Some t → 0 < length B →
              fill_error reject t (concat arr) = None) ∧
        length (data Marr) = size_of (shape Marr)
  | Raise e =>
      (e = IndexError ∧ arr = []) ∨
      (e = AssertionError ∧
       ∃ i j row_i row_j, arr !! i = Some row_i ∧ arr !! j = Some row_j ∧
         length row_i ≠ length row_j) ∨
      (e = ValueError_no_operand ∧
       dt = None ∧ arr ≠ [] ∧ Forall (λ row, row = []) arr) ∨
      (e = TypeError ∧
       dt ≠ None ∧ arr ≠ [] ∧ Forall (λ row, row = []) arr) ∨
      (e = ValueError_broadcast ∧
       (∃ C, Forall (λ row, length row = C) arr) ∧
       np_broadcast_shapes (shape <$> concat arr) = None) ∨
      (∃ t B C, dt = Some t ∧ Forall (λ row, length row = C) arr ∧
         np_broadcast_shapes (shape <$> concat arr) = Some B ∧
         0 < length B ∧ fill_error reject t (concat arr) = Some e)
  end.
Proof.
  destruct arr as [|row0 arr0]; [by left|]. set (arr := row0 :: arr0).
  destruct (decide (Forall (λ row, length row = length row0) arr))
    as [Hrect|Hrag].
  - destruct (decide (concat arr = [])) as [Hc|Hc].
    + apply concat_nil_Forall in Hc.
      rewrite (matrix_stack_no_column arr dt) by done.
      destruct dt; [do 3 right; left | do 2 right; left]; done.
    + destruct (np_broadcast_shapes (shape <$> concat arr)) as [B|] eqn:HB.
      * destruct (promote_all_is_Some _ Hc) as [tn Htn].
        assert (0 < length row0) as HC0.
        { destruct row0 as [|x row0']; [|cbn; lia]. destruct Hc.
          apply concat_nil_Forall.
          eapply list.Forall_impl; [exact Hrect|]. cbn. by intros [|??]. }
        destruct (decide (0 < length B)) as [Hrank|Hrank].
        -- assert (is_Some (result_dtype dt (concat arr))) as [t Ht].
           { unfold result_dtype. destruct dt; [by eexists | by rewrite Htn]. }
           rewrite (matrix_stack_general_outcome cast reject zero uninit
                      arr dt (length arr) (length row0) B t) by done.
           destruct (fill_error reject t (concat arr)) as [e|] eqn:Hfill.
           ++ do 5 right. destruct dt as [t'|]; cbn in Ht.
              ** simplify_eq. by exists t, B, (length row0).
              ** by rewrite fill_error_promoted in Hfill.
           ++ exists (length arr), (length row0), B. cbn [shape data].
              split_and!; [done | done | cbn; lia | done | done | done | |].
              ** intros t' -> _. cbn in Ht. by simplify_eq.
              ** by rewrite length_apply_writes, length_uninit.
        -- destruct B as [|? ?]; [|cbn in Hrank; lia].
           assert (Forall (Forall (λ kdm, shape kdm = [])) arr) as Hsc.
           { apply list.Forall_forall. intros row Hrow.
             apply list.Forall_forall. intros kdm Hkdm.
             pose proof HB as [Hlen _]%np_broadcast_shapes_Some_1.
             assert (length (shape kdm) ≤ max_rank (shape <$> concat arr))
               as Hle.
             { apply max_rank_ge, list_elem_of_fmap. exists kdm.
               split; [done|]. rewrite concat_mjoin.
               apply list_elem_of_join. by exists row. }
             rewrite <-Hlen in Hle. cbn in Hle.
             destruct (shape kdm); [done | cbn in Hle; lia]. }
           rewrite (matrix_stack_scalar_outcome cast reject zero uninit
                      arr dt (length arr) (length row0) tn) by done.
           exists (length arr), (length row0), []. cbn [shape data].
           split_and!; [done | done | cbn; lia | done | done | done | |].
           ++ intros t' _ Hlt. cbn in Hlt. lia.
           ++ rewrite length_fmap, (length_concat_rect _ (length row0))
                by done.
              cbn. lia.
      * destruct (matrix_stack_mismatch cast reject zero uninit arr dt
                    (length row0) Hrect HB) as [-> _].
        do 4 right. left. split; [done|]. split; [by eexists | done].
  - assert (∃ j row_j, arr !! j = Some row_j ∧ length row_j ≠ length row0)
      as (j & row_j & Hj & Hne).
    { apply not_Forall_Exists in Hrag; [|apply _].
      apply list.Exists_exists in Hrag as (row & Hin & Hne).
      apply list_elem_of_lookup in Hin as [j Hj]. by exists j, row. }
    rewrite (matrix_stack_ragged cast reject zero uninit arr dt j 0 row_j row0)
      by done.
    right. left. split; [done|]. by exists j, 0, row_j, row0.
Qed.

Lemma vector_stack_classify items dt :
  match outcome (vector_stack cast reject zero uninit items dt) with
  | Ok Marr =>
      ∃ B, items ≠ [] ∧
        np_broadcast_shapes (shape <$> items) = Some B ∧
        shape Marr = B ++ [length items] ∧
        (∀ t, dt = Some t → 0 < length B →
              fill_error reject t items = None) ∧
        length (data Marr) = size_of (shape Marr)
  | Raise e =>
      (e = ValueError_no_operand ∧ dt = None ∧ items = []) ∨
      (e = TypeError ∧ dt ≠ None ∧ items = []) ∨
      (e = ValueError_broadcast ∧
       np_broadcast_shapes (shape <$> items) = None) ∨
      (∃ t B, dt = Some t ∧
         np_broadcast_shapes (shape <$> items) = Some B ∧
         0 < length B ∧ fill_error reject t items = Some e)
  end.
Proof.
  destruct items as [|m0 items0].
  { rewrite vector_stack_no_element.
    destruct dt; [right; left | left]; done. }
  set (items := m0 :: items0).
  assert (items ≠ []) as Hne by done.
  destruct (np_broadcast_shapes (shape <$> items)) as [B|] eqn:HB.
  - destruct (promote_all_is_Some _ Hne) as [tn Htn].
    destruct (decide (0 < length B)) as [Hrank|Hrank].
    + assert (is_Some (result_dtype dt items)) as [t Ht].
      { unfold result_dtype. destruct dt; [by eexists | by rewrite Htn]. }
      rewrite (vector_stack_general_outcome cast reject zero uninit
                 items dt (length items) B t) by done.
      destruct (fill_error reject t items) as [e|] eqn:Hfill.
      * do 3 right. destruct dt as [t'|]; cbn in Ht.
        -- simplify_eq. by exists t, B.
        -- by rewrite fill_error_promoted in Hfill.
      * exists B. cbn [shape data]. split_and!; [done | done | done | |].
        -- intros t' -> _. cbn in Ht. by simplify_eq.
        -- by rewrite length_apply_writes, length_uninit.
    + destruct B as [|? ?]; [|cbn in Hrank; lia].
      assert (Forall (λ rVal, shape rVal = []) items) as Hsc.
      { apply list.Forall_forall. intros rVal Hin.
        pose proof HB as [Hlen _]%np_broadcast_shapes_Some_1.
        assert (length (shape rVal) ≤ max_rank (shape <$> items)) as Hle.
        { apply max_rank_ge, list_elem_of_fmap. by exists rVal. }
        rewrite <-Hlen in Hle. cbn in Hle.
        destruct (shape rVal); [done | cbn in Hle; lia]. }
      rewrite (vector_stack_scalar_outcome cast reject zero uninit
                 items dt (length items) tn) by done.
      exists []. cbn [shape data]. split_and!; [done | done | done | |].
      * intros t' _ Hlt. cbn in Hlt. lia.
      * rewrite length_fmap. cbn. lia.
  - destruct (vector_stack_mismatch cast reject zero uninit items dt HB)
      as [-> _].
    do 2 right. by left.
Qed.
End stackers_cases.

(** X9.  Every outcome of [matrix_stack], on elements that are arrays,
    Python numbers or lists of numbers, has one cause.  It returns an array
    only for at least one row, rows of one length [C > 0], elements with a
    common shape [B] and, on the general path, an override that numpy
    accepts for every element; the array then has shape [B ++ [R; C]].
    [IndexError] means no row; the assertion error means two rows of
    different length; the error of [np.result_type] without operands means
    rows that are all empty and no dtype; [TypeError] means rows that are
    all empty and a dtype; the shape mismatch means rows of one length and
    elements without a common shape; any other exception is the one with
    which numpy refuses, for the override, the first element it refuses,
    the shapes being compatible and of rank at least 1. *)
Theorem matrix_stack_outcome_causes {V} (cast : DType → V → V)
    (reject : DType → V → option exn) (zero : V)
    (uninit : nat → V) (arr : list (list (ndarray V))) (dt : option DType) :
  match outcome (matrix_stack cast reject zero uninit arr dt) with
  | Ok Marr =>
      ∃ R C B, length arr = R ∧ Forall (λ row, length row = C) arr ∧
        0 < R ∧ 0 < C ∧
        np_broadcast_shapes (shape <$> concat arr) = Some B ∧
        shape Marr = B ++ [R; C] ∧
        (∀ t, dt = Some t → 0 < length B →
              fill_error reject t (concat arr) = None)
  | Raise e =>
      (e = IndexError ∧ arr = []) ∨
      (e = AssertionError ∧
       ∃ i j row_i row_j, arr !! i = Some row_i ∧ arr !! j = Some row_j ∧
         length row_i ≠ length row_j) ∨
      (e = ValueError_no_operand ∧
       dt = None ∧ arr ≠ [] ∧ Forall (λ row, row = []) arr) ∨
      (e = TypeError ∧
       dt ≠ None ∧ arr ≠ [] ∧ Forall (λ row, row = []) arr) ∨
      (e = ValueError_broadcast ∧
       (∃ C, Forall (λ row, length row = C) arr) ∧
       np_broadcast_shapes (shape <$> concat arr) = None) ∨
      (∃ t B C, dt = Some t ∧ Forall (λ row, length row = C) arr ∧
         np_broadcast_shapes (shape <$> concat arr) = Some B ∧
         0 < length B ∧ fill_error reject t (concat arr) = Some e)
  end.
Proof.
  pose proof (matrix_stack_classify cast reject zero uninit arr dt) as H.
  destruct (outcome _) as [Marr|e]; [|exact H].
  destruct H as (R & C & B & ? & ? & ? & ? & ? & ? & ? & _). by exists R, C, B.
Qed.

(** A refusal: a row holding an [int8] array and the Python integer 300,
    stacked with [dtype=int8]. *)
Example matrix_stack_override_refused :
  outcome (matrix_stack Sample.cast Sample.reject 0%Z Sample.uninit
             [Sample.v3_and_300] (Some Int8)) = Raise OverflowError ∧
  fill_error Sample.reject Int8 Sample.v3_and_300 = Some OverflowError.
Proof. split; reflexivity. Qed.

(** X10.  Every outcome of [vector_stack], on elements that are arrays,
    Python numbers or lists of numbers, has one cause: an array of shape
    [B ++ [N]] for a non-empty list with the common shape [B] and, on the
    general path, an override that numpy accepts for every element; the
    error of [np.result_type] without operands for the empty list and no
    dtype; [TypeError] for the empty list and a dtype; the shape mismatch
    for elements without a common shape; any other exception is the one
    with which numpy refuses, for the override, the first element it
    refuses. *)
Theorem vector_stack_outcome_causes {V} (cast : DType → V → V)
    (reject : DType → V → option exn) (zero : V)
    (uninit : nat → V) (items : list (ndarray V)) (dt : option DType) :
  match outcome (vector_stack cast reject zero uninit items dt) with
  | Ok Marr =>
      ∃ B, items ≠ [] ∧
        np_broadcast_shapes (shape <$> items) = Some B ∧
        shape Marr = B ++ [length items] ∧
        (∀ t, dt = Some t → 0 < length B → fill_error reject t items = None)
  | Raise e =>
      (e = ValueError_no_operand ∧ dt = None ∧ items = []) ∨
      (e = TypeError ∧ dt ≠ None ∧ items = []) ∨
      (e = ValueError_broadcast ∧
       np_broadcast_shapes (shape <$> items) = None) ∨
      (∃ t B, dt = Some t ∧
         np_broadcast_shapes (shape <$> items) = Some B ∧
         0 < length B ∧ fill_error reject t items = Some e)
  end.
Proof.
  pose proof (vector_stack_classify cast reject zero uninit items dt) as H.
  destruct (outcome _) as [Marr|e]; [|exact H].
  destruct H as (B & ? & ? & ? & ? & _). by exists B.
Qed.

(** X11.  An array a stacker returns is well formed: its data has as many
    values as its shape says, so no cell is missing and none is left over. *)
Theorem stackers_result_well_formed {V} (cast : DType → V → V)
    (reject : DType → V → option exn) (zero : V)
    (uninit : nat → V) (arr : list (list (ndarray V)))
    (items : list (ndarray V)) (dt : option DType) (Marr : ndarray V) :
  outcome (matrix_stack cast reject zero uninit arr dt) = Ok Marr ∨
  outcome (vector_stack cast reject zero uninit items dt) = Ok Marr →
  length (data Marr) = size_of (shape Marr).
Proof.
  intros [Hout|Hout].
  - pose proof (matrix_stack_classify cast reject zero uninit arr dt) as H.
    rewrite Hout in H.
    by destruct H as (R & C & B & ? & ? & ? & ? & ? & ? & ? & ?).
  - pose proof (vector_stack_classify cast reject zero uninit items dt) as H.
    rewrite Hout in H. by destruct H as (B & ? & ? & ? & ? & ?).
Qed.

Lemma stackers_result_well_formed_witness :
  length [10; 1; 2; 30; 20; 1; 2; 30; 10; 1; 2; 40; 20; 1; 2; 40]%Z
  = size_of [2; 2; 2; 2].
Proof.
  apply (stackers_result_well_formed Sample.cast Sample.reject 0%Z Sample.uninit
           Sample.mixed [] None
           (mk_ndarray [2; 2; 2; 2] Float64
              [10; 1; 2; 30; 20; 1; 2; 30; 10; 1; 2; 40; 20; 1; 2; 40]%Z false)).
  left. vm_compute. reflexivity.
Defined.

(** X12.  [vector_stack] on a list agrees with [matrix_stack] on that list
    as a single row: when the override, if any, is accepted for the
    elements, both return, with the same dtype and the same data, under the
    shape with one more axis of extent 1; and when [vector_stack] raises,
    [matrix_stack] raises the same exception. *)
Theorem vector_stack_as_single_row {V} (cast : DType → V → V)
    (reject : DType → V → option exn) (zero : V)
    (uninit : nat → V) (items : list (ndarray V)) (dt : option DType)
    (B : Shape) :
  items ≠ [] → np_broadcast_shapes (shape <$> items) = Some B →
  ((∀ t, dt = Some t → 0 < length B → fill_error reject t items = None) →
   ∃ Mv, outcome (vector_stack cast reject zero uninit items dt) = Ok Mv ∧
     shape Mv = B ++ [length items] ∧
     outcome (matrix_stack cast reject zero uninit [items] dt)
     = Ok (mk_ndarray (B ++ [1; length items]) (dtype Mv) (data Mv) false)) ∧
  (∀ e, outcome (vector_stack cast reject zero uninit items dt) = Raise e →
        outcome (matrix_stack cast reject zero uninit [items] dt) = Raise e).
Proof.
  intros Hne HB.
  assert (concat [items] = items) as Hcat by apply app_nil_r.
  destruct (promote_all_is_Some _ Hne) as [tn Htn].
  destruct (decide (0 < length B)) as [Hrank|Hrank].
  - assert (is_Some (result_dtype dt items)) as [t Ht].
    { unfold result_dtype. destruct dt; [by eexists | by rewrite Htn]. }
    rewrite (vector_stack_general_outcome cast reject zero uninit
               items dt (length items) B t) by done.
    rewrite (matrix_stack_general_outcome cast reject zero uninit
               [items] dt 1 (length items) B t);
      [|done | by repeat constructor | by rewrite ?Hcat..].
    rewrite Hcat. split.
    + intros Hov.
      assert (fill_error reject t items = None) as ->.
      { apply (fill_error_result_dtype _ dt); [done|].
        intros t' Hdt. by apply Hov. }
      eexists. split; [done|]. split; [done|].
      cbn [dtype data].
      assert (all_writes_2d cast zero B 1 (length items) t [items]
              = all_writes_1d cast zero B (length items) t items) as ->.
      { unfold all_writes_2d, all_writes_1d. cbn [imap mjoin list_join].
        rewrite app_nil_r. f_equal. apply imap_ext. intros i x _.
        unfold writes_2d, writes_1d. apply imap_ext. intros k v _. cbn.
        f_equal. lia. }
      assert (size_of (B ++ [1; length items]) = size_of (B ++ [length items]))
        as -> by (rewrite !size_of_app; cbn; lia).
      reflexivity.
    + intros e. by destruct (fill_error reject t items).
  - destruct B as [|? ?]; [|cbn in Hrank; lia].
    assert (Forall (λ rVal, shape rVal = []) items) as Hsc.
    { apply list.Forall_forall. intros rVal Hin.
      pose proof HB as [Hlen _]%np_broadcast_shapes_Some_1.
      assert (length (shape rVal) ≤ max_rank (shape <$> items)) as Hle.
      { apply max_rank_ge, list_elem_of_fmap. by exists rVal. }
      rewrite <-Hlen in Hle. cbn in Hle.
      destruct (shape rVal); [done | cbn in Hle; lia]. }
    rewrite (vector_stack_scalar_outcome cast reject zero uninit
               items dt (length items) tn) by done.
    rewrite (matrix_stack_scalar_outcome cast reject zero uninit
               [items] dt 1 (length items) tn);
      [|done | by repeat constructor | by repeat constructor
       | by rewrite Hcat].
    split; [|done]. intros _. eexists. split; [done|]. split; [done|].
    cbn [dtype data]. by rewrite Hcat.
Qed.

Lemma vector_stack_as_single_row_witness :
  ((∀ t, @None DType = Some t → 0 < length [2; 3] →
         fill_error Sample.reject t [Sample.b32; Sample.v3] = None) →
   ∃ Mv, outcome (vector_stack Sample.cast Sample.reject 0%Z Sample.uninit
                    [Sample.b32; Sample.v3] None) = Ok Mv ∧
     shape Mv = [2; 3] ++ [length [Sample.b32; Sample.v3]] ∧
     outcome (matrix_stack Sample.cast Sample.reject 0%Z Sample.uninit
                [[Sample.b32; Sample.v3]] None)
     = Ok (mk_ndarray ([2; 3] ++ [1; length [Sample.b32; Sample.v3]])
             (dtype Mv) (data Mv) false)) ∧
  (∀ e, outcome (vector_stack Sample.cast Sample.reject 0%Z Sample.uninit
                   [Sample.b32; Sample.v3] None) = Raise e →
        outcome (matrix_stack Sample.cast Sample.reject 0%Z Sample.uninit
                   [[Sample.b32; Sample.v3]] None) = Raise e).
Proof.
  apply (vector_stack_as_single_row Sample.cast Sample.reject 0%Z Sample.uninit
           [Sample.b32; Sample.v3] None [2; 3]).
  - discriminate.
  - vm_compute. reflexivity.
Defined.

(** Both stackers refuse the Python integer 300 for [dtype=int8]. *)
Example vector_stack_as_single_row_refused :
  outcome (vector_stack Sample.cast Sample.reject 0%Z Sample.uninit
             Sample.v3_and_300 (Some Int8)) = Raise OverflowError ∧
  outcome (matrix_stack Sample.cast Sample.reject 0%Z Sample.uninit
             [Sample.v3_and_300] (Some Int8)) = Raise OverflowError.
Proof. split; reflexivity. Qed.
(** ** [argsort] *)

Lemma strict_weak_order_subseteq {K} (lt : K → K → bool) (l1 l2 : list K) :
  (∀ a, a ∈ l1 → a ∈ l2) → strict_weak_order lt l2 → strict_weak_order lt l1.
Proof.
  intros Hsub (Hirr & Htrans & Hneg). split_and!.
  - intros a Ha. by apply Hirr, Hsub.
  - intros a b c Ha Hb Hc. apply Htrans; by apply Hsub.
  - intros a b c Ha Hb Hc. apply Hneg; by apply Hsub.
Qed.

Lemma strict_weak_order_asym {K} (lt : K → K → bool) (l : list K) a b :
  strict_weak_order lt l → a ∈ l → b ∈ l → lt a b = true → lt b a = false.
Proof.
  intros (Hirr & Htrans & _) Ha Hb Hab.
  destruct (lt b a) eqn:Hba; [|done].
  by rewrite <-(Hirr a Ha), (Htrans a b a).
Qed.

Lemma strict_weak_order_Z (l : list Z) : strict_weak_order Z.ltb l.
Proof.
  split_and!.
  - intros a _. apply Z.ltb_irrefl.
  - intros a b c _ _ _. rewrite !Z.ltb_lt. lia.
  - intros a b c _ _ _. rewrite !Z.ltb_ge. lia.
Qed.

Section py_sorted.
Context {A K : Type}.
Variable lt : K → K → bool.
Variable key : A → K.
Implicit Types (l : list A) (x : A).

Lemma insert_sorted_Permutation x l : insert_sorted lt key x l ≡ₚ x :: l.
Proof.
  induction l as [|y l IH]; cbn; [done|].
  destruct (lt (key y) (key x)); [|done].
  rewrite IH. apply Permutation_swap.
Qed.

Lemma py_sorted_Permutation l : py_sorted lt key l ≡ₚ l.
Proof.
  induction l as [|x l IH]; [done|].
  change (py_sorted lt key (x :: l))
    with (insert_sorted lt key x (py_sorted lt key l)).
  by rewrite insert_sorted_Permutation, IH.
Qed.

Lemma insert_sorted_stable (before : A → A → Prop) x l :
  strict_weak_order lt (key <$> x :: l) →
  StronglySorted (stable_order lt key before) l →
  Forall (before x) l →
  StronglySorted (stable_order lt key before) (insert_sorted lt key x l).
Proof.
  induction l as [|y l IH]; intros Hord Hs Hb; cbn.
  - repeat constructor.
  - apply StronglySorted_inv in Hs as [Hs Hy].
    apply Forall_cons_1 in Hb as [Hxy Hb].
    assert (∀ z, z ∈ x :: y :: l → key z ∈ key <$> x :: y :: l) as Hin.
    { intros z Hz. apply list_elem_of_fmap. by exists z. }
    destruct (lt (key y) (key x)) eqn:Hyx.
    + constructor.
      * apply IH; [|done..].
        eapply strict_weak_order_subseteq; [|exact Hord].
        intros a (z & -> & Hz)%list_elem_of_fmap. apply Hin.
        apply elem_of_cons in Hz as [-> | Hz]; [left | by do 2 right].
      * rewrite insert_sorted_Permutation. constructor; [by left | done].
    + constructor; [by constructor|].
      constructor; [by right|].
      rewrite list.Forall_forall in Hy, Hb. apply list.Forall_forall.
      intros z Hz. right. split; [|by apply Hb].
      assert (lt (key z) (key y) = false) as Hzy.
      { destruct (Hy z Hz) as [Hlt | [? _]]; [|done].
        apply (strict_weak_order_asym lt _ _ _ Hord); [| |done];
          apply Hin; [right; left | by do 2 right]. }
      destruct Hord as (_ & _ & Hneg).
      apply (Hneg _ (key y)); [| | |done..];
        apply Hin; [by do 2 right | right; left | left].
Qed.

Lemma py_sorted_stable (before : A → A → Prop) l :
  strict_weak_order lt (key <$> l) →
  StronglySorted before l →
  StronglySorted (stable_order lt key before) (py_sorted lt key l).
Proof.
  induction l as [|x l IH]; intros Hord Hs; [constructor|].
  change (py_sorted lt key (x :: l))
    with (insert_sorted lt key x (py_sorted lt key l)).
  apply StronglySorted_inv in Hs as [Hs Hx].
  apply insert_sorted_stable.
  - eapply strict_weak_order_subseteq; [|exact Hord].
    intros a (z & -> & Hz)%list_elem_of_fmap.
    apply list_elem_of_fmap. exists z. split; [done|].
    apply elem_of_cons in Hz as [-> | Hz]; [left|right].
    by rewrite py_sorted_Permutation in Hz.
  - apply IH; [|done].
    eapply strict_weak_order_subseteq; [|exact Hord].
    intros a Ha. rewrite fmap_cons. by right.
  - by rewrite py_sorted_Permutation.
Qed.

Lemma StronglySorted_stable_keys before l :
  strict_weak_order lt (key <$> l) →
  StronglySorted (stable_order lt key before) l →
  StronglySorted (λ a b, lt b a = false) (key <$> l).
Proof.
  intros Hord. induction 1 as [|x l _ IH Hx]; cbn; constructor.
  - apply IH. eapply strict_weak_order_subseteq; [|exact Hord].
    intros a Ha. rewrite fmap_cons. by right.
  - rewrite list.Forall_forall in Hx. apply list.Forall_forall.
    intros k (y & -> & Hy)%list_elem_of_fmap.
    destruct (Hx y Hy) as [Hlt | [? _]]; [|done].
    apply (strict_weak_order_asym lt _ _ _ Hord); [| |done].
    + rewrite fmap_cons. left.
    + rewrite fmap_cons. right. apply list_elem_of_fmap. by exists y.
Qed.
End py_sorted.

Lemma StronglySorted_seq j n : StronglySorted Nat.lt (seq j n).
Proof.
  revert j. induction n as [|n IH]; intros j; cbn; constructor; [apply IH|].
  apply list.Forall_forall. intros k Hk%elem_of_seq. lia.
Qed.

Lemma getitem_seq (array : list Z) :
  getitem array <$> seq 0 (length array) = array.
Proof.
  apply list_eq. intros i. rewrite list_lookup_fmap.
  destruct (decide (i < length array)) as [Hi|Hi].
  - rewrite lookup_seq_lt by done. cbn. unfold getitem.
    by destruct (lookup_lt_is_Some_2 array i Hi) as [v ->].
  - rewrite (lookup_ge_None_2 (seq _ _)) by (rewrite length_seq; lia).
    by rewrite lookup_ge_None_2 by lia.
Qed.

Lemma lookup_total_seq {K} `{Inhabited K} (array : list K) :
  (λ i, array !!! i) <$> seq 0 (length array) = array.
Proof.
  apply list_eq. intros i. rewrite list_lookup_fmap.
  destruct (decide (i < length array)) as [Hi|Hi].
  - rewrite lookup_seq_lt by done. cbn.
    destruct (lookup_lt_is_Some_2 array i Hi) as [v Hv].
    by rewrite (list_lookup_total_correct _ _ _ Hv).
  - rewrite (lookup_ge_None_2 (seq _ _)) by (rewrite length_seq; lia).
    by rewrite lookup_ge_None_2 by lia.
Qed.

(** X13.  On an array whose entries [<] orders (a strict weak order: any
    integers, or floating-point numbers without a NaN), [argsort] returns
    every index of the array exactly once, in the order of a stable sort:
    an index [i] placed before an index [j] has [array[i] < array[j]], or
    neither entry is less than the other and [i < j]. *)
Theorem argsort_stable_permutation {K} `{Inhabited K} (lt : K → K → bool)
    (array : list K) :
  strict_weak_order lt array →
  argsort lt array ≡ₚ seq 0 (length array) ∧
  StronglySorted
    (λ i j, lt (array !!! i) (array !!! j) = true ∨
            (lt (array !!! j) (array !!! i) = false ∧ i < j))
    (argsort lt array).
Proof.
  intros Hord. split; [apply py_sorted_Permutation|].
  apply (py_sorted_stable lt (λ i, array !!! i) Nat.lt).
  - by rewrite lookup_total_seq.
  - apply StronglySorted_seq.
Qed.

Lemma argsort_stable_permutation_witness :
  argsort Z.ltb [3; 1; 2; 1; 3]%Z ≡ₚ seq 0 (length [3; 1; 2; 1; 3]%Z) ∧
  StronglySorted
    (λ i j, ([3; 1; 2; 1; 3] !!! i <? [3; 1; 2; 1; 3] !!! j)%Z = true ∨
            (([3; 1; 2; 1; 3] !!! j <? [3; 1; 2; 1; 3] !!! i)%Z = false ∧
             i < j))
    (argsort Z.ltb [3; 1; 2; 1; 3]%Z).
Proof.
  apply (argsort_stable_permutation Z.ltb [3; 1; 2; 1; 3]%Z).
  split_and!.
  - intros a _. apply Z.ltb_irrefl.
  - intros a b c _ _ _. rewrite !Z.ltb_lt. lia.
  - intros a b c _ _ _. rewrite !Z.ltb_ge. lia.
Defined.

(** X14.  On an array whose entries [<] orders, reading the array at the
    indices [argsort] returns gives the values of the array, each as often
    as it occurs, in non-decreasing order: no value is less than one before
    it. *)
Theorem argsort_sorts {K} `{Inhabited K} (lt : K → K → bool)
    (array : list K) :
  strict_weak_order lt array →
  ((λ i, array !!! i) <$> argsort lt array) ≡ₚ array ∧
  StronglySorted (λ a b, lt b a = false)
    ((λ i, array !!! i) <$> argsort lt array).
Proof.
  intros Hord.
  assert (((λ i, array !!! i) <$> argsort lt array) ≡ₚ array) as Hperm.
  { unfold argsort. rewrite py_sorted_Permutation.
    by rewrite lookup_total_seq. }
  split; [done|].
  apply (StronglySorted_stable_keys lt _ Nat.lt).
  - eapply strict_weak_order_subseteq; [|exact Hord].
    intros a Ha. by rewrite Hperm in Ha.
  - apply py_sorted_stable; [by rewrite lookup_total_seq|].
    apply StronglySorted_seq.
Qed.

Lemma argsort_sorts_witness :
  ((λ i, [3; 1; 2; 1; 3]%Z !!! i) <$> argsort Z.ltb [3; 1; 2; 1; 3]%Z)
    ≡ₚ [3; 1; 2; 1; 3]%Z ∧
  StronglySorted (λ a b, (b <? a)%Z = false)
    ((λ i, [3; 1; 2; 1; 3]%Z !!! i) <$> argsort Z.ltb [3; 1; 2; 1; 3]%Z).
Proof.
  apply (argsort_sorts Z.ltb [3; 1; 2; 1; 3]%Z).
  split_and!.
  - intros a _. apply Z.ltb_irrefl.
  - intros a b c _ _ _. rewrite !Z.ltb_lt. lia.
  - intros a b c _ _ _. rewrite !Z.ltb_ge. lia.
Defined.

Example argsort_ties : argsort Z.ltb [3; 1; 2; 1; 3]%Z = [1; 3; 2; 0; 4].
Proof. reflexivity. Qed.

(** A NaN among floating-point numbers is not ordered by [<]: 0 is not
    less than NaN and NaN is not less than 1, yet 0 is less than 1. *)
Example nan_not_ordered :
  ¬ strict_weak_order lt_float [Some 0%Z; None; Some 1%Z].
Proof.
  intros (_ & _ & Hneg).
  specialize (Hneg (Some 0%Z) None (Some 1%Z)).
  assert (lt_float (Some 0%Z) (Some 1%Z) = false) as Hlt; [|done].
  apply Hneg; [left | right; left | do 2 right; left | done | done].
Qed.

(** On integers [argsort] meets the contract asked of [np.argsort] in
    [domain_sort]. *)
Lemma argsort_Z_sorted (X : list Z) :
  StronglySorted Z.le (getitem X <$> argsort Z.ltb X).
Proof.
  assert (argsort Z.ltb X ≡ₚ seq 0 (length X)) as Hperm
    by apply py_sorted_Permutation.
  assert (getitem X <$> argsort Z.ltb X
          = (λ i, X !!! i) <$> argsort Z.ltb X) as ->.
  { apply list_fmap_ext. intros _ i Hi%list_elem_of_lookup_2.
    rewrite Hperm in Hi. apply elem_of_seq in Hi.
    destruct (lookup_lt_is_Some_2 X i) as [v Hv]; [lia|].
    unfold getitem. by rewrite Hv, (list_lookup_total_correct _ _ _ Hv). }
  assert (StronglySorted (λ a b, (b <? a)%Z = false)
            ((λ i, X !!! i) <$> argsort Z.ltb X)) as Hs.
  { apply (StronglySorted_stable_keys Z.ltb _ Nat.lt).
    - apply strict_weak_order_Z.
    - apply py_sorted_stable; [apply strict_weak_order_Z|].
      apply StronglySorted_seq. }
  induction Hs as [|x l _ IH Hx]; constructor; [done|].
  eapply list.Forall_impl; [exact Hx|]. cbn. intros y. rewrite Z.ltb_ge. lia.
Qed.

(** ** [domain_sort] and [interval_limit] *)

Lemma take_indices_in_range (y : list Z) (idxs : list nat) :
  Forall (λ i, i < length y) idxs →
  take_indices y idxs = mret (getitem y <$> idxs).
Proof.
  intros Hr. unfold take_indices. apply list_comprehension_pure.
  intros i Hi. rewrite list.Forall_forall in Hr. specialize (Hr i Hi).
  unfold getitem. by destruct (lookup_lt_is_Some_2 y i Hr) as [v ->].
Qed.

Lemma all_nondecreasing_cons a b (r : list Z) :
  all_nondecreasing (a :: b :: r) = (a <=? b)%Z && all_nondecreasing (b :: r).
Proof.
  unfold all_nondecreasing. cbn [length Nat.sub drop].
  rewrite !Nat.sub_0_r. reflexivity.
Qed.

Lemma all_nondecreasing_sorted (X : list Z) :
  all_nondecreasing X = true → StronglySorted Z.le X.
Proof.
  intros H. apply Sorted_StronglySorted; [intros ???; lia|].
  induction X as [|a X IH]; [constructor|].
  destruct X as [|b r]; [repeat constructor|].
  rewrite all_nondecreasing_cons in H. apply andb_true_iff in H as [Hab H].
  constructor; [by apply IH|]. constructor. lia.
Qed.

Lemma argwhere_shift (f : nat → nat) (mask : list bool) :
  (λ p : nat * bool, p.1)
    <$> filter (λ p : nat * bool, p.2 = true) (imap (pair ∘ f) mask)
  = f <$> ((λ p : nat * bool, p.1)
             <$> filter (λ p : nat * bool, p.2 = true) (imap pair mask)).
Proof.
  revert f. induction mask as [|b mask IH]; intros f; [done|].
  rewrite !imap_cons.
  change (imap ((pair ∘ f) ∘ S) mask) with (imap (pair ∘ (f ∘ S)) mask).
  destruct b.
  - rewrite !filter_cons_True by done. rewrite !fmap_cons.
    rewrite (IH (f ∘ S)), (IH S). by rewrite <-!list_fmap_compose.
  - rewrite !filter_cons_False by done.
    rewrite (IH (f ∘ S)), (IH S). by rewrite <-!list_fmap_compose.
Qed.

Lemma argwhere_cons b (mask : list bool) :
  argwhere (b :: mask) = (if b then [0] else []) ++ (S <$> argwhere mask).
Proof.
  unfold argwhere. rewrite imap_cons. destruct b.
  - rewrite filter_cons_True by done. rewrite fmap_cons.
    by rewrite (argwhere_shift S).
  - rewrite filter_cons_False by done. by rewrite (argwhere_shift S).
Qed.

Lemma elem_of_argwhere (mask : list bool) i :
  i ∈ argwhere mask ↔ mask !! i = Some true.
Proof.
  revert i. induction mask as [|b mask IH]; intros i.
  - cbn. split; [by intros ?%elem_of_nil | done].
  - rewrite argwhere_cons, elem_of_app, list_elem_of_fmap.
    setoid_rewrite IH. destruct i as [|i]; cbn.
    + split.
      * intros [H|(j & ? & _)]; [|done]. destruct b; [done | by apply elem_of_nil in H].
      * intros Heq; simplify_eq. left. left.
    + split.
      * intros [H|(j & Heq & Hj)]; [|by simplify_eq].
        destruct b; [by apply list_elem_of_singleton in H | by apply elem_of_nil in H].
      * intros Hi. right. by exists i.
Qed.

Lemma StronglySorted_fmap_S (l : list nat) :
  StronglySorted lt l → StronglySorted lt (S <$> l).
Proof.
  induction 1 as [|x l _ IH Hx]; cbn; constructor; [done|].
  rewrite list.Forall_forall in Hx. apply list.Forall_forall.
  intros k (y & -> & Hy)%list_elem_of_fmap. specialize (Hx y Hy). lia.
Qed.

Lemma argwhere_increasing (mask : list bool) : StronglySorted lt (argwhere mask).
Proof.
  induction mask as [|b mask IH]; [constructor|].
  rewrite argwhere_cons. destruct b; cbn; [|by apply StronglySorted_fmap_S].
  constructor; [by apply StronglySorted_fmap_S|].
  apply list.Forall_forall. intros k (y & -> & _)%list_elem_of_fmap. lia.
Qed.

Lemma argwhere_filter {A} (P : A → bool) (d : A) (X : list A) :
  (λ i, default d (X !! i)) <$> argwhere (P <$> X) = filter (λ x, P x = true) X.
Proof.
  induction X as [|x X IH]; [done|].
  rewrite fmap_cons, argwhere_cons, fmap_app, <-list_fmap_compose.
  destruct (P x) eqn:HP.
  - rewrite filter_cons_True by done. cbn. by rewrite <-IH.
  - rewrite filter_cons_False by (by rewrite HP). cbn. by rewrite <-IH.
Qed.

(** X15.  [interval_limit] keeps, in their order, exactly the entries of [X]
    within [[X_min, X_max]], and from every array of [Y] (each at least as
    long as [X]) the entries at the same positions, so that the rows stay
    aligned; the positions are those of the entries of [X] within the
    bounds, in increasing order. *)
Theorem interval_limit_spec (X_min X_max : Z) (X : list Z) (Y : list (list Z)) :
  Forall (λ y, length X ≤ length y) Y →
  ∃ idxs, StronglySorted lt idxs ∧
    (∀ i, i ∈ idxs ↔ ∃ x, X !! i = Some x ∧ (X_min ≤ x ≤ X_max)%Z) ∧
    outcome (interval_limit X_min X_max X Y)
    = Ok ((getitem X <$> idxs) :: ((λ y, getitem y <$> idxs) <$> Y)) ∧
    getitem X <$> idxs = filter (λ x, (X_min ≤ x ≤ X_max)%Z) X.
Proof.
  intros HY.
  set (inside := λ x, (X_min <=? x)%Z && (x <=? X_max)%Z).
  exists (argwhere (inside <$> X)).
  assert (∀ i, i ∈ argwhere (inside <$> X) ↔
            ∃ x, X !! i = Some x ∧ (X_min ≤ x ≤ X_max)%Z) as Hin.
  { intros i. rewrite elem_of_argwhere, list_lookup_fmap. split.
    - destruct (X !! i) as [x|]; [|done]. cbn. intros Heq; simplify_eq.
      exists x. split; [done|]. unfold inside in *. lia.
    - intros (x & -> & Hx). cbn. f_equal. unfold inside. lia. }
  assert (∀ y : list Z, length X ≤ length y →
            Forall (λ i, i < length y) (argwhere (inside <$> X))) as Hrange.
  { intros y Hy. apply list.Forall_forall. intros i (x & Hx & _)%Hin.
    apply lookup_lt_Some in Hx. lia. }
  split; [apply argwhere_increasing|]. split; [done|]. split.
  - unfold interval_limit. fold inside.
    rewrite take_indices_in_range by (by apply Hrange). rewrite mret_bind.
    rewrite (list_comprehension_pure _
               (λ y, getitem y <$> argwhere (inside <$> X))).
    + by rewrite mret_bind.
    + intros y Hy. rewrite list.Forall_forall in HY.
      apply take_indices_in_range, Hrange. by apply HY.
  - unfold getitem. rewrite (argwhere_filter inside 0%Z).
    apply list_filter_iff. intros x. unfold inside. 
    rewrite andb_true_iff, !Z.leb_le. done.
Qed.

Lemma interval_limit_spec_witness :
  ∃ idxs, StronglySorted lt idxs ∧
    (∀ i, i ∈ idxs ↔ ∃ x, [5; 1; 3; 9; 2]%Z !! i = Some x ∧ (2 ≤ x ≤ 5)%Z) ∧
    outcome (interval_limit 2 5 [5; 1; 3; 9; 2]%Z [[10; 20; 30; 40; 50]%Z])
    = Ok ((getitem [5; 1; 3; 9; 2]%Z <$> idxs)
          :: ((λ y, getitem y <$> idxs) <$> [[10; 20; 30; 40; 50]%Z])) ∧
    getitem [5; 1; 3; 9; 2]%Z <$> idxs
    = filter (λ x, (2 ≤ x ≤ 5)%Z) [5; 1; 3; 9; 2]%Z.
Proof.
  apply (interval_limit_spec 2 5 [5; 1; 3; 9; 2]%Z [[10; 20; 30; 40; 50]%Z]).
  repeat constructor.
Defined.

Example interval_limit_example :
  outcome (interval_limit 2 5 [5; 1; 3; 9; 2]%Z [[10; 20; 30; 40; 50]%Z])
  = Ok [[5; 3; 2]%Z; [10; 30; 50]%Z].
Proof. reflexivity. Qed.

Lemma domain_sort_loop (idxs : list nat) (Y : list (option (list Z))) :
  ∀ output : list (option (list Z)),
  Forall (λ y : option (list Z),
            match y with
            | None => True
            | Some y => length y = 1 ∨ Forall (λ i, i < length y) idxs
            end) Y →
  for_each (λ output (y : option (list Z)),
    match y with
    | None => mret (output ++ [None])
    | Some y =>
        if length y =? 1 then mret (output ++ [Some y])
        else y' ← take_indices y idxs; mret (output ++ [Some y'])
    end) Y output
  = mret (output ++
          ((λ y : option (list Z),
              match y with
              | None => None
              | Some y =>
                  Some (if length y =? 1 then y else getitem y <$> idxs)
              end) <$> Y)).
Proof.
  induction Y as [|y Y IH]; intros output HY.
  - cbn. by rewrite app_nil_r.
  - apply Forall_cons_1 in HY as [Hy HY]. rewrite for_each_cons.
    destruct y as [y|].
    + destruct (Nat.eqb_spec (length y) 1) as [H1|H1].
      * rewrite mret_bind, IH by done. cbn. rewrite <-app_assoc. cbn.
        by rewrite (proj2 (Nat.eqb_eq _ _) H1).
      * destruct Hy as [?|Hy]; [done|].
        rewrite take_indices_in_range by done. rewrite !mret_bind.
        rewrite IH by done. cbn. rewrite <-app_assoc. cbn.
        by rewrite (proj2 (Nat.eqb_neq _ _) H1).
    + rewrite mret_bind, IH by done. cbn. by rewrite <-app_assoc.
Qed.

(** X16.  Given an [np.argsort] that returns a permutation of the indices
    along which the values do not decrease, [domain_sort] returns [X] in
    non-decreasing order, rearranged by one permutation [idxs] of its
    indices, and as many further entries as it was given: a [None] stays
    [None], and an array as long as [X] is rearranged by the same [idxs],
    so that it stays aligned with [X].  When [X] is already in order
    [idxs] is the identity and the further entries come back as they were
    given.  The arrays must have length 1 or be at least as long as [X]. *)
Theorem domain_sort_spec (np_argsort : list Z → list nat)
    (X : list Z) (Y : list (option (list Z))) :
  (∀ X, np_argsort X ≡ₚ seq 0 (length X)) →
  (∀ X, StronglySorted Z.le (getitem X <$> np_argsort X)) →
  Forall (λ y : option (list Z),
            match y with
            | None => True
            | Some y => length y = 1 ∨ length X ≤ length y
            end) Y →
  ∃ idxs Y', outcome (domain_sort np_argsort X Y)
             = Ok (Some (getitem X <$> idxs) :: Y') ∧
    idxs ≡ₚ seq 0 (length X) ∧
    StronglySorted Z.le (getitem X <$> idxs) ∧
    length Y' = length Y ∧
    (∀ k, Y !! k = Some None → Y' !! k = Some None) ∧
    (∀ k y, Y !! k = Some (Some y) → length y = length X →
       Y' !! k = Some (Some (getitem y <$> idxs))) ∧
    (all_nondecreasing X = true → idxs = seq 0 (length X) ∧ Y' = Y).
Proof.
  intros Hperm Hsorted HY. unfold domain_sort.
  destruct (all_nondecreasing X) eqn:Hnd; cbn [negb].
  - exists (seq 0 (length X)), Y. rewrite getitem_seq.
    split_and!;
      [done | done | by apply all_nondecreasing_sorted | done | done | | done].
    intros k y Hk Hlen. by rewrite <-Hlen, getitem_seq.
  - set (idxs := np_argsort X).
    assert (∀ y : list Z, length X ≤ length y →
              Forall (λ i, i < length y) idxs) as Hrange.
    { intros y Hy. apply list.Forall_forall. intros i Hi.
      unfold idxs in Hi. rewrite Hperm in Hi. apply elem_of_seq in Hi. lia. }
    rewrite take_indices_in_range by (by apply Hrange). rewrite mret_bind.
    rewrite domain_sort_loop.
    2:{ eapply list.Forall_impl; [exact HY|]. intros [y|]; [|done].
        intros [?|?]; [by left | right; by apply Hrange]. }
    eexists idxs, _. split; [reflexivity|].
    split_and!; [apply Hperm | apply Hsorted | by rewrite length_fmap | | | done].
    + intros k Hk. by rewrite list_lookup_fmap, Hk.
    + intros k y Hk Hlen. rewrite list_lookup_fmap, Hk. cbn.
      destruct (Nat.eqb_spec (length y) 1) as [H1|H1]; [|done].
      destruct X as [|a [|b r]]; cbn in Hlen, Hnd; [lia | done | lia].
Qed.

Lemma domain_sort_spec_witness :
  ∃ idxs Y', outcome (domain_sort (argsort Z.ltb) [3; 1; 2]%Z
                        [Some [30; 10; 20]%Z; None; Some [7]%Z])
             = Ok (Some (getitem [3; 1; 2]%Z <$> idxs) :: Y') ∧
    idxs ≡ₚ seq 0 (length [3; 1; 2]%Z) ∧
    StronglySorted Z.le (getitem [3; 1; 2]%Z <$> idxs) ∧
    length Y' = length [Some [30; 10; 20]%Z; None; Some [7]%Z] ∧
    (∀ k, [Some [30; 10; 20]%Z; None; Some [7]%Z] !! k = Some None →
       Y' !! k = Some None) ∧
    (∀ k y, [Some [30; 10; 20]%Z; None; Some [7]%Z] !! k = Some (Some y) →
       length y = length [3; 1; 2]%Z →
       Y' !! k = Some (Some (getitem y <$> idxs))) ∧
    (all_nondecreasing [3; 1; 2]%Z = true →
     idxs = seq 0 (length [3; 1; 2]%Z) ∧
     Y' = [Some [30; 10; 20]%Z; None; Some [7]%Z]).
Proof.
  apply (domain_sort_spec (argsort Z.ltb) [3; 1; 2]%Z
           [Some [30; 10; 20]%Z; None; Some [7]%Z]).
  - intros X. apply py_sorted_Permutation.
  - intros X. apply argsort_Z_sorted.
  - constructor; [right; simpl; lia|]. constructor; [exact I|].
    constructor; [left; reflexivity|]. constructor.
Defined.

Example domain_sort_example :
  outcome (domain_sort (argsort Z.ltb) [3; 1; 2]%Z [Some [30; 10; 20]%Z; None; Some [7]%Z])
  = Ok [Some [1; 2; 3]%Z; Some [10; 20; 30]%Z; None; Some [7]%Z].
Proof. reflexivity. Qed.

(** ** [type_reduce] and [common_type] *)

Section common_type_correct.
Context {Cls Obj : Type}.
Variable issubclass : Cls → Cls → bool.
Variable class_of : Obj → Cls.
Variable is_None : Obj → bool.
Implicit Types (l : list Obj) (o : Obj) (A T : Cls).

Lemma type_reduce_fold_None l :
  foldl (type_reduce issubclass class_of is_None) None l = None.
Proof. induction l; [done | exact IHl]. Qed.

Lemma type_reduce_fold_Some l : ∀ A T,
  (∀ a, issubclass a a = true) →
  (∀ a b c, issubclass a b = true → issubclass b c = true →
            issubclass a c = true) →
  foldl (type_reduce issubclass class_of is_None) (Some A) l = Some T →
  issubclass A T = true ∧
  (T = A ∨ ∃ o, o ∈ l ∧ T = class_of o) ∧
  ∀ o, o ∈ l → is_None o = false ∧ isinstance issubclass class_of o T = true.
Proof.
  induction l as [|o l IH]; intros A T Hrefl Htrans Hr.
  - cbn in Hr. simplify_eq. split_and!; [done | by left |].
    by intros o ?%elem_of_nil.
  - cbn [foldl] in Hr. unfold type_reduce at 2 in Hr.
    destruct (is_None o) eqn:Hn; [by rewrite type_reduce_fold_None in Hr|].
    unfold isinstance in *.
    destruct (issubclass (class_of o) A) eqn:HoA.
    + destruct (IH _ _ Hrefl Htrans Hr) as (HA & HT & Hall).
      split_and!; [done | |].
      * destruct HT as [-> | (o' & Ho' & ->)]; [by left|].
        right. exists o'. split; [by right | done].
      * intros o' [-> | Ho']%elem_of_cons; [|by apply Hall].
        split; [done | by eapply Htrans].
    + destruct (issubclass A (class_of o)) eqn:HAo;
        [|by rewrite type_reduce_fold_None in Hr].
      destruct (IH _ _ Hrefl Htrans Hr) as (HA & HT & Hall).
      split_and!; [by eapply Htrans | |].
      * right. destruct HT as [-> | (o' & Ho' & ->)].
        -- exists o. split; [by left | done].
        -- exists o'. split; [by right | done].
      * intros o' [-> | Ho']%elem_of_cons; [done | by apply Hall].
Qed.

Lemma type_reduce_fold_fails l : ∀ oA,
  foldl (type_reduce issubclass class_of is_None) (Some (class_of oA)) l
    = None →
  (∃ o, o ∈ l ∧ is_None o = true) ∨
  (∃ o1 o2, o1 ∈ oA :: l ∧ o2 ∈ oA :: l ∧ unrelated issubclass class_of o1 o2).
Proof.
  induction l as [|o l IH]; intros oA Hr; [done|].
  cbn [foldl] in Hr. unfold type_reduce at 2 in Hr.
  destruct (is_None o) eqn:Hn.
  { left. exists o. split; [by left | done]. }
  unfold isinstance in Hr.
  destruct (issubclass (class_of o) (class_of oA)) eqn:HoA.
  - destruct (IH _ Hr) as [(o' & Ho' & Hn') | (o1 & o2 & H1 & H2 & Hu)].
    + left. exists o'. split; [by right | done].
    + right. exists o1, o2. split_and!; [| | done].
      * apply elem_of_cons in H1 as [-> | H1]; [by left | by do 2 right].
      * apply elem_of_cons in H2 as [-> | H2]; [by left | by do 2 right].
  - destruct (issubclass (class_of oA) (class_of o)) eqn:HAo.
    + destruct (IH _ Hr) as [(o' & Ho' & Hn') | (o1 & o2 & H1 & H2 & Hu)].
      * left. exists o'. split; [by right | done].
      * right. exists o1, o2. split_and!; [by right | by right | done].
    + right. exists o, oA. split_and!; [by right; left | by left | done].
Qed.

(** X17. With [issubclass] reflexive and transitive, [common_type]
    returns a class only if that class is the class of one of the
    elements, no element is [None] and every element is an instance of
    it; it returns [None] only if some element is [None] or two elements
    have classes unrelated by [issubclass]; it raises only [IndexError],
    and only on an empty array. *)
Theorem common_type_spec l :
  (∀ a, issubclass a a = true) →
  (∀ a b c, issubclass a b = true → issubclass b c = true →
            issubclass a c = true) →
  match outcome (common_type issubclass class_of is_None l) with
  | Ok (Some T) =>
      (∃ o, o ∈ l ∧ T = class_of o) ∧
      ∀ o, o ∈ l →
           is_None o = false ∧ isinstance issubclass class_of o T = true
  | Ok None =>
      (∃ o, o ∈ l ∧ is_None o = true) ∨
      (∃ o1 o2, o1 ∈ l ∧ o2 ∈ l ∧ unrelated issubclass class_of o1 o2)
  | Raise e => l = [] ∧ e = IndexError
  end.
Proof.
  intros Hrefl Htrans. destruct l as [|o0 l]; [done|].
  unfold common_type. change (outcome (mret ?x)) with (Ok x).
  destruct (foldl _ _ _) as [T|] eqn:Hr.
  - apply type_reduce_fold_Some in Hr as (_ & HT & Hall); [|done..].
    split; [|done].
    destruct HT as [-> | HT]; [|done].
    exists o0. split; [by left | done].
  - apply type_reduce_fold_fails in Hr
      as [Hn | (o1 & o2 & H1 & H2 & Hu)]; [by left|].
    right. exists o1, o2. split_and!; [| | done].
    + apply elem_of_cons in H1 as [-> | H1]; [by left | done].
    + apply elem_of_cons in H2 as [-> | H2]; [by left | done].
Qed.

(** X18. Conversely, on a non-empty array without [None] whose elements'
    classes are pairwise related by [issubclass], [common_type] returns
    a class, never [None]. *)
Theorem common_type_chain l :
  l ≠ [] →
  (∀ o, o ∈ l → is_None o = false) →
  (∀ o1 o2, o1 ∈ l → o2 ∈ l → ¬ unrelated issubclass class_of o1 o2) →
  ∃ T, outcome (common_type issubclass class_of is_None l) = Ok (Some T).
Proof.
  intros Hne Hnn Hch.
  destruct l as [|o0 l]; [done|].
  unfold common_type. change (outcome (mret ?x)) with (Ok x).
  destruct (foldl _ _ _) as [T|] eqn:Hr; [by exists T|].
  apply type_reduce_fold_fails in Hr
    as [(o & Ho & Hn) | (o1 & o2 & H1 & H2 & Hu)].
  - rewrite Hnn in Hn; [done | done].
  - destruct (Hch o1 o2); [| | done].
    + apply elem_of_cons in H1 as [-> | H1]; [by left | done].
    + apply elem_of_cons in H2 as [-> | H2]; [by left | done].
Qed.
End common_type_correct.

Lemma common_type_spec_witness :
  let l := [SampleClasses.OBool true; SampleClasses.OInt 3;
            SampleClasses.OBool false] in
  outcome (common_type SampleClasses.issubclass SampleClasses.class_of
             SampleClasses.is_None l) = Ok (Some SampleClasses.PyInt) ∧
  ((∃ o, o ∈ l ∧ SampleClasses.PyInt = SampleClasses.class_of o) ∧
   ∀ o, o ∈ l →
        SampleClasses.is_None o = false ∧
        isinstance SampleClasses.issubclass SampleClasses.class_of o
          SampleClasses.PyInt = true).
Proof.
  split; [reflexivity|].
  apply (common_type_spec SampleClasses.issubclass SampleClasses.class_of
           SampleClasses.is_None
           [SampleClasses.OBool true; SampleClasses.OInt 3;
            SampleClasses.OBool false]).
  - intros []; reflexivity.
  - intros [] [] []; simpl; intros; first [reflexivity | discriminate].
Defined.

Lemma common_type_chain_witness :
  ∃ T, outcome (common_type SampleClasses.issubclass SampleClasses.class_of
                  SampleClasses.is_None
                  [SampleClasses.OInt 3; SampleClasses.OBool true])
       = Ok (Some T).
Proof.
  apply (common_type_chain SampleClasses.issubclass SampleClasses.class_of
           SampleClasses.is_None
           [SampleClasses.OInt 3; SampleClasses.OBool true]).
  - discriminate.
  - intros o Ho. repeat (apply elem_of_cons in Ho as [-> | Ho]);
      [reflexivity | reflexivity | by apply elem_of_nil in Ho].
  - intros o1 o2 H1 H2 [Hu1 Hu2].
    repeat (apply elem_of_cons in H1 as [-> | H1]);
      repeat (apply elem_of_cons in H2 as [-> | H2]);
      try (by apply elem_of_nil in H1); try (by apply elem_of_nil in H2);
      simpl in *; discriminate.
Defined.

Example common_type_unrelated :
  outcome (common_type SampleClasses.issubclass SampleClasses.class_of
             SampleClasses.is_None
             [SampleClasses.OInt 3; SampleClasses.OFloat]) = Ok None.
Proof. reflexivity. Qed.

(** ** [generate_antisections] *)

Lemma zip_pairs_cons_cons {A} (a b : A) (d : list A) :
  zip_pairs (a :: b :: d) = (a, b) :: zip_pairs d.
Proof. unfold zip_pairs. by destruct d. Qed.

Lemma zip_pairs_boundaries (Ss : list (Z * Z)) : zip_pairs (boundaries Ss) = Ss.
Proof.
  induction Ss as [|[a b] Ss IH]; [done|].
  change (boundaries ((a, b) :: Ss)) with (a :: b :: boundaries Ss).
  by rewrite zip_pairs_cons_cons, IH.
Qed.

Lemma even_length_ind {A} (P : list A → Prop) :
  P [] → (∀ a b d, P d → P (a :: b :: d)) →
  ∀ d, Nat.even (length d) = true → P d.
Proof.
  intros Hnil Hstep d. remember (length d) as n eqn:Hn.
  revert d Hn. induction (lt_wf n) as [n _ IH]. intros d Hn Hev.
  destruct d as [|a [|b d]]; [done | by subst | ].
  apply Hstep. apply (IH (length d)); [cbn in Hn; lia | done |].
  subst n. cbn [length] in Hev. by rewrite Nat.even_succ_succ in Hev.
Qed.

Lemma boundaries_zip_pairs (d : list Z) :
  Nat.even (length d) = true → boundaries (zip_pairs d) = d.
Proof.
  revert d. apply even_length_ind; [done|]. intros a b d IH.
  rewrite zip_pairs_cons_cons.
  change (boundaries ((a, b) :: zip_pairs d))
    with (a :: b :: boundaries (zip_pairs d)).
  by rewrite IH.
Qed.

Lemma length_boundaries (Ss : list (Z * Z)) :
  length (boundaries Ss) = 2 * length Ss.
Proof.
  induction Ss as [|[a b] Ss IH]; [done|].
  change (boundaries ((a, b) :: Ss)) with (a :: b :: boundaries Ss).
  cbn [length]. lia.
Qed.

Lemma foldl_extend_boundaries (Ss : list (Z * Z)) : ∀ acc,
  foldl (λ d (section : Z * Z), d ++ [section.1; section.2]) acc Ss
  = acc ++ boundaries Ss.
Proof.
  induction Ss as [|[a b] Ss IH]; intros acc; cbn [foldl].
  - by rewrite app_nil_r.
  - rewrite IH, <-app_assoc. done.
Qed.

Lemma odd_below_app (d1 d2 : list Z) (p : Z) :
  odd_below (d1 ++ d2) p = xorb (odd_below d1 p) (odd_below d2 p).
Proof.
  induction d1 as [|x d1 IH].
  - change (odd_below [] p) with false. by rewrite xorb_false_l.
  - change (odd_below ((x :: d1) ++ d2) p)
      with (xorb (x <=? p)%Z (odd_below (d1 ++ d2) p)).
    change (odd_below (x :: d1) p) with (xorb (x <=? p)%Z (odd_below d1 p)).
    by rewrite IH, xorb_assoc.
Qed.

Lemma odd_below_all_above (d : list Z) (p : Z) :
  Forall (λ x, p < x)%Z d → odd_below d p = false.
Proof.
  induction 1 as [|x d Hx _ IH]; [done|].
  change (odd_below (x :: d) p) with (xorb (x <=? p)%Z (odd_below d p)).
  rewrite IH. by destruct (Z.leb_spec x p); [lia|].
Qed.

(** For sections with boundaries in order, a position is covered exactly
    when an odd number of boundaries lie at or before it. *)
Lemma covered_odd_below (Ss : list (Z * Z)) (p : Z) :
  StronglySorted Z.le (boundaries Ss) →
  covered Ss p ↔ odd_below (boundaries Ss) p = true.
Proof.
  induction Ss as [|[a b] Ss IH].
  - intros _. split; [|done]. by intros (s & e & ?%elem_of_nil & _).
  - change (boundaries ((a, b) :: Ss)) with (a :: b :: boundaries Ss).
    intros Hs. apply StronglySorted_inv in Hs as [Hs Ha].
    apply StronglySorted_inv in Hs as [Hs Hb].
    specialize (IH Hs). apply Forall_cons_1 in Ha as [Hab Ha].
    change (odd_below (a :: b :: boundaries Ss) p)
      with (xorb (a <=? p)%Z (xorb (b <=? p)%Z (odd_below (boundaries Ss) p))).
    assert (covered ((a, b) :: Ss) p ↔ (a ≤ p < b)%Z ∨ covered Ss p) as ->.
    { unfold covered. split.
      - intros (s & e & [Heq | Hin]%elem_of_cons & Hp).
        + simplify_eq. by left.
        + right. by exists s, e.
      - intros [Hp | (s & e & Hin & Hp)].
        + exists a, b. split; [by left | done].
        + exists s, e. split; [by right | done]. }
    rewrite IH.
    assert ((a ≤ p < b)%Z → odd_below (boundaries Ss) p = false) as Hgap.
    { intros Hp. apply odd_below_all_above.
      eapply list.Forall_impl; [exact Hb|]. cbn. lia. }
    destruct (Z.leb_spec a p) as [Hap | Hap], (Z.leb_spec b p) as [Hbp | Hbp],
      (odd_below (boundaries Ss) p) eqn:Hob; cbn;
      try (rewrite Hgap in Hob by lia; discriminate);
      intuition (try lia; try congruence).
Qed.

Lemma two_ends {A} (d : list A) :
  2 ≤ length d → ∃ a m b, d = a :: m ++ [b].
Proof.
  intros Hlen. destruct d as [|a d]; [cbn in Hlen; lia|].
  destruct (list.last d) as [b|] eqn:Hlast.
  - apply last_Some in Hlast as [m ->]. by exists a, m, b.
  - apply last_None in Hlast as ->. cbn in Hlen. lia.
Qed.

(** The boundaries [generate_antisections] pairs up: the tests on the two
    ends of [disconnects] remove a first boundary equal to [idx_start] and
    a last one equal to [idx_end], and add them otherwise. *)
Lemma outcome_antisections (s e : Z) (Ss : list (Z * Z)) (a b : Z) (m : list Z) :
  boundaries Ss = a :: m ++ [b] →
  outcome (generate_antisections s e Ss)
  = Ok (zip_pairs ((if (a =? s)%Z then [] else [s; a]) ++ m ++
                   (if (b =? e)%Z then [] else [b; e]))).
Proof.
  intros Hd. unfold generate_antisections.
  rewrite bool_decide_false by (by intros ->).
  rewrite foldl_extend_boundaries, app_nil_l, Hd.
  change (py_index (a :: m ++ [b]) 0) with (mret a : M Z).
  rewrite mret_bind. cbv zeta.
  assert (∀ pre : list Z, py_last (pre ++ m ++ [b]) = mret b) as Hlast.
  { intros pre. unfold py_last.
    by rewrite (app_assoc pre m [b]), last_snoc. }
  destruct (a =? s)%Z.
  - change (drop 1 (a :: m ++ [b])) with ([] ++ m ++ [b]).
    rewrite Hlast, mret_bind. rewrite !app_nil_l.
    destruct (b =? e)%Z.
    + rewrite length_app. cbn [length].
      replace (length m + 1 - 1) with (length m) by lia.
      by rewrite take_app_length, app_nil_r.
    + by rewrite <-app_assoc.
  - change (s :: a :: m ++ [b]) with ([s; a] ++ m ++ [b]).
    rewrite Hlast, mret_bind.
    destruct (b =? e)%Z.
    + rewrite (app_assoc [s; a] m [b]), length_app. cbn [length].
      replace (length ([s; a] ++ m) + 1 - 1) with (length ([s; a] ++ m))
        by lia.
      by rewrite take_app_length, app_nil_r.
    + by rewrite <-!app_assoc.
Qed.

(** X19. [generate_antisections] never raises, and it returns one section
    more than it was given, less one if the first section starts at
    [idx_start] and less one if the last section ends at [idx_end]. *)
Theorem generate_antisections_total (s e : Z) (Ss : list (Z * Z)) :
  ∃ R, outcome (generate_antisections s e Ss) = Ok R ∧
       match Ss, list.last Ss with
       | (a, _) :: _, Some (_, b) =>
           length R + (if (a =? s)%Z then 1 else 0)
                    + (if (b =? e)%Z then 1 else 0) = length Ss + 1
       | _, _ => R = [(s, e)]
       end.
Proof.
  destruct Ss as [|[a a'] Ss]; [by exists [(s, e)]|].
  destruct (two_ends (boundaries ((a, a') :: Ss))) as (a0 & m & b & Hd).
  { rewrite length_boundaries. cbn [length]. lia. }
  eexists. split; [by apply outcome_antisections|].
  assert (a0 = a) as ->.
  { change (boundaries ((a, a') :: Ss)) with (a :: a' :: boundaries Ss) in Hd.
    by simplify_eq. }
  destruct (list.last ((a, a') :: Ss)) as [[b' b0]|] eqn:Hlast;
    [|by apply last_None in Hlast].
  assert (b0 = b) as ->.
  { apply last_Some in Hlast as [Ss' HSs'].
    rewrite HSs' in Hd. unfold boundaries in Hd.
    rewrite bind_app in Hd. cbn in Hd.
    change (a :: m ++ [b]) with ((a :: m) ++ [b]) in Hd.
    change [b'; b0] with ([b'] ++ [b0]) in Hd.
    rewrite app_assoc in Hd. by apply app_inj_tail in Hd as [_ ->]. }
  assert (Nat.even (length m) = true ∧ 2 * length Ss = length m)
    as [Hev Hm].
  { pose proof (length_boundaries ((a, a') :: Ss)) as HL.
    rewrite Hd in HL. cbn [length] in HL. rewrite length_app in HL.
    cbn [length] in HL.
    assert (length m = 2 * length Ss) as -> by lia.
    by rewrite Nat.even_even. }
  assert (∀ d : list Z, Nat.even (length d) = true →
            2 * length (zip_pairs d) = length d) as Hzip.
  { intros d Hd'. rewrite <-(boundaries_zip_pairs d) at 2 by done.
    by rewrite length_boundaries. }
  assert (2 * length (zip_pairs
            ((if (a =? s)%Z then [] else [s; a]) ++ m ++
             (if (b =? e)%Z then [] else [b; e])))
          = length ((if (a =? s)%Z then [] else [s; a]) ++ m ++
             (if (b =? e)%Z then [] else [b; e]))) as Hlen.
  { apply Hzip. rewrite !length_app, !Nat.even_add, Hev.
    by destruct (a =? s)%Z, (b =? e)%Z. }
  rewrite !length_app in Hlen. cbn [length].
  destruct (a =? s)%Z, (b =? e)%Z; cbn [length] in Hlen; lia.
Qed.

Lemma toggled_even (s e a b : Z) (m : list Z) :
  Nat.even (length m) = true →
  Nat.even (length ((if (a =? s)%Z then [] else [s; a]) ++ m ++
                    (if (b =? e)%Z then [] else [b; e]))) = true.
Proof.
  intros Hev. rewrite !length_app, !Nat.even_add, Hev.
  by destruct (a =? s)%Z, (b =? e)%Z.
Qed.

Lemma boundaries_ends (Ss : list (Z * Z)) :
  Ss ≠ [] →
  ∃ a m b, boundaries Ss = a :: m ++ [b] ∧ Nat.even (length m) = true.
Proof.
  intros Hne. destruct (two_ends (boundaries Ss)) as (a & m & b & Hd).
  { rewrite length_boundaries. destruct Ss; [done | cbn [length]; lia]. }
  exists a, m, b. split; [done|].
  pose proof (length_boundaries Ss) as HL. rewrite Hd in HL.
  cbn [length] in HL. rewrite length_app in HL. cbn [length] in HL.
  assert (length m = 2 * (length Ss - 1)) as -> by lia.
  by rewrite Nat.even_even.
Qed.

(** X20. For sections whose boundaries are in order and lie between
    [idx_start] and [idx_end], [generate_antisections] returns the
    complement: sections of the same kind that cover a position of
    [idx_start .. idx_end - 1] exactly when the given sections do not. *)
Theorem generate_antisections_complement (s e : Z) (Ss : list (Z * Z)) :
  (s ≤ e)%Z →
  StronglySorted Z.le (boundaries Ss) →
  Forall (λ x, s ≤ x ≤ e)%Z (boundaries Ss) →
  ∃ R, outcome (generate_antisections s e Ss) = Ok R ∧
       StronglySorted Z.le (boundaries R) ∧
       Forall (λ x, s ≤ x ≤ e)%Z (boundaries R) ∧
       ∀ p, (s ≤ p < e)%Z → covered R p ↔ ¬ covered Ss p.
Proof.
  intros Hse Hsort Hrange.
  destruct (decide (Ss = [])) as [-> | Hne].
  { exists [(s, e)]. change (boundaries [(s, e)]) with [s; e].
    split_and!; [done | | |].
    - repeat constructor. done.
    - repeat constructor; lia.
    - intros p Hp. split.
      + by intros _ (? & ? & ?%elem_of_nil & _).
      + intros _. exists s, e. split; [by left | done]. }
  destruct (boundaries_ends Ss Hne) as (a & m & b & Hd & Hev).
  eexists. split; [by apply outcome_antisections|].
  rewrite boundaries_zip_pairs by (by apply toggled_even).
  pose proof Hsort as Hsort0.
  rewrite Hd in Hsort, Hrange.
  apply StronglySorted_inv in Hsort as [Hsort Ha].
  apply StronglySorted_app in Hsort as (Hmb & Hm & _).
  apply Forall_cons_1 in Hrange as [Hra Hrange].
  apply Forall_app in Hrange as [Hrm Hrb].
  apply Forall_app in Ha as [Ham Hab].
  apply Forall_cons_1 in Hab as [Hab _].
  apply Forall_cons_1 in Hrb as [Hrb _].
  assert (StronglySorted Z.le
            ((if (a =? s)%Z then [] else [s; a]) ++ m ++
             (if (b =? e)%Z then [] else [b; e]))) as Hs'.
  { apply StronglySorted_app_2.
    - intros x1 x2 H1 H2.
      assert (x1 ≤ a)%Z as Hx1.
      { destruct (a =? s)%Z; [by apply elem_of_nil in H1|].
        apply elem_of_cons in H1 as [-> | H1]; [lia|].
        apply list_elem_of_singleton in H1 as ->. lia. }
      assert (a ≤ x2)%Z; [|lia].
      apply elem_of_app in H2 as [H2 | H2].
      + by apply (proj1 (list.Forall_forall _ _) Ham).
      + destruct (b =? e)%Z; [by apply elem_of_nil in H2|].
        apply elem_of_cons in H2 as [-> | H2]; [lia|].
        apply list_elem_of_singleton in H2 as ->. lia.
    - destruct (a =? s)%Z; repeat constructor. lia.
    - apply StronglySorted_app_2; [|done|].
      + intros x1 x2 H1 H2.
        assert (x1 ≤ b)%Z as Hx1 by (by apply Hmb; [|left]).
        destruct (b =? e)%Z; [by apply elem_of_nil in H2|].
        apply elem_of_cons in H2 as [-> | H2]; [lia|].
        apply list_elem_of_singleton in H2 as ->. lia.
      + destruct (b =? e)%Z; repeat constructor. lia. }
  split_and!; [done | |].
  - rewrite !Forall_app. split_and!; [|done|].
    + destruct (a =? s)%Z; repeat constructor; lia.
    + destruct (b =? e)%Z; repeat constructor; lia.
  - intros p Hp.
    rewrite (covered_odd_below Ss) by done.
    rewrite covered_odd_below
      by (rewrite boundaries_zip_pairs; [done | by apply toggled_even]).
    rewrite boundaries_zip_pairs by (by apply toggled_even).
    rewrite Hd.
    change (a :: m ++ [b]) with ([a] ++ m ++ [b]).
    rewrite !odd_below_app.
    assert (odd_below (if (a =? s)%Z then [] else [s; a]) p
            = negb (odd_below [a] p)) as ->.
    { destruct (Z.eqb_spec a s) as [-> | Hne']; cbn.
      - by destruct (Z.leb_spec s p); [|lia].
      - destruct (Z.leb_spec s p); [|lia]. by destruct (a <=? p)%Z. }
    assert (odd_below (if (b =? e)%Z then [] else [b; e]) p
            = odd_below [b] p) as ->.
    { destruct (Z.eqb_spec b e) as [-> | Hne']; cbn.
      - by destruct (Z.leb_spec e p); [lia|].
      - destruct (Z.leb_spec e p); [lia|]. by destruct (b <=? p)%Z. }
    destruct (odd_below [a] p), (odd_below m p), (odd_below [b] p); cbn;
      split; congruence.
Qed.

Lemma generate_antisections_complement_witness :
  ∃ R, outcome (generate_antisections 0 10 [(0, 2); (5, 7)]%Z) = Ok R ∧
       StronglySorted Z.le (boundaries R) ∧
       Forall (λ x, 0 ≤ x ≤ 10)%Z (boundaries R) ∧
       ∀ p, (0 ≤ p < 10)%Z → covered R p ↔ ¬ covered [(0, 2); (5, 7)]%Z p.
Proof.
  apply (generate_antisections_complement 0 10 [(0, 2); (5, 7)]%Z).
  - lia.
  - cbn. repeat constructor; lia.
  - cbn. repeat constructor; lia.
Defined.

Example generate_antisections_example :
  outcome (generate_antisections 0 10 [(0, 2); (5, 7)]%Z)
  = Ok [(2, 5); (7, 10)]%Z.
Proof. reflexivity. Qed.

Lemma outcome_antisections_zip_pairs (s e : Z) (d : list Z) (a b : Z)
    (m : list Z) :
  Nat.even (length d) = true → d = a :: m ++ [b] →
  outcome (generate_antisections s e (zip_pairs d))
  = Ok (zip_pairs ((if (a =? s)%Z then [] else [s; a]) ++ m ++
                   (if (b =? e)%Z then [] else [b; e]))).
Proof.
  intros Hev Hd. apply outcome_antisections.
  by rewrite boundaries_zip_pairs.
Qed.

(** X21. Applied twice with the same ends, [generate_antisections] gives
    back the sections it started from, provided no boundary occurs twice
    among them. *)
Theorem generate_antisections_involutive (s e : Z) (Ss : list (Z * Z)) :
  NoDup (boundaries Ss) →
  ∃ R, outcome (generate_antisections s e Ss) = Ok R ∧
       outcome (generate_antisections s e R) = Ok Ss.
Proof.
  intros Hnd.
  destruct (decide (Ss = [])) as [-> | Hne].
  { exists [(s, e)]. split; [done|].
    rewrite (outcome_antisections s e [(s, e)] s e []) by done.
    by rewrite !Z.eqb_refl. }
  destruct (boundaries_ends Ss Hne) as (a & m & b & Hd & Hev).
  eexists. split; [by apply outcome_antisections|].
  pose proof (toggled_even s e a b m Hev) as Hev'.
  rewrite <-(zip_pairs_boundaries Ss), Hd.
  rewrite Hd in Hnd. apply NoDup_cons in Hnd as [Ha Hnd].
  apply NoDup_app in Hnd as (_ & Hmb & _).
  assert (b ∉ m) as Hb.
  { intros Hin. apply (Hmb b Hin). by left. }
  assert (a ≠ b) as Hab.
  { intros ->. apply Ha, elem_of_app. right. by left. }
  assert (a ∉ m) as Ham.
  { intros Hin. apply Ha, elem_of_app. by left. }
  destruct (Z.eqb_spec a s) as [Has | Has], (Z.eqb_spec b e) as [Hbe | Hbe];
    rewrite ?app_nil_l, ?app_nil_r in Hev' |- *.
  - (* both ends removed *)
    destruct m as [|a' m1]; [by subst|].
    destruct (two_ends (a' :: m1)) as (a'' & m' & b' & Hm').
    { destruct m1; [done | cbn [length]; lia]. }
    rewrite (outcome_antisections_zip_pairs s e _ a'' b' m') by done.
    assert (a'' ≠ s) as Ha''.
    { intros ->. apply Ham. rewrite Hm'. subst. by left. }
    assert (b' ≠ e) as Hb'.
    { intros ->. apply Hb. rewrite Hm'. subst.
      right. apply elem_of_app. right. by left. }
    rewrite (proj2 (Z.eqb_neq a'' s)), (proj2 (Z.eqb_neq b' e)) by done.
    do 2 f_equal. rewrite Hm'. subst a b. cbn. f_equal. f_equal.
    by rewrite <-app_assoc.
  - (* the first removed, the end added *)
    assert (∃ a'' m'', m ++ [b] = a'' :: m'') as (a'' & m'' & Hm'').
    { destruct m as [|x m1]; [by exists b, [] | by exists x, (m1 ++ [b])]. }
    rewrite (outcome_antisections_zip_pairs s e _ a'' e m'') by
      (try done; change [b; e] with ([b] ++ [e]);
       by rewrite app_assoc, Hm'').
    assert (a'' ≠ s) as Ha''.
    { intros ->. apply Ha. rewrite Hm''. subst. by left. }
    rewrite (proj2 (Z.eqb_neq a'' s)), Z.eqb_refl by done.
    rewrite app_nil_r. do 2 f_equal. subst a. cbn. by rewrite Hm''.
  - (* the start added, the last removed *)
    destruct (two_ends (s :: a :: m)) as (s' & m' & b' & Hm').
    { cbn [length]. lia. }
    assert (s' = s) as -> by (by simplify_eq).
    rewrite (outcome_antisections_zip_pairs s e _ s b' m') by done.
    assert (a :: m = m' ++ [b']) as Htail by (by simplify_eq).
    assert (b' ≠ e) as Hb'.
    { intros ->. assert (e ∈ a :: m) as Hin.
      { rewrite Htail. apply elem_of_app. right. by left. }
      apply elem_of_cons in Hin as [Hin | Hin]; [by subst | by subst]. }
    rewrite (proj2 (Z.eqb_neq b' e)), Z.eqb_refl by done.
    rewrite app_nil_l. do 2 f_equal. subst b.
    change [b'; e] with ([b'] ++ [e]).
    by rewrite app_assoc, <-Htail.
  - (* both ends added *)
    rewrite (outcome_antisections_zip_pairs s e _ s e (a :: m ++ [b])).
    + by rewrite !Z.eqb_refl, app_nil_l, app_nil_r.
    + done.
    + cbn. by rewrite <-app_assoc.
Qed.

Lemma generate_antisections_involutive_witness :
  ∃ R, outcome (generate_antisections 0 10 [(0, 2); (5, 7)]%Z) = Ok R ∧
       outcome (generate_antisections 0 10 R) = Ok [(0, 2); (5, 7)]%Z.
Proof.
  apply (generate_antisections_involutive 0 10 [(0, 2); (5, 7)]%Z).
  cbn. repeat (apply NoDup_cons_2;
                 [rewrite ?elem_of_cons, elem_of_nil; lia|]).
  apply NoDup_nil_2.
Defined.

Example generate_antisections_repeated_boundary :
  outcome (generate_antisections 0 10 [(0, 0); (5, 7)]%Z)
  = Ok [(0, 5); (7, 10)]%Z ∧
  outcome (generate_antisections 0 10 [(0, 5); (7, 10)]%Z) = Ok [(5, 7)]%Z.
Proof. split; reflexivity. Qed.

(** ** [generate_sections] *)

Lemma mod_2_even (n : nat) : (n mod 2 =? 0) = Nat.even n.
Proof.
  destruct (Nat.even n) eqn:Hev.
  - apply Nat.even_spec in Hev as [k ->]. apply Nat.eqb_eq.
    rewrite Nat.mul_comm. apply Nat.Div0.mod_mul.
  - apply Nat.eqb_neq. intros Hmod.
    apply Nat.Div0.mod_divides in Hmod as [k ->].
    by rewrite Nat.even_even in Hev.
Qed.

Lemma changes_after_cons (b0 b1 : bool) (rest : list bool) :
  changes_after (b0 :: b1 :: rest)
  = (if xorb b1 b0 then [1%Z] else []) ++
    (Z.succ <$> changes_after (b1 :: rest)).
Proof.
  unfold changes_after. cbn [drop length].
  replace (S (S (length rest)) - 1) with (S (length rest)) by lia.
  replace (S (length rest) - 1) with (length rest) by lia.
  rewrite firstn_cons. cbn [zip_with].
  rewrite argwhere_cons, fmap_app, <-!list_fmap_compose. f_equal.
  - by destruct (xorb b1 b0).
  - apply list_fmap_ext. intros _ i _. cbn. lia.
Qed.

Lemma changes_after_range (barray : list bool) :
  Forall (λ x, 1 ≤ x ≤ Z.of_nat (length barray) - 1)%Z (changes_after barray).
Proof.
  apply list.Forall_forall. intros x (i & -> & Hi)%list_elem_of_fmap.
  apply elem_of_argwhere, lookup_lt_Some in Hi.
  rewrite length_zip_with, length_drop, length_take in Hi. lia.
Qed.

Lemma changes_after_sorted (barray : list bool) :
  StronglySorted Z.le (changes_after barray).
Proof.
  apply (StronglySorted_fmap _ lt); [intros; lia|].
  apply argwhere_increasing.
Qed.

Lemma odd_below_fmap_succ (d : list Z) (p : Z) :
  odd_below (Z.succ <$> d) p = odd_below d (p - 1).
Proof.
  induction d as [|x d IH]; [done|].
  rewrite fmap_cons.
  change (odd_below (Z.succ x :: (Z.succ <$> d)) p)
    with (xorb (Z.succ x <=? p)%Z (odd_below (Z.succ <$> d) p)).
  change (odd_below (x :: d) (p - 1))
    with (xorb (x <=? p - 1)%Z (odd_below d (p - 1))).
  rewrite IH. f_equal.
  destruct (Z.leb_spec (Z.succ x) p), (Z.leb_spec x (p - 1)); lia || done.
Qed.

Lemma odd_below_all_below (d : list Z) (p : Z) :
  Forall (λ x, x ≤ p)%Z d → odd_below d p = Nat.odd (length d).
Proof.
  induction 1 as [|x d Hx _ IH]; [done|].
  change (odd_below (x :: d) p) with (xorb (x <=? p)%Z (odd_below d p)).
  cbn [length]. rewrite Nat.odd_succ, <-Nat.negb_odd, IH.
  destruct (Z.leb_spec x p); [|lia]. by destruct (Nat.odd (length d)).
Qed.

(** The number of changes up to a position is odd exactly when the array
    differs there from its first entry. *)
Lemma odd_below_changes_after (rest : list bool) : ∀ (b0 : bool) (p : nat),
  p < length (b0 :: rest) →
  odd_below (changes_after (b0 :: rest)) (Z.of_nat p)
  = xorb b0 (default false ((b0 :: rest) !! p)).
Proof.
  induction rest as [|b1 rest IH]; intros b0 p Hp.
  - cbn [length] in Hp. assert (p = 0) as -> by lia. cbn.
    by destruct b0.
  - rewrite changes_after_cons, odd_below_app, odd_below_fmap_succ.
    destruct p as [|p].
    + rewrite (odd_below_all_above (changes_after _)).
      2:{ eapply list.Forall_impl; [apply changes_after_range|].
          cbn. lia. }
      destruct b0, b1; done.
    + replace (Z.of_nat (S p) - 1)%Z with (Z.of_nat p) by lia.
      rewrite IH by (cbn [length] in *; lia).
      change ((b0 :: b1 :: rest) !! S p) with ((b1 :: rest) !! p).
      assert (odd_below (if xorb b1 b0 then [1%Z] else []) (Z.of_nat (S p))
              = xorb b1 b0) as ->.
      { destruct (xorb b1 b0); [|done]. cbn.
        by destruct (Z.leb_spec 1 (Z.of_nat (S p))); [|lia]. }
      by destruct (default false ((b1 :: rest) !! p)), b0, b1.
Qed.

Lemma sections_args_range (barray : list bool) :
  Forall (λ x, 0 ≤ x ≤ Z.of_nat (length barray) - 1)%Z (sections_args barray).
Proof.
  unfold sections_args. rewrite !Forall_app. split_and!.
  - destruct (default false (barray !! 0)) eqn:Hb; [|done].
    apply Forall_singleton. destruct barray; [done | cbn [length]; lia].
  - eapply list.Forall_impl; [apply changes_after_range|]. cbn. lia.
  - destruct (default false (list.last barray)) eqn:Hb; [|done].
    apply Forall_singleton. destruct barray; [done | cbn [length]; lia].
Qed.

Lemma sections_args_sorted (barray : list bool) :
  StronglySorted Z.le (sections_args barray).
Proof.
  unfold sections_args. pose proof (changes_after_range barray) as Hr.
  rewrite list.Forall_forall in Hr.
  apply StronglySorted_app_2; [| |apply StronglySorted_app_2].
  - intros x1 x2 H1 H2.
    destruct (default false (barray !! 0)); [|by apply elem_of_nil in H1].
    apply list_elem_of_singleton in H1 as ->.
    apply elem_of_app in H2 as [H2 | H2]; [apply Hr in H2; lia|].
    destruct (default false (list.last barray)) eqn:Hl;
      [|by apply elem_of_nil in H2].
    apply list_elem_of_singleton in H2 as ->.
    destruct barray; [done | cbn [length]; lia].
  - destruct (default false (barray !! 0)); repeat constructor.
  - intros x1 x2 H1 H2.
    destruct (default false (list.last barray)); [|by apply elem_of_nil in H2].
    apply list_elem_of_singleton in H2 as ->. apply Hr in H1. lia.
  - apply changes_after_sorted.
  - destruct (default false (list.last barray)); repeat constructor.
Qed.

(** An odd number of boundaries lie at or before a position exactly when
    the position is before the last one and the array is true there. *)
Lemma odd_below_sections_args (barray : list bool) (p : Z) :
  barray ≠ [] →
  odd_below (sections_args barray) p
  = if ((0 <=? p) && (p <? Z.of_nat (length barray) - 1))%Z
    then default false (barray !! Z.to_nat p) else false.
Proof.
  intros Hne. destruct barray as [|b0 rest]; [done|]. clear Hne.
  pose proof (changes_after_range (b0 :: rest)) as Hr.
  assert (default false (list.last (b0 :: rest))
          = default false ((b0 :: rest) !! length rest)) as Hlast.
  { by rewrite last_lookup. }
  unfold sections_args. rewrite Hlast, !odd_below_app.
  change (default false ((b0 :: rest) !! 0)) with b0.
  set (n := length (b0 :: rest)) in *.
  assert (n = S (length rest)) as Hn by done.
  destruct (Z.leb_spec 0 p) as [H0 | H0]; cbn [andb].
  - destruct (Z.ltb_spec p (Z.of_nat n - 1)) as [Hp | Hp].
    + assert (∃ q : nat, p = Z.of_nat q) as [q ->]
        by (exists (Z.to_nat p); lia).
      rewrite Nat2Z.id.
      rewrite odd_below_changes_after by (fold n; lia).
      rewrite (odd_below_all_above (if default false _ then _ else _)).
      2:{ destruct (default false ((b0 :: rest) !! length rest)); [|done].
          apply Forall_singleton. lia. }
      assert (odd_below (if b0 then [0%Z] else []) (Z.of_nat q) = b0) as ->.
      { destruct b0; [|done]. cbn.
        by destruct (Z.leb_spec 0 (Z.of_nat q)); [|lia]. }
      by destruct (default false ((b0 :: rest) !! q)), b0.
    + rewrite (odd_below_all_below (changes_after _)).
      2:{ eapply list.Forall_impl; [exact Hr|]. cbn. fold n. lia. }
      rewrite <-(odd_below_all_below _ (Z.of_nat (length rest))).
      2:{ eapply list.Forall_impl; [exact Hr|]. cbn. fold n. lia. }
      rewrite odd_below_changes_after by (cbn [length]; lia).
      assert (odd_below (if b0 then [0%Z] else []) p = b0) as ->.
      { destruct b0; [|done]. cbn. by destruct (Z.leb_spec 0 p); [|lia]. }
      assert (∀ bl : bool,
                odd_below (if bl then [(Z.of_nat n - 1)%Z] else []) p = bl)
        as ->.
      { intros [|]; [|done]. unfold odd_below. cbn [foldr].
        by destruct (Z.leb_spec (Z.of_nat n - 1) p); [|lia]. }
      by destruct (default false ((b0 :: rest) !! length rest)), b0.
  - rewrite <-!odd_below_app. apply odd_below_all_above.
    rewrite !Forall_app. split_and!.
    + destruct b0; [|done]. apply Forall_singleton. lia.
    + eapply list.Forall_impl; [exact Hr|]. cbn. lia.
    + destruct (default false ((b0 :: rest) !! length rest)); [|done].
      apply Forall_singleton. lia.
Qed.

Lemma sections_args_even (barray : list bool) :
  barray ≠ [] → Nat.even (length (sections_args barray)) = true.
Proof.
  intros Hne. rewrite <-Nat.negb_odd.
  rewrite <-(odd_below_all_below _ (Z.of_nat (length barray) - 1)).
  - rewrite odd_below_sections_args by done.
    destruct (Z.ltb_spec (Z.of_nat (length barray) - 1)
                (Z.of_nat (length barray) - 1)); [lia|].
    by rewrite andb_false_r.
  - eapply list.Forall_impl; [apply sections_args_range|]. cbn. lia.
Qed.

(** On a non-empty array the tests and the assertion of
    [generate_sections] pass, and the sections pair up [sections_args]. *)
Lemma generate_sections_nonempty (barray : list bool)
    (reconnect_length : option Z) :
  barray ≠ [] →
  generate_sections barray reconnect_length
  = match reconnect_length with
    | Some reconnect_length =>
        if 0 <? length (zip_pairs (sections_args barray))
        then reconnect_sections (zip_pairs (sections_args barray))
               reconnect_length
        else mret (zip_pairs (sections_args barray))
    | None => mret (zip_pairs (sections_args barray))
    end.
Proof.
  intros Hne. pose proof (sections_args_even barray Hne) as Hev.
  destruct barray as [|b0 rest]; [done|].
  destruct (list.last (b0 :: rest)) as [bl|] eqn:Hlast;
    [|by apply last_None in Hlast].
  unfold generate_sections.
  change (py_index (b0 :: rest) 0) with (mret b0 : M bool).
  rewrite mret_bind. unfold py_last. rewrite Hlast, mret_bind.
  fold (changes_after (b0 :: rest)).
  assert ((let pargs := [] in
           let pargs := if b0 then pargs ++ [[0%Z]] else pargs in
           let pargs := pargs ++ [changes_after (b0 :: rest)] in
           let pargs :=
             if bl then pargs ++ [[(Z.of_nat (length (b0 :: rest)) - 1)%Z]]
             else pargs in
           if 1 <? length pargs then concat pargs
           else changes_after (b0 :: rest))
          = sections_args (b0 :: rest)) as Hargs.
  { unfold sections_args. rewrite Hlast.
    change (default false ((b0 :: rest) !! 0)) with b0.
    change (default false (Some bl)) with bl.
    destruct b0, bl; cbn; by rewrite ?app_nil_r. }
  cbv zeta in Hargs |- *. rewrite Hargs.
  rewrite mod_2_even, Hev.
  change (py_assert true) with (mret tt : M unit). by rewrite mret_bind.
Qed.

(** ** The reconnection of sections in [generate_sections] *)

Lemma kept_disconnects_cons rl (x y : Z * Z) (r : list (Z * Z)) :
  kept_disconnects rl (x :: y :: r)
  = (if (rl <? y.1 - x.2)%Z then [x.2; y.1] else []) ++
    kept_disconnects rl (y :: r).
Proof. done. Qed.

Lemma reconnect_loop rl (sections : list (Z * Z)) : ∀ cnt i d,
  1 ≤ i → i + cnt = length sections →
  for_each (λ disconnects idx,
      prev ← py_index sections (idx - 1);
      cur ← py_index sections idx;
      let eidx := prev.2 in
      let sidx := cur.1 in
      if (rl <? sidx - eidx)%Z
      then mret (disconnects ++ [eidx; sidx])
      else mret disconnects) (seq i cnt) d
  = mret (d ++ kept_disconnects rl (drop (i - 1) sections)).
Proof.
  induction cnt as [|cnt IH]; intros i d Hi Hlen.
  - cbn [seq for_each].
    destruct (drop (i - 1) sections) as [|x [|y r]] eqn:Hdrop.
    + by rewrite app_nil_r.
    + by rewrite app_nil_r.
    + apply (f_equal length) in Hdrop. rewrite length_drop in Hdrop.
      cbn [length] in Hdrop. lia.
  - cbn [seq]. rewrite for_each_cons. cbv beta.
    destruct (lookup_lt_is_Some_2 sections (i - 1)) as [prev Hprev]; [lia|].
    destruct (lookup_lt_is_Some_2 sections i) as [cur Hcur]; [lia|].
    assert (py_index sections (i - 1) = mret prev) as ->
      by (unfold py_index; by rewrite Hprev).
    assert (py_index sections i = mret cur) as ->
      by (unfold py_index; by rewrite Hcur).
    rewrite !mret_bind. cbv zeta.
    assert (drop (i - 1) sections = prev :: cur :: drop (S i) sections)
      as Hdrop.
    { rewrite (drop_S _ prev (i - 1)) by done.
      replace (S (i - 1)) with i by lia.
      by rewrite (drop_S _ cur i). }
    rewrite Hdrop, kept_disconnects_cons.
    assert (cur :: drop (S i) sections = drop (S i - 1) sections) as Hnext.
    { replace (S i - 1) with i by lia. by rewrite (drop_S _ cur i). }
    rewrite Hnext.
    destruct (rl <? cur.1 - prev.2)%Z; rewrite mret_bind.
    + rewrite IH by lia. by rewrite <-app_assoc.
    + rewrite IH by lia. done.
Qed.

Lemma reconnect_sections_disconnects rl (s0 : Z * Z) (rest : list (Z * Z)) :
  reconnect_sections (s0 :: rest) rl
  = mret (zip_pairs (all_disconnects rl s0 rest)).
Proof.
  unfold reconnect_sections.
  change (py_index (s0 :: rest) 0) with (mret s0 : M (Z * Z)).
  rewrite mret_bind. cbn [length].
  replace (S (length rest) - 1) with (length rest) by lia.
  rewrite reconnect_loop by (cbn [length]; lia).
  rewrite mret_bind. unfold py_last.
  assert (list.last (s0 :: rest) = Some (default s0 (list.last rest))) as ->.
  { destruct rest as [|x rest] using rev_ind; [done|].
    by rewrite app_comm_cons, !last_snoc. }
  rewrite mret_bind. cbv zeta. unfold all_disconnects. by rewrite drop_0.
Qed.

Lemma kept_disconnects_head rl (a a' e : Z) (r : list (Z * Z)) :
  kept_disconnects rl ((a, e) :: r) = kept_disconnects rl ((a', e) :: r).
Proof. by destruct r. Qed.

Lemma all_disconnects_single rl (a e : Z) :
  all_disconnects rl (a, e) [] = [a; e].
Proof. done. Qed.

Lemma all_disconnects_cons rl (a e s b : Z) (r : list (Z * Z)) :
  all_disconnects rl (a, e) ((s, b) :: r)
  = if (rl <? s - e)%Z then a :: e :: all_disconnects rl (s, b) r
    else all_disconnects rl (a, b) r.
Proof.
  unfold all_disconnects. rewrite kept_disconnects_cons.
  assert (list.last ((s, b) :: r) = Some (default (s, b) (list.last r)))
    as ->.
  { destruct r as [|x r] using rev_ind; [done|].
    by rewrite app_comm_cons, !last_snoc. }
  cbn [default fst snd].
  destruct (rl <? s - e)%Z; [done|].
  rewrite app_nil_l, (kept_disconnects_head rl s a b).
  by destruct (list.last r).
Qed.

Lemma covered_cons (a b : Z) (Ss : list (Z * Z)) (p : Z) :
  covered ((a, b) :: Ss) p ↔ (a ≤ p < b)%Z ∨ covered Ss p.
Proof.
  unfold covered. split.
  - intros (s & e & [Heq | Hin]%elem_of_cons & Hp).
    + simplify_eq. by left.
    + right. by exists s, e.
  - intros [Hp | (s & e & Hin & Hp)].
    + exists a, b. split; [by left | done].
    + exists s, e. split; [by right | done].
Qed.

Lemma in_short_gap_single rl (x : Z * Z) (p : Z) : ¬ in_short_gap rl [x] p.
Proof. by intros (i & prev & cur & _ & Hcur & _). Qed.

Lemma in_short_gap_cons rl (x y : Z * Z) (r : list (Z * Z)) (p : Z) :
  in_short_gap rl (x :: y :: r) p ↔
  ((x.2 ≤ p < y.1)%Z ∧ (y.1 - x.2 ≤ rl)%Z) ∨ in_short_gap rl (y :: r) p.
Proof.
  unfold in_short_gap. split.
  - intros (i & prev & cur & Hprev & Hcur & Hp & Hrl).
    destruct i as [|i].
    + left. cbn in Hprev, Hcur. by simplify_eq.
    + right. by exists i, prev, cur.
  - intros [[Hp Hrl] | (i & prev & cur & Hprev & Hcur & Hp & Hrl)].
    + by exists 0, x, y.
    + by exists (S i), prev, cur.
Qed.

Lemma in_short_gap_head rl (a a' e : Z) (r : list (Z * Z)) (p : Z) :
  in_short_gap rl ((a, e) :: r) p ↔ in_short_gap rl ((a', e) :: r) p.
Proof.
  destruct r as [|y r].
  - split; intros H; by apply in_short_gap_single in H.
  - by rewrite !in_short_gap_cons.
Qed.

(** What [reconnect_sections] returns, for sections with boundaries in
    order: the positions covered before or lying in a short gap are
    covered, the first section still starts where it did, and the gaps
    left are longer than [reconnect_length]. *)
Lemma reconnect_sections_covered rl (p : Z) (r : list (Z * Z)) : ∀ a e,
  StronglySorted Z.le (boundaries ((a, e) :: r)) →
  (covered (zip_pairs (all_disconnects rl (a, e) r)) p ↔
   covered ((a, e) :: r) p ∨ in_short_gap rl ((a, e) :: r) p) ∧
  (∃ x tail, zip_pairs (all_disconnects rl (a, e) r) = (a, x) :: tail) ∧
  (∀ i prev cur,
     zip_pairs (all_disconnects rl (a, e) r) !! i = Some prev →
     zip_pairs (all_disconnects rl (a, e) r) !! S i = Some cur →
     (rl < cur.1 - prev.2)%Z).
Proof.
  induction r as [|[s b] r IH]; intros a e Hs.
  - rewrite all_disconnects_single.
    change (zip_pairs [a; e]) with [(a, e)]. split_and!.
    + split; [by left|]. intros [? | H]; [done|].
      by apply in_short_gap_single in H.
    + by exists e, [].
    + by intros i prev cur _ Hcur.
  - change (boundaries ((a, e) :: (s, b) :: r))
      with (a :: e :: boundaries ((s, b) :: r)) in Hs.
    apply StronglySorted_inv in Hs as [Hs Ha].
    apply StronglySorted_inv in Hs as [Hs He].
    change (boundaries ((s, b) :: r)) with (s :: b :: boundaries r) in *.
    apply Forall_cons_1 in Ha as [Hae Ha].
    apply Forall_cons_1 in Ha as [Has Ha].
    apply Forall_cons_1 in Ha as [Hab Ha].
    apply Forall_cons_1 in He as [Hes He].
    apply Forall_cons_1 in He as [Heb He].
    pose proof Hs as Hs'.
    apply StronglySorted_inv in Hs' as [Hs' Hs0].
    apply Forall_cons_1 in Hs0 as [Hsb Hs0].
    apply StronglySorted_inv in Hs' as [Hr Hb].
    rewrite all_disconnects_cons, in_short_gap_cons. cbn [fst snd].
    destruct (Z.ltb_spec rl (s - e)) as [Hgap | Hgap].
    + destruct (IH s b) as (Hcov & (x & tail & Hhead) & Hgaps); [done|].
      rewrite zip_pairs_cons_cons. split_and!.
      * rewrite !covered_cons, Hcov, covered_cons.
        split; [intros [? | [[? | ?] | ?]] | intros [[? | [? | ?]] | [? | ?]]];
          try lia; tauto.
      * by exists e, (zip_pairs (all_disconnects rl (s, b) r)).
      * intros [|i] prev cur Hprev Hcur.
        -- rewrite Hhead in Hcur. cbn in Hprev, Hcur. by simplify_eq.
        -- by apply (Hgaps i).
    + destruct (IH a b) as (Hcov & Hhead & Hgaps).
      { change (boundaries ((a, b) :: r)) with (a :: b :: boundaries r).
        constructor; [by constructor|]. by constructor. }
      split_and!; [|done..].
      rewrite Hcov, !covered_cons, (in_short_gap_head rl a s b).
      split; [intros [[? | ?] | ?] | intros [[? | [? | ?]] | [? | ?]]];
        try lia; try tauto.
Qed.

(** ** What [generate_sections] returns *)

(** X22. [generate_sections] without reconnection raises only on an empty
    array, and then [IndexError]: the assertion on the number of
    boundaries never fails.  On a non-empty array the sections it returns
    have their boundaries in order, and they cover exactly the positions
    before the last one at which the array is true; the last position is
    never covered. *)
Theorem generate_sections_spec (barray : list bool) :
  match outcome (generate_sections barray None) with
  | Ok R =>
      barray ≠ [] ∧
      StronglySorted Z.le (boundaries R) ∧
      ∀ p : Z, covered R p ↔
               (0 ≤ p < Z.of_nat (length barray) - 1)%Z ∧
               barray !! Z.to_nat p = Some true
  | Raise e => barray = [] ∧ e = IndexError
  end.
Proof.
  destruct (decide (barray = [])) as [-> | Hne]; [done|].
  rewrite generate_sections_nonempty by done.
  change (outcome (mret ?x)) with (Ok x); cbv beta iota.
  pose proof (sections_args_even barray Hne) as Hev.
  pose proof (sections_args_sorted barray) as Hsort.
  rewrite boundaries_zip_pairs by done.
  split_and!; [done | done |]. intros p.
  rewrite covered_odd_below by (by rewrite boundaries_zip_pairs).
  rewrite boundaries_zip_pairs, odd_below_sections_args by done.
  destruct (Z.leb_spec 0 p) as [H0 | H0]; cbn [andb].
  - destruct (Z.ltb_spec p (Z.of_nat (length barray) - 1)) as [Hp | Hp].
    + destruct (lookup_lt_is_Some_2 barray (Z.to_nat p)) as [b Hb]; [lia|].
      rewrite Hb. cbn. split; [intros ->; split; [lia | done]|].
      by intros [_ [= ->]].
    + split; [done | lia].
  - split; [done | lia].
Qed.

Example generate_sections_example :
  outcome (generate_sections
             [true; true; false; false; true; false; true; true] None)
  = Ok [(0, 2); (4, 5); (6, 7)]%Z.
Proof. reflexivity. Qed.

(** X23. With a [reconnect_length], [generate_sections] fails only as it
    does without one.  Otherwise it covers what the sections without
    reconnection cover and, in addition, every gap between two
    consecutive ones of them that is no longer than [reconnect_length];
    the sections it returns are more than [reconnect_length] apart. *)
Theorem generate_sections_reconnect (barray : list bool) (rl : Z) :
  match outcome (generate_sections barray (Some rl)),
        outcome (generate_sections barray None) with
  | Ok R, Ok R0 =>
      (∀ p : Z, covered R p ↔ covered R0 p ∨ in_short_gap rl R0 p) ∧
      (∀ i prev cur, R !! i = Some prev → R !! S i = Some cur →
                     (rl < cur.1 - prev.2)%Z)
  | Raise e, Raise e0 => barray = [] ∧ e = IndexError ∧ e0 = IndexError
  | _, _ => False
  end.
Proof.
  destruct (decide (barray = [])) as [-> | Hne]; [done|].
  rewrite !generate_sections_nonempty by done.
  pose proof (sections_args_even barray Hne) as Hev.
  pose proof (sections_args_sorted barray) as Hsort.
  rewrite <-(boundaries_zip_pairs (sections_args barray)) in Hsort by done.
  destruct (zip_pairs (sections_args barray)) as [|[a e] r].
  - change (outcome (mret ?x)) with (Ok x); cbv beta iota. split.
    + intros p. split; [by left|]. intros [? | (i & ? & ? & ? & _)]; done.
    + by intros i prev cur ?.
  - cbn [length Nat.ltb Nat.leb].
    rewrite reconnect_sections_disconnects.
    change (outcome (mret ?x)) with (Ok x); cbv beta iota.
    split.
    + intros p. by apply reconnect_sections_covered.
    + by apply (reconnect_sections_covered rl 0).
Qed.

Example generate_sections_reconnect_example :
  outcome (generate_sections
             [true; true; false; false; true; false; true; true] (Some 1%Z))
  = Ok [(0, 2); (4, 7)]%Z.
Proof. reflexivity. Qed.

(** ** The outcomes of [matrix_stack_id] *)

(** X24. Every outcome of [matrix_stack_id], on elements that are arrays,
    Python numbers or lists of numbers, has one cause: [IndexError] means
    the empty list; the shape mismatch means diagonal elements without a
    common shape; any other exception is the one with which numpy refuses,
    for the override, the literal 0 or a diagonal element, the shapes being
    compatible and of rank at least 1.  The rows it builds are never ragged
    and never empty, so the assertion and the errors of an input without
    elements do not occur.  Otherwise it returns a well-formed array of
    shape [B ++ [N; N]], [B] being the common shape of the [N] diagonal
    elements. *)
Theorem matrix_stack_id_outcome_causes {V} (cast : DType → V → V)
    (reject : DType → V → option exn) (zero : V)
    (uninit : nat → V) (arr : list (ndarray V)) (dt : option DType) :
  match outcome (matrix_stack_id cast reject zero uninit arr dt) with
  | Ok Marr =>
      ∃ B, arr ≠ [] ∧
        np_broadcast_shapes (shape <$> arr) = Some B ∧
        shape Marr = B ++ [length arr; length arr] ∧
        (∀ t, dt = Some t → 0 < length B →
              fill_error reject t (concat (id_rows zero arr)) = None) ∧
        length (data Marr) = size_of (shape Marr)
  | Raise e =>
      (e = IndexError ∧ arr = []) ∨
      (e = ValueError_broadcast ∧
       arr ≠ [] ∧ np_broadcast_shapes (shape <$> arr) = None) ∨
      (∃ t B, dt = Some t ∧ arr ≠ [] ∧
         np_broadcast_shapes (shape <$> arr) = Some B ∧ 0 < length B ∧
         fill_error reject t (concat (id_rows zero arr)) = Some e)
  end.
Proof.
  rewrite matrix_stack_id_rows.
  pose proof (matrix_stack_classify cast reject zero uninit
                (id_rows zero arr) dt) as H.
  pose proof (id_rows_rect zero arr) as Hrect.
  pose proof (length_id_rows zero arr) as Hlen.
  assert (id_rows zero arr ≠ [] →
          ¬ Forall (λ row, row = []) (id_rows zero arr)) as Hrows.
  { intros Hne Hall. destruct (id_rows zero arr) as [|row rows]; [done|].
    apply Forall_cons_1 in Hall as [-> _].
    apply Forall_cons_1 in Hrect as [Hrow _].
    cbn [length] in Hrow, Hlen. lia. }
  assert (∀ B, np_broadcast_shapes (shape <$> arr) = Some B →
               0 < length B → arr ≠ []) as Hnonempty.
  { intros B HB Hrank ->. cbn in HB. simplify_eq. cbn in Hrank. lia. }
  destruct (outcome _) as [Marr | e].
  - destruct H as (R & C & B & HR & HC & HR0 & HC0 & HB & Hshape & Hov & Hdata).
    rewrite id_rows_shapes in HB. exists B.
    assert (C = length arr) as ->.
    { destruct (id_rows zero arr) as [|row rows]; [cbn in HR; lia|].
      apply Forall_cons_1 in HC as [<- _].
      by apply Forall_cons_1 in Hrect as [-> _]. }
    split_and!; [| done | | done | done].
    + intros ->. cbn in HR. lia.
    + rewrite Hshape. do 3 f_equal. lia.
  - destruct H as [[-> H] | [[-> H] | [[-> H] | [[-> H] | [[-> H] | H]]]]].
    + left. split; [done|]. destruct arr; [done|]. by rewrite H in Hlen.
    + destruct H as (i & j & row_i & row_j & Hi & Hj & Hne).
      rewrite Forall_lookup in Hrect.
      rewrite (Hrect i row_i Hi), (Hrect j row_j Hj) in Hne. done.
    + destruct H as (_ & Hne & Hall). by destruct (Hrows Hne).
    + destruct H as (_ & Hne & Hall). by destruct (Hrows Hne).
    + destruct H as [_ HB]. rewrite id_rows_shapes in HB.
      right. left. split; [done|]. split; [|done]. by intros ->.
    + destruct H as (t & B & C & -> & _ & HB & Hrank & Hfill).
      rewrite id_rows_shapes in HB.
      do 2 right. exists t, B. split_and!; [done | | done | done | done].
      by apply (Hnonempty B).
Qed.

(** The literal zeros are Python integers: an element they sit beside is
    stacked, and an override that cannot hold a diagonal Python integer is
    refused. *)
Example matrix_stack_id_override :
  (∃ Marr, outcome (matrix_stack_id Sample.cast Sample.reject 0%Z Sample.uninit
                      [Sample.v3; Sample.py_int 7%Z] (Some Int8)) = Ok Marr ∧
     dtype Marr = Int8 ∧ slice_2d 0%Z Marr 0 1 = [0; 0; 0]%Z ∧
     slice_2d 0%Z Marr 1 1 = [7; 7; 7]%Z) ∧
  outcome (matrix_stack_id Sample.cast Sample.reject 0%Z Sample.uninit
             Sample.v3_and_300 (Some Int8)) = Raise OverflowError.
Proof.
  split; [|reflexivity].
  eexists. split; [vm_compute; reflexivity|]. by vm_compute.
Qed.
